(** * Tempest: live-migration flow, console helper, skip checks, cleanups
      and the 3.57 volume-transfer schemas

    Shallow embedding of
    - [tempest/api/compute/admin/test_live_migration.py]
    - [tempest/api/identity/admin/v3/test_endpoints.py]
    - [tempest/api/volume/test_volumes_backup.py]
    - [tempest/lib/api_schema/response/volume/v3_57/transfers.py]

    The remote cloud is an opaque collaborator: every client call is a
    computation over an abstract world that either returns a value or
    raises.  Python objects that are mutated in place (the schema
    dictionaries) live in an explicit heap of objects addressed by
    identity. *)

From Stdlib Require Import PrimFloat.
From Stdlib Require Import ZArith Lia.
From stdpp Require Import base option list strings.

Local Open Scope string_scope.
Local Open Scope list_scope.

(** ** Exceptions and results *)

(** The Python exceptions the modelled code raises or lets through.
    Only subclasses of [Exception] are modelled. *)
Inductive exn : Type :=
| SkipException (reason : string)
| AssertionFailure (msg : string)
| TimeoutException (msg : string)
| KeyError (key : string)
| AttributeError (name : string)
| UnboundLocalError (name : string)
| RemoteError (msg : string).

Inductive result (A : Type) : Type :=
| Ok (a : A)
| Raise (e : exn).
Arguments Ok {A} a.
Arguments Raise {A} e.

(** ** State-and-exception monad

    [M St A] is a Python statement sequence run against a state [St]:
    it yields a value or an exception, and the state it leaves. *)
Definition M (St A : Type) : Type := St -> result A * St.

Definition ret {St A} (a : A) : M St A := fun s => (Ok a, s).

Definition raise {St A} (e : exn) : M St A := fun s => (Raise e, s).

Definition bind {St A B} (c : M St A) (k : A -> M St B) : M St B :=
  fun s =>
    match c s with
    | (Ok a, s1) => k a s1
    | (Raise e, s1) => (Raise e, s1)
    end.

(** [lift r] turns the outcome of a pure, fallible expression into a
    statement. *)
Definition lift {St A} (r : result A) : M St A := fun s => (r, s).

(** [try: body except Exception: handler] *)
Definition try_except {St A} (body : M St A) (handler : exn -> M St A)
  : M St A :=
  fun s =>
    match body s with
    | (Ok a, s1) => (Ok a, s1)
    | (Raise e, s1) => handler e s1
    end.

(** [try: body finally: fin].  The [finally] suite always runs; an
    exception it raises replaces the outcome of [body]. *)
Definition try_finally {St A} (body : M St A) (fin : M St unit) : M St A :=
  fun s =>
    match body s with
    | (r, s1) =>
        match fin s1 with
        | (Ok _, s2) => (r, s2)
        | (Raise e, s2) => (Raise e, s2)
        end
    end.

Notation "x <~ c ;; k" := (bind c (fun x => k))
  (at level 100, c at next level, right associativity).
Notation "c ;;; k" := (bind c (fun _ => k))
  (at level 100, right associativity).

(** ** Strings: the [in] operator of Python on [str] *)

Fixpoint is_prefix (s t : string) : bool :=
  match s, t with
  | EmptyString, _ => true
  | String a s', String b t' => if Ascii.eqb a b then is_prefix s' t' else false
  | String _ _, EmptyString => false
  end.

(** [str_in s t] is Python's [s in t]. *)
Fixpoint str_in (s t : string) : bool :=
  is_prefix s t ||
  match t with
  | EmptyString => false
  | String _ t' => str_in s t'
  end.

(** The propositional reading of [s in t]. *)
Definition occurs_in (s t : string) : Prop :=
  exists pre post, t = String.append pre (String.append s post).

Definition newline : string := String (Ascii.ascii_of_nat 10) EmptyString.

(** The text an exception carries. *)
Definition exn_message (e : exn) : string :=
  match e with
  | SkipException s | AssertionFailure s | TimeoutException s
  | KeyError s | AttributeError s | UnboundLocalError s | RemoteError s => s
  end.

(** ** Process-wide configuration ([CONF]) *)

Record Conf : Type := {
  live_migration : bool;
  min_compute_nodes : Z;
  block_migration_for_live_migration : bool;
  can_migrate_between_any_hosts : bool;
  live_migrate_back_and_forth : bool;
  pause : bool;
  volume_backed_live_migration : bool;
  block_migrate_cinder_iscsi : bool;
  serial_console : bool;
  backup : bool
}.

(** ** Basic facts about the monad and about [in] on strings *)

Lemma bind_Ok_inv {St A B} (c : M St A) (k : A -> M St B) s b s' :
  bind c k s = (Ok b, s') ->
  exists a s1, c s = (Ok a, s1) /\ k a s1 = (Ok b, s').
Proof.
  unfold bind. destruct (c s) as [[a|e] s1]; intros H.
  - exists a, s1. split; [reflexivity | exact H].
  - discriminate H.
Qed.

Lemma bind_Ok_step {St A B} (c : M St A) (k : A -> M St B) s a s1 :
  c s = (Ok a, s1) -> bind c k s = k a s1.
Proof. intros H. unfold bind. rewrite H. reflexivity. Qed.

Lemma bind_Raise_step {St A B} (c : M St A) (k : A -> M St B) s e s1 :
  c s = (Raise e, s1) -> bind c k s = (Raise e, s1).
Proof. intros H. unfold bind. rewrite H. reflexivity. Qed.

Lemma append_nil_l (b : string) : String.append EmptyString b = b.
Proof. reflexivity. Qed.

Lemma append_cons_l (x : Ascii.ascii) (a b : string) :
  String.append (String x a) b = String x (String.append a b).
Proof. reflexivity. Qed.

Lemma append_assoc (a b c : string) :
  String.append (String.append a b) c = String.append a (String.append b c).
Proof.
  induction a as [|x a IH]; [reflexivity |].
  rewrite !append_cons_l. now rewrite IH.
Qed.

Lemma append_empty_r (a : string) : String.append a EmptyString = a.
Proof.
  induction a as [|x a IH]; [reflexivity |].
  rewrite append_cons_l. now rewrite IH.
Qed.

Lemma occurs_in_refl (s : string) : occurs_in s s.
Proof.
  exists EmptyString, EmptyString.
  now rewrite append_nil_l, append_empty_r.
Qed.

Lemma occurs_in_append_l (s t u : string) :
  occurs_in s t -> occurs_in s (String.append t u).
Proof.
  intros (pre & post & ->). exists pre, (String.append post u).
  now rewrite !append_assoc.
Qed.

Lemma occurs_in_append_r (s t u : string) :
  occurs_in s t -> occurs_in s (String.append u t).
Proof.
  intros (pre & post & ->). exists (String.append u pre), post.
  now rewrite !append_assoc.
Qed.

Lemma is_prefix_append (s post : string) :
  is_prefix s (String.append s post) = true.
Proof.
  induction s as [|a s IH]; [reflexivity |].
  rewrite append_cons_l. simpl. now rewrite Ascii.eqb_refl.
Qed.

Lemma is_prefix_inv (s t : string) :
  is_prefix s t = true -> exists post, t = String.append s post.
Proof.
  revert t. induction s as [|a s IH]; intros t H.
  - exists t. reflexivity.
  - destruct t as [|b t]; simpl in H; [discriminate |].
    destruct (Ascii.eqb a b) eqn:E; [| discriminate].
    apply Ascii.eqb_eq in E. subst b.
    destruct (IH t H) as [post ->]. exists post. reflexivity.
Qed.

(** [str_in] decides [occurs_in]. *)
Lemma str_in_iff (s t : string) : str_in s t = true <-> occurs_in s t.
Proof.
  split.
  - induction t as [|b t IH]; simpl; intros H.
    + rewrite orb_false_r in H. destruct (is_prefix_inv _ _ H) as [post E].
      exists EmptyString, post. exact E.
    + apply orb_true_iff in H. destruct H as [H|H].
      * destruct (is_prefix_inv _ _ H) as [post E].
        exists EmptyString, post. exact E.
      * destruct (IH H) as (pre & post & ->).
        exists (String b pre), post. reflexivity.
  - intros (pre & post & ->). induction pre as [|b pre IH].
    + rewrite append_nil_l.
      assert (P : is_prefix s (String.append s post) = true)
        by apply is_prefix_append.
      destruct (String.append s post); simpl; now rewrite P.
    + rewrite append_cons_l. simpl. rewrite IH. apply orb_true_r.
Qed.

(** * Live migration ([test_live_migration.py]) *)

Module LiveMigration.

(** The value of a class attribute: Python [None] or a string. *)
Inductive pyattr : Type :=
| AttrNone
| AttrStr (s : string).

(** What is passed as [block_migration] to the compute client: a
    boolean computed from the configuration, or the class attribute
    (['auto']). *)
Inductive bm_arg : Type :=
| BmBool (b : bool)
| BmStr (s : string).

(** [self.servers_client] and [self.admin_servers_client]. *)
Inductive client : Type :=
| ServersClient
| AdminServersClient.

(** The part of [self] that [_migrate_server_to] reads.  The attribute
    [block_migration] is declared by [LiveMigrationTest] and its
    subclasses only, so it may be absent. *)
Record TestClass : Type := {
  block_migration : option pyattr;
  is_requested_microversion_compatible : string -> bool
}.

Section Flow.

Context {World Migration : Type}.

(** The process-wide configuration. *)
Variable CONF : Conf.

(** Remote collaborators (clients, waiters, base-class helpers). *)
Variable get_host_for_server : string -> M World string.
Variable live_migrate_server :
  string -> option string -> bm_arg -> option bool -> M World unit.
Variable wait_for_server_status : client -> string -> string -> M World unit.
Variable list_migrations : M World (list Migration).
Variable create_test_server : string -> bool -> M World string.
Variable get_host_other_than : string -> M World string.
Variable pause_server : string -> M World unit.

(** A migration record is a JSON object: [instance_uuid m] is
    [m['instance_uuid']] ([None] when the key is missing) and
    [str_of m] is its rendering by ["%s" % m]. *)
Variable instance_uuid : Migration -> option string.
Variable str_of : Migration -> string.

(** [_migrate_server_to].  The local [block_migration] is first read
    with [getattr(self, 'block_migration', None)], which never raises;
    the test [self.block_migration is None] that follows raises
    [AttributeError] when the attribute is absent, so the default of
    [getattr] is never passed on. *)
Definition _migrate_server_to (self : TestClass) (server_id : string)
    (dest_host : option string) (volume_backed : bool) : M World unit :=
  match block_migration self with
  | None => raise (AttributeError "block_migration")
  | Some AttrNone =>
      let disk_over_commit :=
        if is_requested_microversion_compatible self "2.24"
        then Some false else None in
      let bm := block_migration_for_live_migration CONF
                && negb volume_backed in
      live_migrate_server server_id dest_host (BmBool bm) disk_over_commit
  | Some (AttrStr s) =>
      live_migrate_server server_id dest_host (BmStr s) None
  end.

(** The loop that appends to [msg] every migration of the server. *)
Fixpoint append_migrations (server_id : string) (migration_list : list Migration)
    (msg : string) : result string :=
  match migration_list with
  | [] => Ok msg
  | live_migration :: rest =>
      match instance_uuid live_migration with
      | None => Raise (KeyError "instance_uuid")
      | Some u =>
          if String.eqb u server_id
          then append_migrations server_id rest
                 (String.append msg
                    (String.append newline (str_of live_migration)))
          else append_migrations server_id rest msg
      end
  end.

Definition msg_head (server_id : string) : string :=
  String.append "Live Migration failed. Migrations list for Instance "
    (String.append server_id ": [").

(** The message handed to the final assertion. *)
Definition failure_msg (server_id : string) (migration_list : list Migration)
  : result string :=
  match append_migrations server_id migration_list (msg_head server_id) with
  | Ok msg => Ok (String.append msg "]")
  | Raise e => Raise e
  end.

Definition assertEqual (expected observed msg : string) : M World unit :=
  if String.eqb expected observed then ret tt else raise (AssertionFailure msg).

Definition assertNotEqual (first second msg : string) : M World unit :=
  if String.eqb first second then raise (AssertionFailure msg) else ret tt.

(** [_live_migrate] *)
Definition _live_migrate (self : TestClass) (server_id : string)
    (target_host : option string) (state : string) (volume_backed : bool)
  : M World unit :=
  source_host <~
    match target_host with
    | None => h <~ get_host_for_server server_id ;; ret (Some h)
    | Some _ => ret None
    end ;;
  _migrate_server_to self server_id target_host volume_backed ;;;
  wait_for_server_status ServersClient server_id state ;;;
  migration_list <~ list_migrations ;;
  msg <~ lift (failure_msg server_id migration_list) ;;
  match target_host with
  | None =>
      h <~ get_host_for_server server_id ;;
      match source_host with
      | Some s => assertNotEqual s h msg
      | None => raise (UnboundLocalError "source_host")
      end
  | Some t =>
      h <~ get_host_for_server server_id ;;
      assertEqual t h msg
  end.

(** [LiveMigrationTest._test_live_migration] *)
Definition _test_live_migration (self : TestClass) (state : string)
    (volume_backed : bool) : M World unit :=
  server_id <~ create_test_server "ACTIVE" volume_backed ;;
  source_host <~ get_host_for_server server_id ;;
  destination_host <~
    (if negb (can_migrate_between_any_hosts CONF)
     then ret None
     else h <~ get_host_other_than server_id ;; ret (Some h)) ;;
  (if String.eqb state "PAUSED"
   then pause_server server_id ;;;
        wait_for_server_status AdminServersClient server_id state
   else ret tt) ;;;
  _live_migrate self server_id destination_host state volume_backed ;;;
  if live_migrate_back_and_forth CONF
  then _live_migrate self server_id (Some source_host) state volume_backed
  else ret tt.


(** *** Properties of the flow *)

Tactic Notation "bind_inv" hyp(H) "as" ident(a) ident(w) ident(Ha) :=
  apply bind_Ok_inv in H as (a & w & Ha & H).

Ltac run H := unfold bind at 1; rewrite H; cbv beta iota.

Lemma ret_inv {St A} (a b : A) (s s' : St) :
  ret a s = (Ok b, s') -> a = b /\ s = s'.
Proof. unfold ret. intros H. inversion H. split; reflexivity. Qed.

Lemma assertEqual_Ok expected observed msg w w' :
  assertEqual expected observed msg w = (Ok tt, w') ->
  expected = observed /\ w = w'.
Proof.
  unfold assertEqual. destruct (String.eqb expected observed) eqn:E.
  - intros H. apply ret_inv in H as [_ ->]. apply String.eqb_eq in E. auto.
  - discriminate.
Qed.

Lemma assertNotEqual_Ok first second msg w w' :
  assertNotEqual first second msg w = (Ok tt, w') ->
  first <> second /\ w = w'.
Proof.
  unfold assertNotEqual. destruct (String.eqb first second) eqn:E.
  - discriminate.
  - intros H. apply ret_inv in H as [_ ->]. apply String.eqb_neq in E. auto.
Qed.

Lemma live_migrate_to_target_Ok self server_id t state volume_backed w w' :
  _live_migrate self server_id (Some t) state volume_backed w = (Ok tt, w') ->
  exists w_last, get_host_for_server server_id w_last = (Ok t, w').
Proof.
  intros H. unfold _live_migrate in H.
  bind_inv H as src w1 Hsrc. apply ret_inv in Hsrc as [<- <-].
  bind_inv H as u2 w2 Hmig. bind_inv H as u3 w3 Hwait.
  bind_inv H as migs w4 Hlist. bind_inv H as msg w5 Hmsg.
  bind_inv H as h w6 Hhost.
  apply assertEqual_Ok in H as [-> ->].
  exists w5. exact Hhost.
Qed.

Lemma live_migrate_no_target_Ok self server_id state volume_backed w w' :
  _live_migrate self server_id None state volume_backed w = (Ok tt, w') ->
  exists source_host w1 w2 w_last h,
    get_host_for_server server_id w = (Ok source_host, w1) /\
    _migrate_server_to self server_id None volume_backed w1 = (Ok tt, w2) /\
    get_host_for_server server_id w_last = (Ok h, w') /\
    h <> source_host.
Proof.
  intros H. unfold _live_migrate in H.
  bind_inv H as src w1 Hsrc. bind_inv Hsrc as s0 w0 Hq.
  apply ret_inv in Hsrc as [<- <-].
  bind_inv H as u2 w2 Hmig. destruct u2.
  bind_inv H as u3 w3 Hwait.
  bind_inv H as migs w4 Hlist. bind_inv H as msg w5 Hmsg.
  bind_inv H as h w6 Hhost.
  apply assertNotEqual_Ok in H as [Hne ->].
  exists s0, w0, w2, w5, h. repeat split; try assumption.
  congruence.
Qed.

(** Every record of the server is rendered into the message, and what
    the message already held stays in it. *)
Lemma append_migrations_occurs server_id migration_list :
  forall msg0 msg,
    append_migrations server_id migration_list msg0 = Ok msg ->
    (forall s, occurs_in s msg0 -> occurs_in s msg) /\
    (forall m, In m migration_list -> instance_uuid m = Some server_id ->
               occurs_in (str_of m) msg).
Proof.
  induction migration_list as [|x rest IH]; intros msg0 msg H; simpl in H.
  - inversion H; subst. split; [auto | intros m []].
  - destruct (instance_uuid x) as [u|] eqn:Eu; [| discriminate].
    destruct (String.eqb u server_id) eqn:E.
    + destruct (IH _ _ H) as [Hkeep Hall]. split.
      * intros s Hs. apply Hkeep. now apply occurs_in_append_l.
      * intros m [<- | Hin] Hm.
        -- apply Hkeep. apply occurs_in_append_r, occurs_in_append_r.
           apply occurs_in_refl.
        -- now apply Hall.
    + destruct (IH _ _ H) as [Hkeep Hall]. split; [exact Hkeep |].
      intros m [<- | Hin] Hm.
      * rewrite Hm in Eu. inversion Eu; subst u.
        rewrite String.eqb_refl in E. discriminate.
      * now apply Hall.
Qed.

Lemma append_migrations_total server_id migration_list :
  (forall m, In m migration_list -> instance_uuid m <> None) ->
  forall msg0, exists msg,
    append_migrations server_id migration_list msg0 = Ok msg.
Proof.
  induction migration_list as [|x rest IH]; intros Hk msg0; simpl.
  - eauto.
  - destruct (instance_uuid x) as [u|] eqn:Eu.
    + destruct (String.eqb u server_id); apply IH;
        intros m Hm; apply Hk; now right.
    + exfalso. apply (Hk x); [now left | exact Eu].
Qed.

Lemma failure_msg_occurs server_id migration_list :
  (forall m, In m migration_list -> instance_uuid m <> None) ->
  exists msg,
    failure_msg server_id migration_list = Ok msg /\
    forall m, In m migration_list -> instance_uuid m = Some server_id ->
              occurs_in (str_of m) msg.
Proof.
  intros Hk. unfold failure_msg.
  destruct (append_migrations_total server_id migration_list Hk
              (msg_head server_id)) as [msg Hmsg].
  rewrite Hmsg. eexists. split; [reflexivity |].
  intros m Hin Hm. apply occurs_in_append_l.
  now apply (append_migrations_occurs _ _ _ _ Hmsg).
Qed.

(** C1.  A successful run of [_live_migrate] with an explicit target
    ends with the server reported on that target.  A successful run
    without target first reads the source host, issues the migrate
    request in the world that query left, and ends with the server
    reported on a host different from the recorded source. *)
Theorem live_migrate_host_postcondition
    (self : TestClass) (server_id : string) (target_host : option string)
    (state : string) (volume_backed : bool) (w w' : World) :
  _live_migrate self server_id target_host state volume_backed w
    = (Ok tt, w') ->
  match target_host with
  | Some t =>
      exists w_last, get_host_for_server server_id w_last = (Ok t, w')
  | None =>
      exists source_host w1 w2 w_last h,
        get_host_for_server server_id w = (Ok source_host, w1) /\
        _migrate_server_to self server_id None volume_backed w1
          = (Ok tt, w2) /\
        get_host_for_server server_id w_last = (Ok h, w') /\
        h <> source_host
  end.
Proof.
  intros H. destruct target_host as [t|].
  - now apply live_migrate_to_target_Ok in H.
  - now apply live_migrate_no_target_Ok in H.
Qed.

(** C4 (amended).  Once the source host is recorded and the migrate
    request accepted: a failing wait (a timeout included) surfaces as
    the waiter's own exception, unchanged, and the migration list is
    not consulted; a final host placement that violates the expected
    post-condition surfaces as an assertion failure whose message
    contains the rendering of every listed migration record whose
    [instance_uuid] is the server's id. *)
Theorem live_migrate_failure_report
    (self : TestClass) (server_id : string) (target_host : option string)
    (state : string) (volume_backed : bool)
    (w w1 w2 : World) (source_host : string) :
  match target_host with
  | None => get_host_for_server server_id w = (Ok source_host, w1)
  | Some _ => w1 = w
  end ->
  _migrate_server_to self server_id target_host volume_backed w1
    = (Ok tt, w2) ->
  (forall e w3,
      wait_for_server_status ServersClient server_id state w2
        = (Raise e, w3) ->
      _live_migrate self server_id target_host state volume_backed w
        = (Raise e, w3)) /\
  (forall w3 w4 w5 migration_list h,
      wait_for_server_status ServersClient server_id state w2
        = (Ok tt, w3) ->
      list_migrations w3 = (Ok migration_list, w4) ->
      (forall m, In m migration_list -> instance_uuid m <> None) ->
      get_host_for_server server_id w4 = (Ok h, w5) ->
      match target_host with
      | None => h = source_host
      | Some t => h <> t
      end ->
      exists msg,
        _live_migrate self server_id target_host state volume_backed w
          = (Raise (AssertionFailure msg), w5) /\
        forall m, In m migration_list ->
                  instance_uuid m = Some server_id ->
                  occurs_in (str_of m) msg).
Proof.
  intros Hsrc Hmig. split.
  - intros e w3 Hwait. unfold _live_migrate.
    destruct target_host as [t|]; [subst w1 |]; cbn [bind ret lift raise].
    + run Hmig. now run Hwait.
    + unfold bind at 1. run Hsrc. unfold ret at 1. cbv beta iota.
      run Hmig. now run Hwait.
  - intros w3 w4 w5 migration_list h Hwait Hlist Hkeys Hhost Hbad.
    destruct (failure_msg_occurs server_id migration_list Hkeys)
      as (msg & Hmsg & Hall).
    exists msg. split; [| exact Hall].
    unfold _live_migrate.
    destruct target_host as [t|]; [subst w1 |]; cbn [bind ret lift raise].
    + run Hmig. run Hwait. run Hlist.
      unfold bind at 1, lift at 1. rewrite Hmsg. cbv beta iota.
      run Hhost.
      unfold assertEqual.
      assert (E : String.eqb t h = false)
        by (apply String.eqb_neq; congruence).
      now rewrite E.
    + unfold bind at 1. run Hsrc. unfold ret at 1. cbv beta iota.
      run Hmig. run Hwait. run Hlist.
      unfold bind at 1, lift at 1. rewrite Hmsg. cbv beta iota.
      run Hhost.
      unfold assertNotEqual. subst h.
      now rewrite String.eqb_refl.
Qed.

(** C7.  With [live_migrate_back_and_forth] enabled, a successful
    [_test_live_migration] ran [_live_migrate] forward and then again
    with the recorded source host as explicit target, and the last
    host query reports that source host. *)
Theorem round_trip_returns_to_source
    (self : TestClass) (state : string) (volume_backed : bool)
    (w w' : World) :
  live_migrate_back_and_forth CONF = true ->
  _test_live_migration self state volume_backed w = (Ok tt, w') ->
  exists server_id source_host destination_host w1 w2 wa wb w_last,
    create_test_server "ACTIVE" volume_backed w = (Ok server_id, w1) /\
    get_host_for_server server_id w1 = (Ok source_host, w2) /\
    _live_migrate self server_id destination_host state volume_backed wa
      = (Ok tt, wb) /\
    _live_migrate self server_id (Some source_host) state volume_backed wb
      = (Ok tt, w') /\
    get_host_for_server server_id w_last = (Ok source_host, w').
Proof.
  intros Hflag H. unfold _test_live_migration in H.
  bind_inv H as sid w1 Hcreate. bind_inv H as src w2 Hsrc.
  bind_inv H as dest w3 Hdest. bind_inv H as u4 w4 Hpause.
  bind_inv H as u5 w5 Hfwd. rewrite Hflag in H. destruct u5.
  destruct (live_migrate_to_target_Ok _ _ _ _ _ _ _ H) as [w_last Hlast].
  exists sid, src, dest, w1, w2, w4, w5, w_last.
  repeat split; assumption.
Qed.

End Flow.

(** *** A two-host cloud to run the flow on *)

Record cloud : Type := {
  host : string;
  other_host : string;
  scheduler_moves : bool;
  wait_times_out : bool;
  migrations : list (string * string)
}.

Definition cloud_get_host (server_id : string) : M cloud string :=
  fun c => (Ok (host c), c).

Definition cloud_live_migrate (server_id : string) (dest : option string)
    (bm : bm_arg) (disk_over_commit : option bool) : M cloud unit :=
  fun c =>
    let new_host :=
      if scheduler_moves c
      then match dest with Some d => d | None => other_host c end
      else host c in
    (Ok tt,
     {| host := new_host;
        other_host := if String.eqb new_host (host c)
                      then other_host c else host c;
        scheduler_moves := scheduler_moves c;
        wait_times_out := wait_times_out c;
        migrations :=
          migrations c ++
          [(server_id,
            String.append "{'instance_uuid': '"
              (String.append server_id "', 'status': 'running'}"))] |}).

Definition cloud_wait (cl : client) (server_id state : string) : M cloud unit :=
  fun c =>
    if wait_times_out c
    then (Raise (TimeoutException
                   "Server failed to reach ACTIVE status within the required time"),
          c)
    else (Ok tt, c).

Definition cloud_list_migrations : M cloud (list (string * string)) :=
  fun c => (Ok (migrations c), c).

Definition cloud_create_test_server (wait_until : string) (vb : bool)
  : M cloud string :=
  fun c => (Ok "server-1", c).

Definition cloud_get_host_other_than (server_id : string) : M cloud string :=
  fun c => (Ok (other_host c), c).

Definition cloud_pause_server (server_id : string) : M cloud unit :=
  fun c => (Ok tt, c).

Definition cloud_live_migrate_flow (CONF : Conf) :=
  _live_migrate CONF cloud_get_host cloud_live_migrate cloud_wait
    cloud_list_migrations (fun m => Some (fst m)) snd.

Definition cloud_test_live_migration (CONF : Conf) :=
  _test_live_migration CONF cloud_get_host cloud_live_migrate cloud_wait
    cloud_list_migrations cloud_create_test_server cloud_get_host_other_than
    cloud_pause_server (fun m => Some (fst m)) snd.

Definition grenade_conf : Conf :=
  {| live_migration := true; min_compute_nodes := 2;
     block_migration_for_live_migration := true;
     can_migrate_between_any_hosts := true;
     live_migrate_back_and_forth := true;
     pause := true; volume_backed_live_migration := true;
     block_migrate_cinder_iscsi := false; serial_console := false;
     backup := true |}.

Definition test_class : TestClass :=
  {| block_migration := Some AttrNone;
     is_requested_microversion_compatible := fun _ => true |}.

Definition healthy_cloud : cloud :=
  {| host := "compute-1"; other_host := "compute-2";
     scheduler_moves := true; wait_times_out := false; migrations := [] |}.

Definition slow_cloud : cloud :=
  {| host := "compute-1"; other_host := "compute-2";
     scheduler_moves := true; wait_times_out := true; migrations := [] |}.

Definition stuck_cloud : cloud :=
  {| host := "compute-1"; other_host := "compute-2";
     scheduler_moves := false; wait_times_out := false; migrations := [] |}.

(** The clouds the runs below end in. *)
Definition after_targeted : cloud :=
  Eval vm_compute in
    snd (cloud_live_migrate_flow grenade_conf test_class "server-1"
           (Some "compute-2") "ACTIVE" false healthy_cloud).

Definition after_scheduled : cloud :=
  Eval vm_compute in
    snd (cloud_live_migrate_flow grenade_conf test_class "server-1"
           None "ACTIVE" false healthy_cloud).

Definition after_round_trip : cloud :=
  Eval vm_compute in
    snd (cloud_test_live_migration grenade_conf test_class "ACTIVE" false
           healthy_cloud).

Definition after_timeout : cloud :=
  Eval vm_compute in
    snd (cloud_live_migrate_flow grenade_conf test_class "server-1"
           (Some "compute-2") "ACTIVE" false slow_cloud).

Lemma live_migrate_host_postcondition_witness :
  (exists w_last,
      cloud_get_host "server-1" w_last = (Ok "compute-2", after_targeted)) /\
  (exists source_host w1 w2 w_last h,
      cloud_get_host "server-1" healthy_cloud = (Ok source_host, w1) /\
      _migrate_server_to grenade_conf cloud_live_migrate test_class
        "server-1" None false w1 = (Ok tt, w2) /\
      cloud_get_host "server-1" w_last = (Ok h, after_scheduled) /\
      h <> source_host).
Proof.
  split.
  - apply (live_migrate_host_postcondition grenade_conf cloud_get_host
             cloud_live_migrate cloud_wait cloud_list_migrations
             (fun m => Some (fst m)) snd test_class "server-1"
             (Some "compute-2") "ACTIVE" false healthy_cloud after_targeted).
    vm_compute. reflexivity.
  - apply (live_migrate_host_postcondition grenade_conf cloud_get_host
             cloud_live_migrate cloud_wait cloud_list_migrations
             (fun m => Some (fst m)) snd test_class "server-1"
             None "ACTIVE" false healthy_cloud after_scheduled).
    vm_compute. reflexivity.
Defined.

Example round_trip_run :
  cloud_test_live_migration grenade_conf test_class "ACTIVE" false
    healthy_cloud = (Ok tt, after_round_trip)
  /\ host after_round_trip = "compute-1".
Proof. split; vm_compute; reflexivity. Qed.

Lemma round_trip_returns_to_source_witness :
  exists server_id source_host destination_host w1 w2 wa wb w_last,
    cloud_create_test_server "ACTIVE" false healthy_cloud
      = (Ok server_id, w1) /\
    cloud_get_host server_id w1 = (Ok source_host, w2) /\
    cloud_live_migrate_flow grenade_conf test_class server_id
      destination_host "ACTIVE" false wa = (Ok tt, wb) /\
    cloud_live_migrate_flow grenade_conf test_class server_id
      (Some source_host) "ACTIVE" false wb = (Ok tt, after_round_trip) /\
    cloud_get_host server_id w_last = (Ok source_host, after_round_trip).
Proof.
  apply (round_trip_returns_to_source grenade_conf cloud_get_host
           cloud_live_migrate cloud_wait cloud_list_migrations
           cloud_create_test_server cloud_get_host_other_than
           cloud_pause_server (fun m => Some (fst m)) snd test_class
           "ACTIVE" false healthy_cloud after_round_trip).
  - reflexivity.
  - vm_compute. reflexivity.
Defined.

(** The record the cloud keeps for the migration of ["server-1"]. *)
Definition server_1_record : string * string :=
  ("server-1", "{'instance_uuid': 'server-1', 'status': 'running'}").

(** C4, as stated, fails: on a cloud where the wait times out the flow
    fails with the waiter's timeout, whose text does not hold the
    migration record of the server, although the cloud lists one. *)
Lemma timeout_failure_omits_migrations :
  exists e,
    cloud_live_migrate_flow grenade_conf test_class "server-1"
      (Some "compute-2") "ACTIVE" false slow_cloud
      = (Raise (TimeoutException e), after_timeout) /\
    cloud_list_migrations after_timeout
      = (Ok [server_1_record], after_timeout) /\
    fst server_1_record = "server-1" /\
    ~ occurs_in (snd server_1_record) e.
Proof.
  eexists. split; [vm_compute; reflexivity |].
  split; [vm_compute; reflexivity |].
  split; [reflexivity |].
  intros H. apply str_in_iff in H. vm_compute in H. discriminate H.
Qed.

Lemma live_migrate_failure_report_witness :
  (forall e w3,
      cloud_wait ServersClient "server-1" "ACTIVE" after_timeout
        = (Raise e, w3) ->
      cloud_live_migrate_flow grenade_conf test_class "server-1"
        (Some "compute-2") "ACTIVE" false slow_cloud = (Raise e, w3)) /\
  (exists msg w5,
      cloud_live_migrate_flow grenade_conf test_class "server-1"
        None "ACTIVE" false stuck_cloud = (Raise (AssertionFailure msg), w5) /\
      occurs_in (snd server_1_record) msg).
Proof.
  split.
  - apply (live_migrate_failure_report grenade_conf cloud_get_host
             cloud_live_migrate cloud_wait cloud_list_migrations
             (fun m => Some (fst m)) snd test_class "server-1"
             (Some "compute-2") "ACTIVE" false
             slow_cloud slow_cloud after_timeout "compute-1").
    + reflexivity.
    + vm_compute. reflexivity.
  - pose (w2 := snd (cloud_live_migrate "server-1" None (BmBool true)
                       (Some false) stuck_cloud)).
    destruct (live_migrate_failure_report grenade_conf cloud_get_host
                cloud_live_migrate cloud_wait cloud_list_migrations
                (fun m => Some (fst m)) snd test_class "server-1"
                None "ACTIVE" false
                stuck_cloud stuck_cloud w2 "compute-1") as [_ H].
    + reflexivity.
    + vm_compute. reflexivity.
    + destruct (H w2 w2 w2 [server_1_record] "compute-1")
        as (msg & Hrun & Hall).
      * reflexivity.
      * vm_compute. reflexivity.
      * intros m _. discriminate.
      * reflexivity.
      * reflexivity.
      * exists msg, w2. split; [exact Hrun |].
        apply (Hall server_1_record); [now left | reflexivity].
Defined.

End LiveMigration.

(** * The serial-console helper ([_verify_console_interaction]) *)

Module Console.

(** What the helper does to websockets, in the order it does it.
    [EvCreate ws] records a connection that was established; the other
    events record that the call was issued, whatever its outcome. *)
Inductive event : Type :=
| EvCreate (ws : nat)
| EvSend (ws : nat)
| EvRecv (ws : nat)
| EvClose (ws : nat)
| EvAssert.

Definition data : string := "test_live_migration_serial_console".
(** [0.1] as Python reads it: the nearest binary64 number. *)
Definition interval : float := 0x1.999999999999ap-4%float.
Definition budget : float := 120.0%float.

(** Enough for the loop: the guard [t <= 120.0] fails before the fuel
    is used up (lemma [budget_runs_out] below). *)
Definition poll_fuel : nat := 1300.

Section Helper.

Context {World : Type}.

(** Remote collaborators: the compute client, the websocket helper of
    [tempest.common.compute] and [time.sleep]. *)
Variable get_remote_console : string -> M World string.
Variable create_websocket : string -> M World nat.
Variable send_frame : nat -> string -> M World unit.
Variable receive_frame : nat -> M World string.
Variable close : nat -> M World unit.
Variable sleep : float -> World -> World.

(** The world, the trace of websocket events and the local variables
    [ws], [console_output] and [t] of the helper. *)
Record State : Type := {
  world : World;
  trace : list event;
  ws : nat;
  console_output : string;
  t : float
}.

Definition remote {A} (c : M World A) : M State A :=
  fun s =>
    match c (world s) with
    | (r, w') =>
        (r, {| world := w'; trace := trace s; ws := ws s;
               console_output := console_output s; t := t s |})
    end.

Definition log (ev : event) : M State unit :=
  fun s =>
    (Ok tt, {| world := world s; trace := trace s ++ [ev]; ws := ws s;
               console_output := console_output s; t := t s |}).

Definition set_ws (x : nat) : M State unit :=
  fun s =>
    (Ok tt, {| world := world s; trace := trace s; ws := x;
               console_output := console_output s; t := t s |}).

Definition add_output (received : string) : M State unit :=
  fun s =>
    (Ok tt, {| world := world s; trace := trace s; ws := ws s;
               console_output := String.append (console_output s) received;
               t := t s |}).

Definition sleep_and_count : M State unit :=
  fun s =>
    (Ok tt, {| world := sleep interval (world s); trace := trace s;
               ws := ws s; console_output := console_output s;
               t := PrimFloat.add (t s) interval |}).

Definition get {A} (f : State -> A) : M State A := fun s => (Ok (f s), s).

(** [ws = compute.create_websocket(console_url)] *)
Definition connect (console_url : string) : M State unit :=
  x <~ remote (create_websocket console_url) ;;
  log (EvCreate x) ;;;
  set_ws x.

(** The [try] suite of the loop body. *)
Definition interact : M State unit :=
  x <~ get ws ;;
  log (EvSend x) ;;;
  remote (send_frame x data) ;;;
  log (EvRecv x) ;;;
  received <~ remote (receive_frame x) ;;
  add_output received.

(** One iteration of the [while] loop. *)
Definition iteration (console_url : string) : M State unit :=
  try_except interact (fun _ => connect console_url) ;;;
  sleep_and_count.

(** [data not in console_output and t <= 120.0] *)
Definition guard (s : State) : bool :=
  negb (str_in data (console_output s)) && PrimFloat.leb (t s) budget.

(** The [while] loop; [None] when the fuel does not suffice. *)
Fixpoint poll (fuel : nat) (console_url : string) (s : State)
  : option (result unit * State) :=
  if guard s then
    match fuel with
    | O => None
    | S fuel' =>
        match iteration console_url s with
        | (Ok _, s1) => poll fuel' console_url s1
        | (Raise e, s1) => Some (Raise e, s1)
        end
    end
  else Some (Ok tt, s).

(** [self.assertIn(data, console_output)] *)
Definition assertIn_data : M State unit :=
  log EvAssert ;;;
  out <~ get console_output ;;
  if str_in data out then ret tt
  else raise (AssertionFailure
                (String.append data (String.append " not in " out))).

(** [ws.close()] in the [finally] suite. *)
Definition close_current : M State unit :=
  x <~ get ws ;;
  log (EvClose x) ;;;
  remote (close x).

(** The [finally] suite and the final assertion, from the outcome [r]
    of the loop. *)
Definition finish (r : result unit) : M State unit :=
  try_finally (lift r) close_current ;;; assertIn_data.

(** [_verify_console_interaction], started with the trace [tr]. *)
Definition _verify_console_interaction (server_id : string)
    (w : World) (tr : list event) : option (result unit * State) :=
  let s0 := {| world := w; trace := tr; ws := 0;
               console_output := ""; t := 0%float |} in
  match remote (get_remote_console server_id) s0 with
  | (Raise e, s1) => Some (Raise e, s1)
  | (Ok console_url, s1) =>
      match connect console_url s1 with
      | (Raise e, s2) => Some (Raise e, s2)
      | (Ok _, s2) =>
          match poll poll_fuel console_url s2 with
          | None => None
          | Some (r, s3) =>
              Some (finish r s3)
          end
      end
  end.

(** Events of the loop: everything but closing and asserting. *)
Definition is_io (ev : event) : Prop :=
  match ev with
  | EvCreate _ | EvSend _ | EvRecv _ => True
  | EvClose _ | EvAssert => False
  end.

(** The websocket created last in a trace, [d] when there is none. *)
Fixpoint most_recent_from (d : option nat) (tr : list event) : option nat :=
  match tr with
  | [] => d
  | EvCreate x :: rest => most_recent_from (Some x) rest
  | _ :: rest => most_recent_from d rest
  end.

Definition most_recent (tr : list event) : option nat :=
  most_recent_from None tr.

(** *** The time budget *)

(** Whether [t <= 120.0] fails within [fuel] increments of [t]. *)
Fixpoint budget_exhausted_within (fuel : nat) (x : float) : bool :=
  match fuel with
  | O => negb (PrimFloat.leb x budget)
  | S fuel' =>
      negb (PrimFloat.leb x budget)
      || budget_exhausted_within fuel' (PrimFloat.add x interval)
  end.

(** The number of iterations the budget allows from [x]. *)
Fixpoint iterations_within (fuel : nat) (x : float) : nat :=
  match fuel with
  | O => 0
  | S fuel' =>
      if PrimFloat.leb x budget
      then S (iterations_within fuel' (PrimFloat.add x interval))
      else 0
  end.

Lemma budget_runs_out : budget_exhausted_within poll_fuel 0%float = true.
Proof. vm_compute. reflexivity. Qed.

(** With binary64 arithmetic the loop body runs at most 1201 times. *)
Lemma budget_iterations : iterations_within poll_fuel 0%float = 1201.
Proof. vm_compute. reflexivity. Qed.

(** *** One iteration, case by case *)

Definition after_reconnect (s : State) (w : World) (tr : list event)
    (console_url : string) : result unit * State :=
  match create_websocket console_url w with
  | (Ok y, w') =>
      (Ok tt, {| world := sleep interval w'; trace := tr ++ [EvCreate y];
                 ws := y; console_output := console_output s;
                 t := PrimFloat.add (t s) interval |})
  | (Raise e, w') =>
      (Raise e, {| world := w'; trace := tr; ws := ws s;
                   console_output := console_output s; t := t s |})
  end.

Lemma iteration_cases (console_url : string) (s : State) :
  iteration console_url s =
  match send_frame (ws s) data (world s) with
  | (Ok _, w1) =>
      match receive_frame (ws s) w1 with
      | (Ok received, w2) =>
          (Ok tt, {| world := sleep interval w2;
                     trace := trace s ++ [EvSend (ws s); EvRecv (ws s)];
                     ws := ws s;
                     console_output :=
                       String.append (console_output s) received;
                     t := PrimFloat.add (t s) interval |})
      | (Raise e, w2) =>
          after_reconnect s w2 (trace s ++ [EvSend (ws s); EvRecv (ws s)])
            console_url
      end
  | (Raise e, w1) =>
      after_reconnect s w1 (trace s ++ [EvSend (ws s)]) console_url
  end.
Proof.
  unfold iteration, try_except, interact, connect, after_reconnect,
    bind, get, log, remote, set_ws, add_output, sleep_and_count; simpl.
  destruct (send_frame (ws s) data (world s)) as [[[]|e] w1]; simpl.
  - destruct (receive_frame (ws s) w1) as [[received|e] w2]; simpl.
    + now rewrite <- app_assoc.
    + rewrite <- app_assoc; simpl.
      destruct (create_websocket console_url w2) as [[y|e'] w3];
        reflexivity.
  - destruct (create_websocket console_url w1) as [[y|e'] w3]; reflexivity.
Qed.

Lemma most_recent_from_app d tr1 tr2 :
  most_recent_from d (tr1 ++ tr2)
  = most_recent_from (most_recent_from d tr1) tr2.
Proof.
  revert d. induction tr1 as [|ev tr1 IH]; intros d; [reflexivity |].
  destruct ev; simpl; apply IH.
Qed.

(** What an iteration adds to the trace, and the websocket it leaves
    in [ws]. *)
Lemma iteration_trace console_url s r s1 :
  iteration console_url s = (r, s1) ->
  exists mid,
    trace s1 = trace s ++ mid /\ Forall is_io mid /\
    most_recent_from (Some (ws s)) mid = Some (ws s1) /\
    (r = Ok tt -> t s1 = PrimFloat.add (t s) interval).
Proof.
  rewrite iteration_cases. unfold after_reconnect.
  destruct (send_frame (ws s) data (world s)) as [[[]|e] w1].
  - destruct (receive_frame (ws s) w1) as [[received|e] w2].
    + intros H; inversion H; subst; simpl.
      exists [EvSend (ws s); EvRecv (ws s)].
      repeat split; repeat constructor.
    + destruct (create_websocket console_url w2) as [[y|e'] w3];
        intros H; inversion H; subst; simpl.
      * exists [EvSend (ws s); EvRecv (ws s); EvCreate y].
        rewrite <- app_assoc. repeat split; repeat constructor.
      * exists [EvSend (ws s); EvRecv (ws s)].
        repeat split; try discriminate; repeat constructor.
  - destruct (create_websocket console_url w1) as [[y|e'] w3];
      intros H; inversion H; subst; simpl.
    + exists [EvSend (ws s); EvCreate y].
      rewrite <- app_assoc. repeat split; repeat constructor.
    + exists [EvSend (ws s)].
      repeat split; try discriminate; repeat constructor.
Qed.

(** The loop returns: the fuel is never what stops it. *)
Lemma poll_total fuel console_url :
  forall s, budget_exhausted_within fuel (t s) = true ->
            exists r s1, poll fuel console_url s = Some (r, s1).
Proof.
  induction fuel as [|fuel IH]; intros s Hb; simpl in *.
  - unfold guard. apply negb_true_iff in Hb. rewrite Hb, andb_false_r.
    eauto.
  - destruct (guard s) eqn:G; [| eauto].
    unfold guard in G. apply andb_true_iff in G as [_ G].
    rewrite G in Hb. simpl in Hb.
    destruct (iteration console_url s) as [[[]|e] s1] eqn:E; [| eauto].
    apply IH. destruct (iteration_trace _ _ _ _ E) as (mid & _ & _ & _ & Ht).
    now rewrite Ht.
Qed.

Lemma poll_trace fuel console_url :
  forall s r s1,
    poll fuel console_url s = Some (r, s1) ->
    exists mid,
      trace s1 = trace s ++ mid /\ Forall is_io mid /\
      most_recent_from (Some (ws s)) mid = Some (ws s1).
Proof.
  induction fuel as [|fuel IH]; intros s r s1 H; simpl in H.
  - destruct (guard s); [discriminate |]. inversion H; subst.
    exists []. rewrite app_nil_r. repeat split. constructor.
  - destruct (guard s).
    + destruct (iteration console_url s) as [[[]|e] s2] eqn:E.
      * destruct (iteration_trace _ _ _ _ E) as (m1 & T1 & F1 & R1 & _).
        destruct (IH _ _ _ H) as (m2 & T2 & F2 & R2).
        exists (m1 ++ m2). rewrite T2, T1, <- app_assoc.
        repeat split.
        -- now apply Forall_app.
        -- now rewrite most_recent_from_app, R1.
      * inversion H; subst.
        destruct (iteration_trace _ _ _ _ E) as (m1 & T1 & F1 & R1 & _).
        exists m1. repeat split; assumption.
    + inversion H; subst.
      exists []. rewrite app_nil_r. repeat split. constructor.
Qed.

(** The [finally] suite issues the close of the current websocket, and
    the assertion, when it runs, comes after it. *)
Lemma finish_trace r s :
  exists r' s' tail,
    finish r s = (r', s') /\
    trace s' = trace s ++ EvClose (ws s) :: tail /\
    (tail = [] \/ tail = [EvAssert]) /\
    (r' = Ok tt -> tail = [EvAssert]) /\
    (forall e, r = Raise e ->
               close (ws s) (world s) = (Ok tt, world s') -> r' = Raise e).
Proof.
  unfold finish, try_finally, close_current, assertIn_data, bind, lift,
    get, log, remote, ret, raise; simpl.
  destruct (close (ws s) (world s)) as [[[]|e] w1]; simpl.
  - destruct r as [[]|e]; simpl.
    + destruct (str_in data (console_output s)); do 3 eexists;
        (split; [reflexivity |]); simpl; rewrite <- app_assoc; simpl;
        repeat split; auto; try discriminate.
    + do 3 eexists. split; [reflexivity |]. simpl.
      repeat split; auto; try discriminate.
  - do 3 eexists. split; [reflexivity |]. simpl.
    repeat split; auto; try discriminate.
Qed.

Lemma helper_after_connect server_id w tr console_url w1 ws0 w2 :
  get_remote_console server_id w = (Ok console_url, w1) ->
  create_websocket console_url w1 = (Ok ws0, w2) ->
  _verify_console_interaction server_id w tr =
  match poll poll_fuel console_url
          {| world := w2; trace := tr ++ [EvCreate ws0]; ws := ws0;
             console_output := ""; t := 0%float |} with
  | None => None
  | Some (r, s3) => Some (finish r s3)
  end.
Proof.
  intros Hurl Hws. unfold _verify_console_interaction.
  cbv [remote connect bind log set_ws world trace ws console_output t].
  rewrite Hurl.
  cbv [remote connect bind log set_ws world trace ws console_output t].
  rewrite Hws. reflexivity.
Qed.



End Helper.

(** *** A console that drops the first connections *)

(** [(next, broken)]: the next websocket handle, and how many sends
    still fail. *)
Definition console : Type := nat * nat.

Definition flaky_get_remote_console (server_id : string) : M console string :=
  fun c => (Ok (String.append "ws://console/" server_id), c).

Definition flaky_create_websocket (url : string) : M console nat :=
  fun c => (Ok (fst c), (S (fst c), snd c)).

Definition flaky_send_frame (x : nat) (d : string) : M console unit :=
  fun c =>
    match snd c with
    | O => (Ok tt, c)
    | S n => (Raise (RemoteError "connection reset"), (fst c, n))
    end.

Definition flaky_receive_frame (x : nat) : M console string :=
  fun c => (Ok (String.append "login: " data), c).

Definition flaky_close (x : nat) : M console unit :=
  fun c => (Ok tt, c).

Definition flaky_verify (server_id : string) (c : console) :=
  _verify_console_interaction flaky_get_remote_console
    flaky_create_websocket flaky_send_frame flaky_receive_frame flaky_close
    (fun _ c => c) server_id c [].

(** Two failed sends, two reconnections, then the console answers:
    the helper succeeds and closes the third websocket only. *)
Example flaky_console_run :
  match flaky_verify "server-1" (0, 2) with
  | Some (r, s) =>
      r = Ok tt /\
      trace s = [EvCreate 0; EvSend 0; EvCreate 1; EvSend 1; EvCreate 2;
                 EvSend 2; EvRecv 2; EvClose 2; EvAssert]
  | None => False
  end.
Proof. vm_compute. split; reflexivity. Qed.

(** A console that never answers uses the whole budget: 1201 sends. *)
Example dead_console_run :
  match flaky_verify "server-1" (0, 5000) with
  | Some (r, s) =>
      (exists msg, r = Raise (AssertionFailure msg)) /\
      length (List.filter
                (fun ev => match ev with EvSend _ => true | _ => false end)
                (trace s)) = 1201 /\
      last (trace s) = Some EvAssert
  | None => False
  end.
Proof. vm_compute. split; [eexists; reflexivity | split; reflexivity]. Qed.


End Console.

(** * Skip checks ([skip_checks] and the skip decorators) *)

Module SkipChecks.

(** How a scenario is reported. *)
Inductive outcome : Type :=
| Skipped (reason : string)
| Errored (e : exn)
| Ran (r : result unit).

(** Modelled from the spec: the runner of [tempest/test.py] and
    testtools, which is not under src/.  "A precondition is unmet; the
    scenario is not run and is reported as skipped, not failed": the
    class-level [skip_checks] runs first and a skip it raises skips the
    scenario; then a skip decorator of the test method does; otherwise
    the body runs. *)
Definition run_scenario (class_checks : result unit)
    (decorator_skip : option string) (body : result unit) : outcome :=
  match class_checks with
  | Raise (SkipException reason) => Skipped reason
  | Raise e => Errored e
  | Ok _ =>
      match decorator_skip with
      | Some reason => Skipped reason
      | None => Ran body
      end
  end.

(** [LiveMigrationTestBase.skip_checks]; [super_checks] is the outcome
    of [super().skip_checks()]. *)
Definition live_migration_skip_checks (cls_name : string)
    (super_checks : result unit) (CONF : Conf) : result unit :=
  match super_checks with
  | Raise e => Raise e
  | Ok _ =>
      if negb (live_migration CONF)
      then Raise (SkipException
                    (String.append cls_name
                       " skipped as live-migration is not available"))
      else if (min_compute_nodes CONF <? 2)%Z
      then Raise (SkipException
                    "Less than 2 compute nodes, skipping migration test.")
      else Ok tt
  end.

(** [VolumesBackupsTest.skip_checks] *)
Definition volumes_backup_skip_checks (super_checks : result unit)
    (CONF : Conf) : result unit :=
  match super_checks with
  | Raise e => Raise e
  | Ok _ =>
      if negb (backup CONF)
      then Raise (SkipException "Cinder backup feature disabled")
      else Ok tt
  end.

(** The test methods of the live-migration classes. *)
Inductive test_name : Type :=
| test_live_block_migration
| test_live_block_migration_paused
| test_volume_backed_live_migration
| test_live_block_migration_with_attached_volume
| test_live_migration_with_trunk
| test_live_migration_serial_console.

(** [testtools.skipUnless(condition, reason)] *)
Definition skipUnless (condition : bool) (reason : string) : option string :=
  if condition then None else Some reason.

(** [testtools.skipIf(condition, reason)] *)
Definition skipIf (condition : bool) (reason : string) : option string :=
  if condition then Some reason else None.

(** The outermost decorator that skips decides. *)
Fixpoint first_skip (gates : list (option string)) : option string :=
  match gates with
  | [] => None
  | Some reason :: _ => Some reason
  | None :: rest => first_skip rest
  end.

Section Decorators.

(** Decorators and predicates of [tempest.common], not under src/:
    [utils.services], [utils.requires_ext] and
    [compute.is_scheduler_filter_enabled]. *)
Variable services : string -> option string.
Variable requires_ext : string -> string -> option string.
Variable is_scheduler_filter_enabled : string -> bool.

(** The skip decorators of each test method, outermost first. *)
Definition decorators (CONF : Conf) (test : test_name) : list (option string) :=
  match test with
  | test_live_block_migration =>
      [skipUnless (block_migration_for_live_migration CONF)
         "Block Live migration not available"]
  | test_live_block_migration_paused =>
      [skipUnless (block_migration_for_live_migration CONF)
         "Block Live migration not available";
       skipUnless (pause CONF) "Pause is not available."]
  | test_volume_backed_live_migration =>
      [skipUnless (volume_backed_live_migration CONF)
         "Volume-backed live migration not available";
       services "volume"]
  | test_live_block_migration_with_attached_volume =>
      [skipIf (negb (block_migration_for_live_migration CONF))
         "Block Live migration not available";
       skipIf (negb (block_migrate_cinder_iscsi CONF))
         "Block Live migration not configured for iSCSI";
       services "volume"]
  | test_live_migration_with_trunk =>
      [requires_ext "network" "trunk"; services "network"]
  | test_live_migration_serial_console =>
      [skipUnless (serial_console CONF) "Serial console not supported.";
       skipUnless (is_scheduler_filter_enabled "DifferentHostFilter")
         "DifferentHostFilter is not available."]
  end.

(** A live-migration scenario: a test method of a class. *)
Definition live_migration_scenario (cls_name : string)
    (super_checks : result unit) (CONF : Conf) (test : test_name)
    (body : result unit) : outcome :=
  run_scenario (live_migration_skip_checks cls_name super_checks CONF)
    (first_skip (decorators CONF test)) body.

End Decorators.

(** A volume-backup scenario, with the verdict of its decorators. *)
Definition volumes_backup_scenario (super_checks : result unit)
    (CONF : Conf) (decorator_skip : option string) (body : result unit)
  : outcome :=
  run_scenario (volumes_backup_skip_checks super_checks CONF)
    decorator_skip body.

(** C8 (amended).  The class-level check of the live-migration classes
    raises a skip, once the inherited checks pass, exactly when
    live migration is disabled or fewer than two compute nodes are
    configured.  Under that condition no live-migration scenario runs
    its body, and it is reported as skipped when the inherited checks
    pass.  Likewise with the backup feature disabled no volume-backup
    scenario runs its body, and it is reported as skipped when the
    inherited checks pass. *)
Theorem unmet_precondition_skips (CONF : Conf) :
  (forall cls_name,
      (exists reason,
          live_migration_skip_checks cls_name (Ok tt) CONF
          = Raise (SkipException reason))
      <-> (live_migration CONF = false \/ (min_compute_nodes CONF < 2)%Z)) /\
  (forall services requires_ext filter cls_name super_checks test body,
      live_migration CONF = false \/ (min_compute_nodes CONF < 2)%Z ->
      (forall r,
          live_migration_scenario services requires_ext filter cls_name
            super_checks CONF test body <> Ran r) /\
      (super_checks = Ok tt ->
       exists reason,
         live_migration_scenario services requires_ext filter cls_name
           super_checks CONF test body = Skipped reason)) /\
  (forall super_checks decorator_skip body,
      backup CONF = false ->
      (forall r,
          volumes_backup_scenario super_checks CONF decorator_skip body
          <> Ran r) /\
      (super_checks = Ok tt ->
       volumes_backup_scenario super_checks CONF decorator_skip body
       = Skipped "Cinder backup feature disabled")).
Proof.
  split; [| split].
  - intros cls_name. unfold live_migration_skip_checks.
    destruct (live_migration CONF); simpl.
    + destruct (Z.ltb_spec (min_compute_nodes CONF) 2); split.
      * intros _. now right.
      * intros _. eauto.
      * intros [reason H']. discriminate.
      * intros [H' | H']; [discriminate | lia].
    + split; [intros _; now left | intros _; eauto].
  - intros services requires_ext filter cls_name super_checks test body Hpre.
    unfold live_migration_scenario, run_scenario, live_migration_skip_checks.
    assert (Hskip :
      (if negb (live_migration CONF)
       then Raise (SkipException
                     (String.append cls_name
                        " skipped as live-migration is not available"))
       else if (min_compute_nodes CONF <? 2)%Z
            then Raise (SkipException
                    "Less than 2 compute nodes, skipping migration test.")
            else Ok tt)
      <> Ok tt).
    { destruct (live_migration CONF); simpl; [| discriminate].
      destruct (Z.ltb_spec (min_compute_nodes CONF) 2); [discriminate |].
      destruct Hpre; [discriminate | lia]. }
    split.
    + intros r. destruct super_checks as [[]|e].
      * destruct (negb (live_migration CONF)); [discriminate |].
        destruct (min_compute_nodes CONF <? 2)%Z; [discriminate |].
        now contradiction Hskip.
      * destruct e; discriminate.
    + intros ->.
      destruct (negb (live_migration CONF)); [eauto |].
      destruct (min_compute_nodes CONF <? 2)%Z; [eauto |].
      now contradiction Hskip.
  - intros super_checks decorator_skip body Hb.
    unfold volumes_backup_scenario, run_scenario, volumes_backup_skip_checks.
    rewrite Hb. simpl. split.
    + intros r. destruct super_checks as [[]|e]; [discriminate |].
      destruct e; discriminate.
    + intros ->. reflexivity.
Qed.

(** A deployment with live migration enabled and two compute nodes,
    but no block migration. *)
Definition shared_storage_conf : Conf :=
  {| live_migration := true; min_compute_nodes := 2;
     block_migration_for_live_migration := false;
     can_migrate_between_any_hosts := true;
     live_migrate_back_and_forth := false;
     pause := true; volume_backed_live_migration := true;
     block_migrate_cinder_iscsi := false; serial_console := false;
     backup := true |}.

(** C8, as stated, fails in the "only if" direction: a scenario is
    skipped, its body not run, although live migration is enabled and
    two compute nodes are configured. *)
Lemma skipped_with_both_preconditions_met :
  live_migration_scenario (fun _ => None) (fun _ _ => None) (fun _ => true)
    "LiveMigrationTest" (Ok tt) shared_storage_conf
    test_live_block_migration (Ok tt)
  = Skipped "Block Live migration not available"
  /\ ~ (live_migration shared_storage_conf = false
        \/ (min_compute_nodes shared_storage_conf < 2)%Z).
Proof.
  split; [reflexivity |].
  intros [H | H]; [discriminate H | simpl in H; lia].
Qed.

End SkipChecks.

(** * Cleanups: the class-level registry, [_create_net_subnet] and
      [EndPointsTestJSON.resource_cleanup] *)

Module Cleanup.

(** A JSON object of a response body, with string values. *)
Definition jobject : Type := list (string * string).

(** [d[key]] *)
Fixpoint getitem (d : jobject) (key : string) : result string :=
  match d with
  | [] => Raise (KeyError key)
  | (k, v) :: rest => if String.eqb k key then Ok v else getitem rest key
  end.

(** [for x in l: f(x)] *)
Fixpoint for_each {St A} (l : list A) (f : A -> M St unit) : M St unit :=
  match l with
  | [] => ret tt
  | x :: rest => f x ;;; for_each rest f
  end.

Section Registry.

Context {World Action : Type}.

(** Running a registered cleanup: calling the function with its
    arguments. *)
Variable perform : Action -> M World unit.

(** The world and the cleanups of the class, last registered first. *)
Record ClassState : Type := {
  world : World;
  cleanups : list Action
}.

Definition remote {A} (c : M World A) : M ClassState A :=
  fun s =>
    match c (world s) with
    | (r, w') => (r, {| world := w'; cleanups := cleanups s |})
    end.

(** Modelled from the spec: [addClassResourceCleanup] of
    [tempest/test.py], which is not under src/.  The registry is "a
    stack of teardown actions": registering pushes. *)
Definition addClassResourceCleanup (a : Action) : M ClassState unit :=
  fun s => (Ok tt, {| world := world s; cleanups := a :: cleanups s |}).

(** Modelled from the spec: the teardown of the class, which is not
    under src/.  The stack is "executed in reverse order of
    registration - last-registered, first-executed - regardless of test
    success or failure": every action is run, from the top of the
    stack, whatever the outcome of the ones before it. *)
Fixpoint run_cleanups (stack : list Action) (w : World)
  : list (Action * result unit) * World :=
  match stack with
  | [] => ([], w)
  | a :: rest =>
      match perform a w with
      | (r, w1) =>
          match run_cleanups rest w1 with
          | (done, w2) => ((a, r) :: done, w2)
          end
      end
  end.

(** Modelled from the spec: a test class runs its body, then its
    cleanups, whether or not the body raised. *)
Definition run_test_class (body : M ClassState unit) (w : World)
  : result unit * list (Action * result unit) * World :=
  match body {| world := w; cleanups := [] |} with
  | (r, s) =>
      match run_cleanups (cleanups s) (world s) with
      | (done, w') => (r, done, w')
      end
  end.

(** The actions a class run executed, in the order it executed them. *)
Definition executed (run : result unit * list (Action * result unit) * World)
  : list Action :=
  map fst (snd (fst run)).

Lemma run_cleanups_order (stack : list Action) (w : World) :
  map fst (fst (run_cleanups stack w)) = stack.
Proof.
  revert w. induction stack as [|a rest IH]; intros w; simpl.
  - reflexivity.
  - destruct (perform a w) as [r w1].
    specialize (IH w1). destruct (run_cleanups rest w1) as [done w2].
    simpl in *. now rewrite IH.
Qed.

Lemma run_test_class_executed (body : M ClassState unit) (w : World) :
  executed (run_test_class body w)
  = cleanups (snd (body {| world := w; cleanups := [] |})).
Proof.
  unfold executed, run_test_class.
  destruct (body {| world := w; cleanups := [] |}) as [r s]. simpl.
  pose proof (run_cleanups_order (cleanups s) (world s)) as H.
  destruct (run_cleanups (cleanups s) (world s)) as [done w']. exact H.
Qed.

End Registry.

(** ** The network and subnet of [_create_net_subnet] *)

(** A registered cleanup: the client function and its argument. *)
Inductive action : Type :=
| DeleteNetwork (network_id : string)
| DeleteSubnet (subnet_id : string).

Section Network.

Context {World : Type}.

(** [data_utils.rand_name], [networks_client.create_network(...)
    ['network']] and [subnets_client.create_subnet(...)]['subnet']. *)
Variable rand_name : string -> M World string.
Variable create_network : string -> M World jobject.
Variable create_subnet : string -> string -> Z -> M World jobject.

(** [_create_net_subnet] *)
Definition _create_net_subnet (name cidr : string)
  : M (@ClassState World action) jobject :=
  net_name <~ remote (rand_name name) ;;
  net <~ remote (create_network net_name) ;;
  net_id <~ lift (getitem net "id") ;;
  addClassResourceCleanup (DeleteNetwork net_id) ;;;
  net_id' <~ lift (getitem net "id") ;;
  subnet <~ remote (create_subnet net_id' cidr 4) ;;
  subnet_id <~ lift (getitem subnet "id") ;;
  addClassResourceCleanup (DeleteSubnet subnet_id) ;;;
  ret net.

Lemma create_net_subnet_registers name cidr s net s' :
  _create_net_subnet name cidr s = (Ok net, s') ->
  exists network_id subnet_id,
    getitem net "id" = Ok network_id /\
    cleanups s'
    = DeleteSubnet subnet_id :: DeleteNetwork network_id :: cleanups s.
Proof.
  intros H. unfold _create_net_subnet in H.
  apply bind_Ok_inv in H as (net_name & s1 & H1 & H).
  apply bind_Ok_inv in H as (net0 & s2 & H2 & H).
  apply bind_Ok_inv in H as (nid & s3 & H3 & H).
  apply bind_Ok_inv in H as (u4 & s4 & H4 & H).
  apply bind_Ok_inv in H as (nid' & s5 & H5 & H).
  apply bind_Ok_inv in H as (subnet & s6 & H6 & H).
  apply bind_Ok_inv in H as (sid & s7 & H7 & H).
  apply bind_Ok_inv in H as (u8 & s8 & H8 & H).
  unfold ret in H. inversion H; subst net0 s8. clear H.
  unfold lift in H3, H5, H7.
  inversion H3; subst s3. inversion H5; subst s5. inversion H7; subst s7.
  unfold addClassResourceCleanup in H4, H8.
  inversion H4; subst s4. inversion H8; subst s'. clear H4 H8.
  unfold remote in H1, H2, H6.
  destruct (rand_name name (world s)) as [r1 w1]. inversion H1; subst.
  simpl in H2.
  destruct (create_network net_name w1) as [r2 w2]. inversion H2; subst.
  simpl in H6.
  destruct (create_subnet nid' cidr 4 w2) as [r3 w3]. inversion H6; subst.
  simpl. exists nid, sid. split; [assumption |].
  reflexivity.
Qed.

End Network.

(** ** [EndPointsTestJSON.resource_cleanup] *)

(** The delete requests the class issues. *)
Inductive request : Type :=
| DeleteEndpoint (endpoint_id : string)
| DeleteService (service_id : string).

Section Endpoints.

Context {World : Type}.

(** [cls.client.delete_endpoint], [cls.services_client.delete_service]
    and [super().resource_cleanup()]. *)
Variable delete_endpoint : string -> M World unit.
Variable delete_service : string -> M World unit.
Variable super_resource_cleanup : M World unit.

(** The world and the delete requests issued so far. *)
Definition Logged : Type := World * list request.

Definition issue (req : request) (c : M World unit) : M Logged unit :=
  fun s =>
    match c (fst s) with
    | (r, w') => (r, (w', snd s ++ [req]))
    end.

Definition unlogged {A} (c : M World A) : M Logged A :=
  fun s =>
    match c (fst s) with
    | (r, w') => (r, (w', snd s))
    end.

(** [resource_cleanup], from the class attributes [setup_endpoints]
    and [service_ids]. *)
Definition resource_cleanup (setup_endpoints : list jobject)
    (service_ids : list string) : M Logged unit :=
  for_each setup_endpoints
    (fun e =>
       endpoint_id <~ lift (getitem e "id") ;;
       issue (DeleteEndpoint endpoint_id) (delete_endpoint endpoint_id)) ;;;
  for_each service_ids
    (fun s => issue (DeleteService s) (delete_service s)) ;;;
  unlogged super_resource_cleanup.

(** The request each endpoint calls for. *)
Definition endpoint_request (e : jobject) : list request :=
  match getitem e "id" with
  | Ok endpoint_id => [DeleteEndpoint endpoint_id]
  | Raise _ => []
  end.

(** One request per endpoint, then one per service, in list order. *)
Definition all_requests (setup_endpoints : list jobject)
    (service_ids : list string) : list request :=
  flat_map endpoint_request setup_endpoints ++ map DeleteService service_ids.

Lemma for_each_requests {A} (f : A -> M Logged unit)
    (expected : A -> list request) :
  (forall x s r s', f x s = (r, s') -> snd s' = snd s ++ expected x) ->
  forall l s r s',
    for_each l f s = (r, s') ->
    exists done,
      snd s' = snd s ++ done /\
      done `prefix_of` flat_map expected l /\
      (r = Ok tt -> done = flat_map expected l).
Proof.
  intros Hf. induction l as [|x l IH]; intros s r s' H; simpl in H.
  - unfold ret in H. inversion H; subst. exists [].
    rewrite app_nil_r. repeat split. apply prefix_nil.
  - unfold bind in H. destruct (f x s) as [[[]|e] s1] eqn:E.
    + apply Hf in E. destruct (IH _ _ _ H) as (done & T & P & F).
      exists (expected x ++ done). rewrite T, E, <- app_assoc.
      split; [reflexivity |]. split.
      * simpl. now apply prefix_app.
      * intros Hr. simpl. now rewrite (F Hr).
    + inversion H; subst. apply Hf in E.
      exists (expected x). split; [exact E |]. split.
      * simpl. now apply prefix_app_r.
      * discriminate.
Qed.

Lemma resource_cleanup_requests setup_endpoints service_ids s r s' :
  resource_cleanup setup_endpoints service_ids s = (r, s') ->
  exists done,
    snd s' = snd s ++ done /\
    done `prefix_of` all_requests setup_endpoints service_ids /\
    (r = Ok tt -> done = all_requests setup_endpoints service_ids).
Proof.
  intros H. unfold resource_cleanup in H. unfold bind at 1 in H.
  destruct (for_each setup_endpoints _ s) as [r1 s1] eqn:E1.
  apply (for_each_requests _ endpoint_request) in E1.
  2:{ intros x s0 r0 s0' Hx. unfold bind, lift, issue, endpoint_request in *.
      destruct (getitem x "id") as [i|e].
      - destruct (delete_endpoint i (fst s0)) as [r' w']. now inversion Hx.
      - inversion Hx. now rewrite app_nil_r. }
  destruct E1 as (d1 & T1 & P1 & F1).
  destruct r1 as [[]|e1].
  - unfold bind at 1 in H.
    destruct (for_each service_ids _ s1) as [r2 s2] eqn:E2.
    apply (for_each_requests _ (fun x => [DeleteService x])) in E2.
    2:{ intros x s0 r0 s0' Hx. unfold issue in Hx.
        destruct (delete_service x (fst s0)) as [r' w']. now inversion Hx. }
    destruct E2 as (d2 & T2 & P2 & F2).
    assert (Hmap : flat_map (fun x => [DeleteService x]) service_ids
                   = map DeleteService service_ids).
    { clear. induction service_ids as [|x l IH]; simpl; congruence. }
    rewrite Hmap in *. rewrite (F1 eq_refl) in *.
    assert (Hs' : snd s' = snd s2).
    { destruct r2 as [[]|e2].
      - unfold unlogged in H.
        destruct (super_resource_cleanup (fst s2)) as [r3 w3].
        now inversion H.
      - now inversion H. }
    exists (flat_map endpoint_request setup_endpoints ++ d2).
    rewrite Hs', T2, T1, <- app_assoc. split; [reflexivity |]. split.
    + unfold all_requests. now apply prefix_app.
    + intros Hr. unfold all_requests. f_equal. apply F2.
      destruct r2 as [[]|e2]; [reflexivity |]. inversion H. congruence.
  - inversion H; subst. exists d1. split; [exact T1 |]. split.
    + unfold all_requests. now apply prefix_app_r.
    + discriminate.
Qed.

End Endpoints.


(** An identity service that refuses to delete the endpoint ["e1"]. *)
Definition refusing_delete_endpoint (endpoint_id : string) : M unit unit :=
  fun w =>
    if String.eqb endpoint_id "e1"
    then (Raise (RemoteError "HTTP 500"), w)
    else (Ok tt, w).

Definition accepting_delete_service (service_id : string) : M unit unit :=
  fun w => (Ok tt, w).

Definition two_endpoints : list jobject :=
  [[("id", "e1"); ("interface", "public")];
   [("id", "e2"); ("interface", "public")]].


(** With a service that accepts every deletion, each endpoint and each
    service is deleted once. *)
Example resource_cleanup_run :
  resource_cleanup (fun _ w => (Ok tt, w)) accepting_delete_service
    (ret tt) two_endpoints ["s1"] (tt, [])
  = (Ok tt, (tt, [DeleteEndpoint "e1"; DeleteEndpoint "e2";
                  DeleteService "s1"])).
Proof. vm_compute. reflexivity. Qed.

End Cleanup.

(** * The 3.57 volume-transfer schemas ([v3_57/transfers.py]) *)

Module Schema.

(** ** Python objects

    Strings, numbers, booleans and [None] are immutable and held by
    value; dictionaries and lists are objects of the heap, held by
    reference.  The address of an object is its position in the heap;
    a new object is appended.  Dictionaries keep their insertion
    order. *)

Abbreviation addr := nat.

Inductive val : Type :=
| VNone
| VBool (b : bool)
| VInt (z : Z)
| VStr (s : string)
| VRef (a : addr).

Inductive obj : Type :=
| ODict (items : list (string * val))
| OList (elems : list val).

Abbreviation heap := (list obj).

(** The values an object holds, and the object with the same keys (or
    positions) holding other values. *)
Definition children (o : obj) : list val :=
  match o with
  | ODict items => map snd items
  | OList elems => elems
  end.

Definition rebuild (o : obj) (vs : list val) : obj :=
  match o with
  | ODict items => ODict (zip (map fst items) vs)
  | OList _ => OList vs
  end.

Definition empty_like (o : obj) : obj :=
  match o with
  | ODict _ => ODict []
  | OList _ => OList []
  end.

(** ** [copy.deepcopy]

    The memo maps the address of every object copied so far to the
    address of its copy, so that an object met twice is copied once.
    The copy of a container is entered in the memo before its contents
    are copied. *)
Abbreviation memo := (list (nat * nat)).

Fixpoint memo_get (m : memo) (a : addr) : option addr :=
  match m with
  | [] => None
  | (x, y) :: rest => if Nat.eqb x a then Some y else memo_get rest a
  end.

Fixpoint copy_all (f : val -> memo -> heap -> option (val * memo * heap))
    (vs : list val) (m : memo) (h : heap)
  : option (list val * memo * heap) :=
  match vs with
  | [] => Some ([], m, h)
  | x :: rest =>
      match f x m h with
      | None => None
      | Some (x', m1, h1) =>
          match copy_all f rest m1 h1 with
          | None => None
          | Some (rest', m2, h2) => Some (x' :: rest', m2, h2)
          end
      end
  end.

(** [None] when the fuel does not suffice or a reference dangles;
    neither happens on a well-formed heap (lemma [deepcopy_spec]). *)
Fixpoint deepcopy (fuel : nat) (v : val) (m : memo) (h : heap)
  : option (val * memo * heap) :=
  match v with
  | VRef a =>
      match memo_get m a with
      | Some a' => Some (VRef a', m, h)
      | None =>
          match fuel with
          | O => None
          | S fuel' =>
              match h !! a with
              | None => None
              | Some o =>
                  let a' := length h in
                  match copy_all (deepcopy fuel') (children o)
                          ((a, a') :: m) (h ++ [empty_like o]) with
                  | None => None
                  | Some (vs', m', h') =>
                      Some (VRef a', m', <[a' := rebuild o vs']> h')
                  end
              end
          end
      end
  | _ => Some (v, m, h)
  end.

(** [copy.deepcopy(x)]: a fresh memo; one unit of fuel per object of
    the heap is enough. *)
Definition copy_deepcopy (x : val) (h : heap) : option (val * heap) :=
  match deepcopy (length h) x [] h with
  | Some (x', _, h') => Some (x', h')
  | None => None
  end.

(** ** Dictionaries *)

Fixpoint assoc_get {A} (items : list (string * A)) (key : string) : option A :=
  match items with
  | [] => None
  | (k, x) :: rest => if String.eqb k key then Some x else assoc_get rest key
  end.

(** [d[key] = x] on the items of [d]: the value is replaced in place
    when the key is there, and appended otherwise. *)
Fixpoint assoc_set {A} (items : list (string * A)) (key : string) (x : A)
  : list (string * A) :=
  match items with
  | [] => [(key, x)]
  | (k, y) :: rest =>
      if String.eqb k key then (k, x) :: rest
      else (k, y) :: assoc_set rest key x
  end.

(** [d[key]]; [None] when it raises ([KeyError], or [TypeError] when
    [d] is not a dictionary). *)
Definition getitem (d : val) (key : string) (h : heap) : option val :=
  match d with
  | VRef a =>
      match h !! a with
      | Some (ODict items) => assoc_get items key
      | _ => None
      end
  | _ => None
  end.

(** [d[key] = x] *)
Definition setitem (d : val) (key : string) (x : val) (h : heap)
  : option heap :=
  match d with
  | VRef a =>
      match h !! a with
      | Some (ODict items) => Some (<[a := ODict (assoc_set items key x)]> h)
      | _ => None
      end
  | _ => None
  end.

(** [root[k1][k2]...] *)
Fixpoint path_get (root : val) (path : list string) (h : heap) : option val :=
  match path with
  | [] => Some root
  | k :: rest =>
      match getitem root k h with
      | Some v => path_get v rest h
      | None => None
      end
  end.

(** ** Schemas as trees *)

#[warnings="-register-all"]
Inductive tree : Type :=
| TNone
| TBool (b : bool)
| TInt (z : Z)
| TStr (s : string)
| TDict (items : list (string * tree))
| TList (elems : list tree).

(** Evaluating a dictionary or list display: the contents first, then
    the container. *)
Fixpoint store (t : tree) (h : heap) : val * heap :=
  match t with
  | TNone => (VNone, h)
  | TBool b => (VBool b, h)
  | TInt z => (VInt z, h)
  | TStr s => (VStr s, h)
  | TDict items =>
      match (fix store_items (l : list (string * tree)) (h : heap)
               : list (string * val) * heap :=
               match l with
               | [] => ([], h)
               | (k, x) :: rest =>
                   match store x h with
                   | (v, h1) =>
                       match store_items rest h1 with
                       | (vs, h2) => ((k, v) :: vs, h2)
                       end
                   end
               end) items h with
      | (vs, h1) => (VRef (length h1), h1 ++ [ODict vs])
      end
  | TList elems =>
      match (fix store_elems (l : list tree) (h : heap)
               : list val * heap :=
               match l with
               | [] => ([], h)
               | x :: rest =>
                   match store x h with
                   | (v, h1) =>
                       match store_elems rest h1 with
                       | (vs, h2) => (v :: vs, h2)
                       end
                   end
               end) elems h with
      | (vs, h1) => (VRef (length h1), h1 ++ [OList vs])
      end
  end.

Fixpoint denote_all (f : val -> option tree) (vs : list val)
  : option (list tree) :=
  match vs with
  | [] => Some []
  | x :: rest =>
      match f x with
      | None => None
      | Some t =>
          match denote_all f rest with
          | None => None
          | Some ts => Some (t :: ts)
          end
      end
  end.

Definition tree_of (o : obj) (ts : list tree) : tree :=
  match o with
  | ODict items => TDict (zip (map fst items) ts)
  | OList _ => TList ts
  end.

(** The tree a value unfolds to, down to depth [fuel]. *)
Fixpoint denote (fuel : nat) (h : heap) (v : val) : option tree :=
  match v with
  | VNone => Some TNone
  | VBool b => Some (TBool b)
  | VInt z => Some (TInt z)
  | VStr s => Some (TStr s)
  | VRef a =>
      match fuel with
      | O => None
      | S fuel' =>
          match h !! a with
          | None => None
          | Some o =>
              match denote_all (denote fuel' h) (children o) with
              | None => None
              | Some ts => Some (tree_of o ts)
              end
          end
      end
  end.

(** [v] unfolds to the finite tree [t]: structural equality of Python
    values is equality of these trees. *)
Definition denotes (h : heap) (v : val) (t : tree) : Prop :=
  exists fuel, denote fuel h v = Some t.

(** The addresses met while unfolding, with repetitions. *)
Fixpoint addrs (fuel : nat) (h : heap) (v : val) : list addr :=
  match v with
  | VRef a =>
      match fuel with
      | O => []
      | S fuel' =>
          a :: match h !! a with
               | None => []
               | Some o => flat_map (addrs fuel' h) (children o)
               end
      end
  | _ => []
  end.

(** [t[k1][k2]...] and [t[k1]...[kn][key] = x] on trees. *)
Fixpoint tree_get (t : tree) (path : list string) : option tree :=
  match path with
  | [] => Some t
  | k :: rest =>
      match t with
      | TDict items =>
          match assoc_get items k with
          | Some x => tree_get x rest
          | None => None
          end
      | _ => None
      end
  end.

Fixpoint tree_set (t : tree) (path : list string) (key : string) (x : tree)
  : tree :=
  match t with
  | TDict items =>
      match path with
      | [] => TDict (assoc_set items key x)
      | k :: rest =>
          match assoc_get items k with
          | Some sub => TDict (assoc_set items k (tree_set sub rest key x))
          | None => t
          end
      end
  | _ => t
  end.

(** ** The module [v3_57/transfers.py]

    The 3.55 schemas it imports ([tempest.lib.api_schema.response.
    volume.v3_55.transfers]) and [parameter_types.uuid_or_null] are not
    under src/: they are taken as the values of those names in the heap
    the module starts from. *)

Record transfers : Type := {
  create_volume_transfer : val;
  common_show_volume_transfer : val;
  show_volume_transfer : val;
  list_volume_transfers_no_detail : val;
  list_volume_transfers_with_detail : val;
  delete_volume_transfer : val;
  accept_volume_transfer : val
}.

(** [{'type': 'string', 'format': 'uuid'}] and [{'type': 'boolean'}] *)
Definition uuid_string : tree :=
  TDict [("type", TStr "string"); ("format", TStr "uuid")].

Definition boolean : tree := TDict [("type", TStr "boolean")].

(** [root[k1]...[kn].update({key: expr})]: the dictionary is looked up,
    the argument display is evaluated (the value, then the one-entry
    dictionary), and the entry is copied over. *)
Definition update_with (root : val) (path : list string) (key : string)
    (expr : heap -> val * heap) (h : heap) : option heap :=
  d ← path_get root path h;
  match expr h with
  | (x, h1) => setitem d key x (h1 ++ [ODict [(key, x)]])
  end.

(** [root[k1]...[kn][key] = x] *)
Definition assign (root : val) (path : list string) (key : string)
    (x : val) (h : heap) : option heap :=
  d ← path_get root path h;
  setitem d key x h.

(** The three [update] statements on the dictionary at [path]. *)
Definition add_fields (root : val) (path : list string) (uuid_or_null : val)
    (h : heap) : option heap :=
  h1 ← update_with root path "destination_project_id"
         (fun h => (uuid_or_null, h)) h;
  h2 ← update_with root path "source_project_id" (store uuid_string) h1;
  update_with root path "accepted" (store boolean) h2.

Definition transfer_properties : list string :=
  ["response_body"; "properties"; "transfer"; "properties"].

Definition v3_57 (base : transfers) (uuid_or_null : val) (h0 : heap)
  : option (transfers * heap) :=
  '(create, h) ← copy_deepcopy (create_volume_transfer base) h0;
  h ← add_fields create transfer_properties uuid_or_null h;
  '(common_show, h) ← copy_deepcopy (common_show_volume_transfer base) h;
  h ← add_fields common_show ["properties"] uuid_or_null h;
  '(show, h) ← copy_deepcopy (show_volume_transfer base) h;
  h ← assign show ["response_body"; "properties"] "transfer" common_show h;
  '(no_detail, h) ← copy_deepcopy (list_volume_transfers_no_detail base) h;
  '(with_detail, h) ←
    copy_deepcopy (list_volume_transfers_with_detail base) h;
  h ← assign with_detail ["response_body"; "properties"; "transfers"]
        "items" common_show h;
  '(delete, h) ← copy_deepcopy (delete_volume_transfer base) h;
  '(accept, h) ← copy_deepcopy (accept_volume_transfer base) h;
  Some ({| create_volume_transfer := create;
           common_show_volume_transfer := common_show;
           show_volume_transfer := show;
           list_volume_transfers_no_detail := no_detail;
           list_volume_transfers_with_detail := with_detail;
           delete_volume_transfer := delete;
           accept_volume_transfer := accept |}, h).

(** The fields 3.57 adds, on trees: the three keys set in the
    dictionary at [path]. *)
Definition with_new_fields (t : tree) (path : list string) (tu : tree)
  : tree :=
  tree_set
    (tree_set (tree_set t path "destination_project_id" tu)
       path "source_project_id" uuid_string)
    path "accepted" boolean.

(** ** A heap like the one the module is imported in

    [parameter_types.uuid_or_null] and 3.55 schemas of the shape the
    module expects; as in the 3.55 module, the ['transfer'] of the show
    schema and the ['items'] of the detailed list are the object
    [common_show_volume_transfer]. *)

Definition sample_uuid_or_null : tree :=
  TDict [("type", TList [TStr "string"; TStr "null"]);
         ("format", TStr "uuid")].

Definition sample_transfer : tree :=
  TDict [("type", TStr "object");
         ("properties",
          TDict [("id", uuid_string);
                 ("name", TDict [("type", TList [TStr "string"; TStr "null"])]);
                 ("volume_id", uuid_string);
                 ("no_snapshots", boolean)]);
         ("additionalProperties", TBool false);
         ("required", TList [TStr "id"; TStr "name"; TStr "volume_id"])].

Definition sample_body (key : string) (inner : tree) : tree :=
  TDict [("status_code", TList [TInt 200]);
         ("response_body",
          TDict [("type", TStr "object");
                 ("properties", TDict [(key, inner)]);
                 ("additionalProperties", TBool false);
                 ("required", TList [TStr key])])].

Definition sample_list (item : tree) : tree :=
  sample_body "transfers" (TDict [("type", TStr "array"); ("items", item)]).

Definition sample_summary : tree :=
  TDict [("type", TStr "object");
         ("properties", TDict [("id", uuid_string)])].

Definition sample_delete : tree := TDict [("status_code", TList [TInt 202])].

(** The heap, the 3.55 names and [uuid_or_null]. *)
Definition sample_world : option (heap * transfers * val) :=
  match store sample_uuid_or_null [] with
  | (u, h) =>
  match store (sample_body "transfer" sample_transfer) h with
  | (create, h) =>
  match store sample_transfer h with
  | (common_show, h) =>
  match store (sample_body "transfer" TNone) h with
  | (show, h) =>
  h ← assign show ["response_body"; "properties"] "transfer" common_show h;
  match store (sample_list sample_summary) h with
  | (no_detail, h) =>
  match store (sample_list TNone) h with
  | (with_detail, h) =>
  h ← assign with_detail ["response_body"; "properties"; "transfers"]
        "items" common_show h;
  match store sample_delete h with
  | (delete, h) =>
  match store (sample_body "transfer" sample_transfer) h with
  | (accept, h) =>
      Some (h,
            {| create_volume_transfer := create;
               common_show_volume_transfer := common_show;
               show_volume_transfer := show;
               list_volume_transfers_no_detail := no_detail;
               list_volume_transfers_with_detail := with_detail;
               delete_volume_transfer := delete;
               accept_volume_transfer := accept |},
            u)
  end end end end end end end end.

Definition sample_heap : heap :=
  Eval vm_compute in
    match sample_world with Some (h, _, _) => h | None => [] end.

Definition sample_base : transfers :=
  Eval vm_compute in
    match sample_world with
    | Some (_, b, _) => b
    | None => {| create_volume_transfer := VNone;
                 common_show_volume_transfer := VNone;
                 show_volume_transfer := VNone;
                 list_volume_transfers_no_detail := VNone;
                 list_volume_transfers_with_detail := VNone;
                 delete_volume_transfer := VNone;
                 accept_volume_transfer := VNone |}
    end.

Definition sample_uuid : val :=
  Eval vm_compute in
    match sample_world with Some (_, _, u) => u | None => VNone end.

Definition sample_result : option (transfers * heap) :=
  Eval vm_compute in v3_57 sample_base sample_uuid sample_heap.

(** The 3.57 names and the heap once the module is imported. *)
Definition sample_derived : transfers :=
  Eval vm_compute in
    match sample_result with Some (d, _) => d | None => sample_base end.

Definition sample_final : heap :=
  Eval vm_compute in
    match sample_result with Some (_, h) => h | None => [] end.

(** ** Well-formed heaps and renamings *)

(** [v] is an immutable value or refers below [n]. *)
Definition val_below (n : nat) (v : val) : Prop :=
  match v with
  | VRef a => a < n
  | _ => True
  end.

(** The objects below [n] exist and refer below [n] only. *)
Definition closed_below (n : nat) (h : heap) : Prop :=
  n <= length h /\
  forall b o, b < n -> h !! b = Some o -> Forall (val_below n) (children o).

(** The copy of [v] under the memo [m]. *)
Definition rename (m : memo) (v : val) : val :=
  match v with
  | VRef a =>
      match memo_get m a with
      | Some a' => VRef a'
      | None => v
      end
  | _ => v
  end.

Definition rename_obj (m : memo) (o : obj) : obj :=
  rebuild o (map (rename m) (children o)).

(** [v] is an immutable value or was copied. *)
Definition in_memo (m : memo) (v : val) : Prop :=
  match v with
  | VRef a => memo_get m a <> None
  | _ => True
  end.

(** [m'] keeps the entries of [m]. *)
Definition memo_extends (m m' : memo) : Prop :=
  forall a a', memo_get m a = Some a' -> memo_get m' a = Some a'.

(** The targets of [m] lie in [[lo, hi)] and are pairwise distinct. *)
Definition memo_ok (n0 lo hi : nat) (m : memo) : Prop :=
  (forall a a', memo_get m a = Some a' -> a < n0 /\ lo <= a' < hi) /\
  (forall a b a', memo_get m a = Some a' -> memo_get m b = Some a' -> a = b).

(** How many of the addresses below [n0] are not in the memo. *)
Definition unmemoized (n0 : nat) (m : memo) : nat :=
  length (List.filter
            (fun a => match memo_get m a with None => true | Some _ => false end)
            (seq 0 n0)).

Lemma filter_length_le {A} (f g : A -> bool) (l : list A) :
  (forall x, f x = true -> g x = true) ->
  length (List.filter f l) <= length (List.filter g l).
Proof.
  intros Hfg. induction l as [|x l IH]; simpl; [lia |].
  destruct (f x) eqn:Ef.
  - rewrite (Hfg x Ef). simpl. lia.
  - destruct (g x); simpl; lia.
Qed.

Lemma filter_length_lt {A} (f g : A -> bool) (l : list A) (y : A) :
  (forall x, f x = true -> g x = true) ->
  In y l -> f y = false -> g y = true ->
  length (List.filter f l) < length (List.filter g l).
Proof.
  intros Hfg Hin Hf Hg. induction l as [|x l IH]; simpl; [destruct Hin |].
  destruct Hin as [-> | Hin].
  - rewrite Hf, Hg. simpl.
    pose proof (filter_length_le f g l Hfg). lia.
  - specialize (IH Hin). destruct (f x) eqn:Ef.
    + rewrite (Hfg x Ef). simpl. lia.
    + destruct (g x); simpl; lia.
Qed.

Lemma unmemoized_extends n0 m m' :
  memo_extends m m' -> unmemoized n0 m' <= unmemoized n0 m.
Proof.
  intros Hext. apply filter_length_le. intros a Ha.
  destruct (memo_get m a) as [a'|] eqn:E; [| reflexivity].
  now rewrite (Hext _ _ E) in Ha.
Qed.

Lemma unmemoized_add n0 m a a' :
  a < n0 -> memo_get m a = None ->
  unmemoized n0 ((a, a') :: m) < unmemoized n0 m.
Proof.
  intros Ha Hm. apply (filter_length_lt _ _ _ a).
  - intros x. simpl. destruct (Nat.eqb a x); [discriminate | auto].
  - apply in_seq. lia.
  - simpl. now rewrite Nat.eqb_refl.
  - now rewrite Hm.
Qed.

Lemma memo_extends_refl m : memo_extends m m.
Proof. intros a a' H. exact H. Qed.

Lemma memo_extends_trans m1 m2 m3 :
  memo_extends m1 m2 -> memo_extends m2 m3 -> memo_extends m1 m3.
Proof. intros H12 H23 a a' H. apply H23, H12, H. Qed.

Lemma memo_extends_add m a a' :
  memo_get m a = None -> memo_extends m ((a, a') :: m).
Proof.
  intros Hm b b' Hb. simpl. destruct (Nat.eqb_spec a b) as [-> | _].
  - congruence.
  - exact Hb.
Qed.

Lemma rename_extends m m' v :
  memo_extends m m' -> in_memo m v -> rename m' v = rename m v.
Proof.
  intros Hext Hin. destruct v as [| | | |a]; try reflexivity. simpl in *.
  destruct (memo_get m a) as [a'|] eqn:E; [| congruence].
  now rewrite (Hext _ _ E).
Qed.

Lemma in_memo_extends m m' v :
  memo_extends m m' -> in_memo m v -> in_memo m' v.
Proof.
  intros Hext Hin. destruct v as [| | | |a]; try exact I. simpl in *.
  destruct (memo_get m a) as [a'|] eqn:E; [| congruence].
  rewrite (Hext _ _ E). discriminate.
Qed.

Lemma map_rename_extends m m' vs :
  memo_extends m m' -> Forall (in_memo m) vs ->
  map (rename m') vs = map (rename m) vs.
Proof.
  intros Hext Hin. induction Hin as [|v vs Hv _ IH]; simpl; [reflexivity |].
  now rewrite IH, (rename_extends m m' v).
Qed.

Lemma rename_obj_extends m m' o :
  memo_extends m m' -> Forall (in_memo m) (children o) ->
  rename_obj m' o = rename_obj m o.
Proof.
  intros Hext Hin. unfold rename_obj. now rewrite (map_rename_extends m m').
Qed.

(** ** What [deepcopy] does

    The source objects live below [n0] in a heap closed below [n0];
    copies are allocated from [lo] upwards. *)

Section DeepcopySpec.

Variables (n0 lo : nat) (src : heap).
Hypothesis Hsrc : closed_below n0 src.
Hypothesis Hlo : n0 <= lo.

Record pre (m : memo) (h : heap) : Prop := {
  pre_agree : forall b, b < n0 -> h !! b = src !! b;
  pre_lo : lo <= length h;
  pre_memo : memo_ok n0 lo (length h) m
}.

Record post (m : memo) (h : heap) (m' : memo) (h' : heap) : Prop := {
  post_frame : forall b, b < length h -> h' !! b = h !! b;
  post_length : length h <= length h';
  post_memo : memo_ok n0 lo (length h') m';
  post_extends : memo_extends m m';
  post_complete :
    forall a a', memo_get m' a = Some a' -> memo_get m a = None ->
      length h <= a' /\
      exists o, src !! a = Some o /\
                h' !! a' = Some (rename_obj m' o) /\
                Forall (in_memo m') (children o);
  post_onto :
    forall b, length h <= b < length h' ->
      exists a, memo_get m' a = Some b /\ memo_get m a = None
}.

Lemma post_refl m h : pre m h -> post m h m h.
Proof.
  intros [Ha Hl Hm]. split; auto using memo_extends_refl.
  - intros a a' H1 H2. congruence.
  - intros b Hb. lia.
Qed.

Lemma post_pre m h m' h' : pre m h -> post m h m' h' -> pre m' h'.
Proof.
  intros [Ha Hl Hm] [Hf Hlen Hm' _ _ _]. split.
  - intros b Hb. rewrite Hf by lia. now apply Ha.
  - lia.
  - exact Hm'.
Qed.

Lemma post_trans m h m1 h1 m2 h2 :
  post m h m1 h1 -> post m1 h1 m2 h2 -> post m h m2 h2.
Proof.
  intros [Hf1 Hl1 Hm1 He1 Hc1 Ho1] [Hf2 Hl2 Hm2 He2 Hc2 Ho2]. split.
  - intros b Hb. rewrite Hf2 by lia. now apply Hf1.
  - lia.
  - exact Hm2.
  - eapply memo_extends_trans; eassumption.
  - intros a a' H2 H0. destruct (memo_get m1 a) as [a1|] eqn:E1.
    + assert (a1 = a') by (apply He2 in E1; congruence). subst a1.
      destruct (Hc1 _ _ E1 H0) as (Hge & o & Ho & Hcopy & Hin).
      split; [exact Hge |]. exists o. split; [exact Ho |]. split.
      * rewrite Hf2 by (apply Hm1 in E1; lia).
        rewrite Hcopy. f_equal. symmetry. now apply rename_obj_extends.
      * eapply Forall_impl; [exact Hin |].
        intros v. now apply in_memo_extends.
    + destruct (Hc2 _ _ H2 E1) as (Hge & o & Ho & Hcopy & Hin).
      split; [lia |]. eauto.
  - intros b Hb. destruct (Nat.lt_ge_cases b (length h1)) as [Hlt | Hge].
    + destruct (Ho1 b) as (a & Ha & Hn); [lia |].
      exists a. split; [now apply He2 | exact Hn].
    + destruct (Ho2 b) as (a & Ha & Hn); [lia |].
      exists a. split; [exact Ha |].
      destruct (memo_get m a) as [x|] eqn:E; [| reflexivity].
      apply He1 in E. congruence.
Qed.

(** The outcome of copying one value, and of copying a list. *)
Definition copies_val (fuel : nat)
    (f : val -> memo -> heap -> option (val * memo * heap)) : Prop :=
  forall v m h,
    pre m h -> val_below n0 v -> unmemoized n0 m <= fuel ->
    exists v' m' h',
      f v m h = Some (v', m', h') /\ post m h m' h' /\
      v' = rename m' v /\ in_memo m' v.

Lemma copy_all_spec fuel f :
  copies_val fuel f ->
  forall vs m h,
    pre m h -> Forall (val_below n0) vs -> unmemoized n0 m <= fuel ->
    exists vs' m' h',
      copy_all f vs m h = Some (vs', m', h') /\ post m h m' h' /\
      vs' = map (rename m') vs /\ Forall (in_memo m') vs.
Proof.
  intros Hf vs. induction vs as [|x rest IH]; intros m h Hpre Hvs Hfuel.
  - exists [], m, h. simpl.
    split; [reflexivity |]. split; [now apply post_refl |]. now split.
  - inversion Hvs as [|? ? Hx Hrest]; subst.
    destruct (Hf x m h Hpre Hx Hfuel)
      as (x' & m1 & h1 & Hcall & Hpost1 & Hx' & Hin1).
    assert (Hpre1 : pre m1 h1) by (eapply post_pre; eassumption).
    assert (Hfuel1 : unmemoized n0 m1 <= fuel).
    { pose proof (unmemoized_extends n0 m m1 (post_extends _ _ _ _ Hpost1)).
      lia. }
    destruct (IH m1 h1 Hpre1 Hrest Hfuel1)
      as (rest' & m2 & h2 & Hcall2 & Hpost2 & Hrest' & Hin2).
    exists (x' :: rest'), m2, h2. simpl. rewrite Hcall, Hcall2.
    split; [reflexivity |]. split; [eapply post_trans; eassumption |].
    pose proof (post_extends _ _ _ _ Hpost2) as Hext.
    split.
    + subst x' rest'. now rewrite (rename_extends m1 m2 x Hext Hin1).
    + constructor; [| exact Hin2]. eapply in_memo_extends; eassumption.
Qed.

Lemma unmemoized_pos m a :
  a < n0 -> memo_get m a = None -> 0 < unmemoized n0 m.
Proof.
  intros Ha Hm. pose proof (unmemoized_add n0 m a 0 Ha Hm). lia.
Qed.

Lemma deepcopy_spec fuel : copies_val fuel (deepcopy fuel).
Proof.
  induction fuel as [|fuel IH]; intros v m h Hpre Hv Hfuel.
  - destruct v as [| | | |a];
      try (do 3 eexists; simpl;
           (split; [reflexivity |]); (split; [now apply post_refl |]);
           now split).
    simpl. destruct (memo_get m a) as [a'|] eqn:E.
    + exists (VRef a'), m, h. simpl. rewrite E.
      split; [reflexivity |]. split; [now apply post_refl |].
      split; [reflexivity | discriminate].
    + pose proof (unmemoized_pos m a Hv E). lia.
  - destruct v as [| | | |a];
      try (do 3 eexists; simpl;
           (split; [reflexivity |]); (split; [now apply post_refl |]);
           now split).
    simpl. destruct (memo_get m a) as [a'|] eqn:E.
    + exists (VRef a'), m, h. simpl. rewrite E.
      split; [reflexivity |]. split; [now apply post_refl |].
      split; [reflexivity | discriminate].
    + simpl in Hv. destruct Hpre as [Hagree Hlolen Hmemo].
      destruct Hsrc as [Hn0 Hclosed].
      destruct (lookup_lt_is_Some_2 src a) as [o Ho]; [lia |].
      rewrite (Hagree a Hv), Ho.
      set (a' := length h). set (h1 := h ++ [empty_like o]).
      set (m1 := (a, a') :: m).
      assert (Hlen1 : length h1 = S (length h)).
      { unfold h1. rewrite length_app. simpl. lia. }
      assert (Hext1 : memo_extends m m1) by now apply memo_extends_add.
      assert (Hpre1 : pre m1 h1).
      { split.
        - intros b Hb. unfold h1. rewrite lookup_app_l by lia.
          now apply Hagree.
        - lia.
        - destruct Hmemo as [Hrange Hinj]. split.
          + intros x x' Hx. unfold m1 in Hx. simpl in Hx.
            destruct (Nat.eqb_spec a x) as [<- | _].
            * inversion Hx; subst x'. unfold a'. lia.
            * apply Hrange in Hx. lia.
          + intros x y t Hx Hy. unfold m1 in Hx, Hy. simpl in Hx, Hy.
            destruct (Nat.eqb_spec a x) as [<- | Hax];
              destruct (Nat.eqb_spec a y) as [<- | Hay]; try reflexivity.
            * inversion Hx; subst t. apply Hrange in Hy. unfold a' in Hy. lia.
            * inversion Hy; subst t. apply Hrange in Hx. unfold a' in Hx. lia.
            * eapply Hinj; eassumption. }
      assert (Hfuel1 : unmemoized n0 m1 <= fuel).
      { pose proof (unmemoized_add n0 m a a' Hv E). fold m1 in H. lia. }
      destruct (copy_all_spec fuel (deepcopy fuel) IH (children o) m1 h1
                  Hpre1 (Hclosed a o Hv Ho) Hfuel1)
        as (vs' & m' & h2 & Hcall & Hpost & Hvs' & Hin).
      rewrite Hcall.
      exists (VRef a'), m', (<[a' := rebuild o vs']> h2).
      destruct Hpost as [Hf Hl Hm He Hc Hon].
      assert (Ha' : memo_get m' a = Some a').
      { apply He. unfold m1. simpl. now rewrite Nat.eqb_refl. }
      split; [reflexivity |]. split; [| split].
      * split.
        -- intros b Hb. rewrite list_lookup_insert_ne by (unfold a'; lia).
           rewrite Hf by lia. unfold h1. now rewrite lookup_app_l by lia.
        -- rewrite length_insert. lia.
        -- rewrite length_insert. exact Hm.
        -- eapply memo_extends_trans; eassumption.
        -- intros x x' Hx Hx0. destruct (Nat.eq_dec x a) as [-> | Hxa].
           ++ assert (x' = a') by congruence. subst x'.
              split; [unfold a'; lia |]. exists o. split; [exact Ho |].
              split; [| exact Hin].
              rewrite list_lookup_insert_eq by lia.
              unfold rename_obj. now rewrite Hvs'.
           ++ assert (Hx1 : memo_get m1 x = None).
              { unfold m1. simpl.
                destruct (Nat.eqb_spec a x); [congruence | exact Hx0]. }
              destruct (Hc _ _ Hx Hx1) as (Hge & o' & Ho' & Hcopy & Hin').
              split; [lia |]. exists o'. split; [exact Ho' |].
              split; [| exact Hin'].
              rewrite list_lookup_insert_ne by (unfold a'; lia).
              exact Hcopy.
        -- intros b Hb. rewrite length_insert in Hb.
           destruct (Nat.eq_dec b a') as [-> | Hba].
           ++ exists a. split; assumption.
           ++ destruct (Hon b) as (x & Hx & Hx1); [unfold a' in Hba; lia |].
              exists x. split; [exact Hx |].
              unfold m1 in Hx1. simpl in Hx1.
              destruct (Nat.eqb a x); [discriminate | exact Hx1].
      * simpl. now rewrite Ha'.
      * simpl. congruence.
Qed.

End DeepcopySpec.

(** ** [copy.deepcopy] on a heap closed below [n0] *)

(** [h'] is [h] after a deep copy with final memo [m]. *)
Definition copied (n0 : nat) (h : heap) (m : memo) (h' : heap) : Prop :=
  post n0 (length h) h [] h m h'.

Lemma unmemoized_le n0 m : unmemoized n0 m <= n0.
Proof.
  unfold unmemoized.
  etransitivity; [apply List.filter_length_le |]. now rewrite length_seq.
Qed.

Lemma copy_deepcopy_spec n0 h x :
  closed_below n0 h -> val_below n0 x ->
  exists x' h' m,
    copy_deepcopy x h = Some (x', h') /\ copied n0 h m h' /\
    x' = rename m x /\ in_memo m x.
Proof.
  intros Hc Hx. pose proof Hc as [Hn0 _].
  destruct (deepcopy_spec n0 (length h) h Hc Hn0 (length h) x [] h)
    as (x' & m & h' & Hcall & Hpost & Hx' & Hin).
  - split; [reflexivity | lia |]. split; intros; discriminate.
  - exact Hx.
  - pose proof (unmemoized_le n0 []). lia.
  - exists x', h', m. unfold copy_deepcopy. rewrite Hcall. auto.
Qed.

(** [h'] holds every object of [h], unchanged. *)
Definition extends_heap (h h' : heap) : Prop :=
  forall b o, h !! b = Some o -> h' !! b = Some o.

Lemma extends_heap_refl h : extends_heap h h.
Proof. intros b o H. exact H. Qed.

Lemma extends_heap_trans h1 h2 h3 :
  extends_heap h1 h2 -> extends_heap h2 h3 -> extends_heap h1 h3.
Proof. intros H12 H23 b o H. apply H23, H12, H. Qed.

Lemma extends_heap_app h l : extends_heap h (h ++ l).
Proof. intros b o H. now apply lookup_app_l_Some. Qed.

Lemma extends_heap_length h h' : extends_heap h h' -> length h <= length h'.
Proof.
  intros He. destruct h as [|o h0] using rev_ind; [simpl; lia |].
  assert (H : (h0 ++ [o]) !! length h0 = Some o).
  { rewrite lookup_app_r by lia. now rewrite Nat.sub_diag. }
  apply He, lookup_lt_Some in H. rewrite length_app. simpl. lia.
Qed.

Lemma copied_extends n0 h m h' : copied n0 h m h' -> extends_heap h h'.
Proof.
  intros [Hf _ _ _ _ _] b o Hb. rewrite Hf; [exact Hb |].
  now apply lookup_lt_Some in Hb.
Qed.

(** *** Facts about [denote_all], [children] and [rebuild] *)

Lemma denote_all_Some f vs ts :
  denote_all f vs = Some ts <-> Forall2 (fun v t => f v = Some t) vs ts.
Proof.
  revert ts. induction vs as [|v vs IH]; intros ts; simpl.
  - split.
    + intros H. inversion H. constructor.
    + intros H. inversion H. reflexivity.
  - split.
    + destruct (f v) as [t|] eqn:E; [| discriminate].
      destruct (denote_all f vs) as [ts0|]; [| discriminate].
      intros H. inversion H; subst. constructor; [exact E |]. now apply IH.
    + intros H. inversion H as [|? t ? ts0 Hv Hvs]; subst.
      rewrite Hv. apply IH in Hvs. now rewrite Hvs.
Qed.

Lemma map_fst_zip {A B} (l : list A) (k : list B) :
  length l = length k -> map fst (zip l k) = l.
Proof.
  revert k. induction l as [|x l IH]; intros [|y k] H; simpl in *;
    try discriminate; [reflexivity |].
  f_equal. apply IH. lia.
Qed.

Lemma map_snd_zip {A B} (l : list A) (k : list B) :
  length l = length k -> map snd (zip l k) = k.
Proof.
  revert k. induction l as [|x l IH]; intros [|y k] H; simpl in *;
    try discriminate; [reflexivity |].
  f_equal. apply IH. lia.
Qed.

Lemma children_rebuild o vs :
  length vs = length (children o) -> children (rebuild o vs) = vs.
Proof.
  destruct o as [items|elems]; simpl; [| reflexivity].
  intros H. apply map_snd_zip. rewrite length_map in *. lia.
Qed.

Lemma tree_of_rebuild o vs ts :
  length vs = length (children o) ->
  tree_of (rebuild o vs) ts = tree_of o ts.
Proof.
  destruct o as [items|elems]; simpl; [| reflexivity].
  intros H. rewrite map_fst_zip; [reflexivity |].
  rewrite length_map in *. lia.
Qed.

Lemma children_rename_obj m o :
  children (rename_obj m o) = map (rename m) (children o).
Proof. unfold rename_obj. apply children_rebuild. now rewrite length_map. Qed.

Lemma tree_of_rename_obj m o ts : tree_of (rename_obj m o) ts = tree_of o ts.
Proof. unfold rename_obj. apply tree_of_rebuild. now rewrite length_map. Qed.

(** *** Unfolding is stable under growth of the heap and of the fuel *)

Lemma denote_extends n h h' :
  extends_heap h h' ->
  forall v t, denote n h v = Some t -> denote n h' v = Some t.
Proof.
  intros He. induction n as [|n IH]; intros v t H;
    destruct v as [| | | |a]; simpl in *; try exact H.
  destruct (h !! a) as [o|] eqn:Ho; [| discriminate].
  rewrite (He _ _ Ho).
  destruct (denote_all (denote n h) (children o)) as [ts|] eqn:E;
    [| discriminate].
  apply denote_all_Some in E.
  assert (E' : denote_all (denote n h') (children o) = Some ts).
  { apply denote_all_Some. eapply Forall2_impl; [exact E |]. auto. }
  now rewrite E'.
Qed.

Lemma denote_mono n h :
  forall v t n', denote n h v = Some t -> n <= n' -> denote n' h v = Some t.
Proof.
  induction n as [|n IH]; intros v t n' H Hle;
    destruct v as [| | | |a]; simpl in *;
    try (destruct n'; exact H); try discriminate.
  destruct n' as [|n']; [lia |]. simpl.
  destruct (h !! a) as [o|]; [| discriminate].
  destruct (denote_all (denote n h) (children o)) as [ts|] eqn:E;
    [| discriminate].
  apply denote_all_Some in E.
  assert (E' : denote_all (denote n' h) (children o) = Some ts).
  { apply denote_all_Some. eapply Forall2_impl; [exact E |].
    intros c tc Hc. apply (IH _ _ n' Hc). lia. }
  now rewrite E'.
Qed.

Lemma denotes_extends h h' v t :
  extends_heap h h' -> denotes h v t -> denotes h' v t.
Proof. intros He [n Hn]. exists n. eapply denote_extends; eassumption. Qed.

Lemma getitem_extends h h' d k v :
  extends_heap h h' -> getitem d k h = Some v -> getitem d k h' = Some v.
Proof.
  intros He. destruct d as [| | | |a]; simpl; try discriminate.
  destruct (h !! a) as [o|] eqn:Ho; [| discriminate].
  now rewrite (He _ _ Ho).
Qed.

Lemma path_get_extends h h' path :
  extends_heap h h' ->
  forall root v, path_get root path h = Some v -> path_get root path h' = Some v.
Proof.
  intros He. induction path as [|k rest IH]; intros root v H; simpl in *.
  - exact H.
  - destruct (getitem root k h) as [w|] eqn:E; [| discriminate].
    rewrite (getitem_extends _ _ _ _ _ He E). now apply IH.
Qed.

(** *** The copy is structurally equal to the original *)

Section Copied.

Variables (n0 : nat) (h : heap) (m : memo) (h' : heap).
Hypothesis Hcopied : copied n0 h m h'.

Lemma copied_entry a a' :
  memo_get m a = Some a' ->
  a < n0 /\ length h <= a' < length h' /\
  exists o, h !! a = Some o /\ h' !! a' = Some (rename_obj m o) /\
            Forall (in_memo m) (children o).
Proof.
  intros Ha. destruct Hcopied as [_ _ [Hrange _] _ Hc _].
  destruct (Hc a a' Ha eq_refl) as (_ & o & Ho & Hcopy & Hin).
  destruct (Hrange a a' Ha) as [Hlt Hr]. eauto 10.
Qed.

Lemma copied_inj a b a' :
  memo_get m a = Some a' -> memo_get m b = Some a' -> a = b.
Proof. destruct Hcopied as [_ _ [_ Hinj] _ _ _]. apply Hinj. Qed.

Lemma copied_onto b :
  length h <= b < length h' -> exists a, memo_get m a = Some b.
Proof.
  intros Hb. destruct Hcopied as [_ _ _ _ _ Ho].
  destruct (Ho b Hb) as (a & Ha & _). eauto.
Qed.

Lemma copied_denote n :
  forall v t, in_memo m v -> denote n h v = Some t ->
              denote n h' (rename m v) = Some t.
Proof.
  induction n as [|n IH]; intros v t Hin H;
    destruct v as [| | | |a]; simpl in *; try exact H; try discriminate.
  destruct (memo_get m a) as [a'|] eqn:Ea; [| congruence].
  destruct (copied_entry a a' Ea) as (_ & _ & o & Ho & Hcopy & Hch).
  rewrite Ho in H. simpl. rewrite Hcopy.
  rewrite children_rename_obj.
  destruct (denote_all (denote n h) (children o)) as [ts|] eqn:E;
    [| discriminate].
  apply denote_all_Some in E.
  assert (E' : denote_all (denote n h') (map (rename m) (children o))
               = Some ts).
  { apply denote_all_Some. clear -E Hch IH.
    induction E as [|c tc cs tcs Hc _ IHE]; simpl; [constructor |].
    inversion Hch; subst. constructor; auto. }
  rewrite E'. now rewrite tree_of_rename_obj.
Qed.

Lemma copied_getitem d k v :
  in_memo m d -> getitem d k h = Some v ->
  getitem (rename m d) k h' = Some (rename m v) /\ in_memo m v.
Proof.
  intros Hin H. destruct d as [| | | |a]; simpl in *; try discriminate.
  destruct (memo_get m a) as [a'|] eqn:Ea; [| congruence].
  destruct (copied_entry a a' Ea) as (_ & _ & o & Ho & Hcopy & Hch).
  rewrite Ho in H. simpl. rewrite Hcopy.
  destruct o as [items|elems]; [| discriminate].
  unfold rename_obj. simpl in *. clear -H Hch.
  induction items as [|[k0 x] items IH]; simpl in *; [discriminate |].
  inversion Hch; subst.
  destruct (String.eqb k0 k).
  - inversion H; subst. auto.
  - now apply IH.
Qed.

Lemma copied_path_get path :
  forall root v,
    in_memo m root -> path_get root path h = Some v ->
    path_get (rename m root) path h' = Some (rename m v) /\ in_memo m v.
Proof.
  induction path as [|k rest IH]; intros root v Hin H; simpl in *.
  - inversion H; subst. auto.
  - destruct (getitem root k h) as [w|] eqn:E; [| discriminate].
    destruct (copied_getitem _ _ _ Hin E) as [E' Hw].
    rewrite E'. now apply IH.
Qed.

(** The copies refer to copies only. *)
Lemma copied_fresh b o :
  length h <= b -> h' !! b = Some o ->
  Forall (fun v => match v with
                   | VRef r => length h <= r < length h'
                   | _ => True
                   end) (children o).
Proof.
  intros Hb Ho. pose proof (lookup_lt_Some _ _ _ Ho) as Hlt.
  destruct (copied_onto b) as [a Ha]; [lia |].
  destruct (copied_entry a b Ha) as (_ & _ & o' & Ho' & Hcopy & Hch).
  rewrite Hcopy in Ho. inversion Ho; subst o.
  rewrite children_rename_obj. clear -Hch Hcopied.
  induction Hch as [|c cs Hc _ IH]; simpl; constructor; [| exact IH].
  destruct c as [| | | |r]; simpl; try exact I. simpl in Hc.
  destruct (memo_get m r) as [r'|] eqn:Er; [| congruence].
  destruct Hcopied as [_ _ [Hrange _] _ _ _].
  apply Hrange in Er. lia.
Qed.

End Copied.

(** *** The copy of a tree-shaped value is tree-shaped *)

Definition rename_addr (m : memo) (a : addr) : addr :=
  match memo_get m a with
  | Some a' => a'
  | None => a
  end.

Lemma flat_map_map {A B C} (f : B -> list C) (g : A -> B) (l : list A) :
  flat_map f (map g l) = flat_map (fun x => f (g x)) l.
Proof. induction l as [|x l IH]; simpl; [reflexivity | now rewrite IH]. Qed.

Lemma map_flat_map {A B C} (f : B -> C) (g : A -> list B) (l : list A) :
  map f (flat_map g l) = flat_map (fun x => map f (g x)) l.
Proof.
  induction l as [|x l IH]; simpl; [reflexivity |].
  now rewrite map_app, IH.
Qed.

Lemma flat_map_ext_Forall {A B} (P : A -> Prop) (f g : A -> list B) l :
  Forall P l -> (forall x, P x -> f x = g x) -> flat_map f l = flat_map g l.
Proof.
  intros Hl Hfg. induction Hl as [|x l Hx _ IH]; simpl; [reflexivity |].
  now rewrite IH, (Hfg x Hx).
Qed.

Lemma NoDup_map_inj_on {A B} (f : A -> B) (l : list A) :
  (forall x y, In x l -> In y l -> f x = f y -> x = y) ->
  NoDup l -> NoDup (map f l).
Proof.
  intros Hinj Hnd. induction Hnd as [|x l Hx Hl IH]; simpl.
  - constructor.
  - constructor.
    + rewrite list_elem_of_In. intros Hin. apply in_map_iff in Hin.
      destruct Hin as (y & Hy & Hyl).
      assert (y = x) by (apply Hinj; simpl; auto). subst y.
      apply Hx. now apply list_elem_of_In.
    + apply IH. intros a b Ha Hb. apply Hinj; simpl; auto.
Qed.

Section CopiedShape.

Variables (n0 : nat) (h : heap) (m : memo) (h' : heap).
Hypothesis Hcopied : copied n0 h m h'.

Lemma copied_addrs n :
  forall v, in_memo m v ->
            addrs n h' (rename m v) = map (rename_addr m) (addrs n h v).
Proof.
  induction n as [|n IH]; intros v Hin;
    destruct v as [| | | |a]; simpl in *; try reflexivity.
  - destruct (memo_get m a); reflexivity.
  - destruct (memo_get m a) as [a'|] eqn:Ea; [| congruence].
    destruct (copied_entry n0 h m h' Hcopied a a' Ea)
      as (_ & _ & o & Ho & Hcopy & Hch).
    simpl. rewrite Hcopy, Ho. unfold rename_addr at 1. rewrite Ea.
    f_equal. rewrite children_rename_obj, flat_map_map, map_flat_map.
    apply (flat_map_ext_Forall (in_memo m)); [exact Hch |].
    intros c Hc. now apply IH.
Qed.

Lemma addrs_in_memo n :
  forall v, in_memo m v ->
            forall a, In a (addrs n h v) -> memo_get m a <> None.
Proof.
  induction n as [|n IH]; intros v Hin a Ha;
    destruct v as [| | | |r]; simpl in *; try contradiction.
  destruct Ha as [<- | Ha]; [exact Hin |].
  destruct (memo_get m r) as [r'|] eqn:Er; [| congruence].
  destruct (copied_entry n0 h m h' Hcopied r r' Er)
    as (_ & _ & o & Ho & _ & Hch).
  rewrite Ho in Ha. apply in_flat_map in Ha as (c & Hc & Hac).
  rewrite Forall_forall in Hch. apply (IH c); [| exact Hac].
  apply Hch. now apply list_elem_of_In.
Qed.

Lemma copied_NoDup n v :
  in_memo m v -> NoDup (addrs n h v) -> NoDup (addrs n h' (rename m v)).
Proof.
  intros Hin Hnd. rewrite copied_addrs by exact Hin.
  apply NoDup_map_inj_on; [| exact Hnd].
  intros x y Hx Hy Hxy. unfold rename_addr in Hxy.
  pose proof (addrs_in_memo n v Hin x Hx) as Hmx.
  pose proof (addrs_in_memo n v Hin y Hy) as Hmy.
  destruct (memo_get m x) as [x'|] eqn:Ex; [| congruence].
  destruct (memo_get m y) as [y'|] eqn:Ey; [| congruence].
  subst y'. eapply (copied_inj n0 h m h' Hcopied); eassumption.
Qed.

End CopiedShape.

(** *** Writing to one object *)

Lemma Forall2_In_l {A B} (P : A -> B -> Prop) l k x :
  Forall2 P l k -> In x l -> exists y, In y k /\ P x y.
Proof.
  intros H. induction H as [|a b l k Hab _ IH]; intros Hin; simpl in *.
  - contradiction.
  - destruct Hin as [<- | Hin]; [eauto |].
    destruct (IH Hin) as (y & Hy & Hxy). eauto.
Qed.

Lemma denote_ref_inv n h a t :
  denote (S n) h (VRef a) = Some t ->
  exists o ts,
    h !! a = Some o /\
    Forall2 (fun c tc => denote n h c = Some tc) (children o) ts /\
    t = tree_of o ts.
Proof.
  simpl. destruct (h !! a) as [o|]; [| discriminate].
  destruct (denote_all (denote n h) (children o)) as [ts|] eqn:E;
    [| discriminate].
  intros H. inversion H. apply denote_all_Some in E. eauto.
Qed.

Lemma denote_ref_intro n h a o ts :
  h !! a = Some o ->
  Forall2 (fun c tc => denote n h c = Some tc) (children o) ts ->
  denote (S n) h (VRef a) = Some (tree_of o ts).
Proof.
  intros Ho E. simpl. rewrite Ho. apply denote_all_Some in E. now rewrite E.
Qed.

Lemma denote_insert_other n h a o :
  forall v t, ~ In a (addrs n h v) -> denote n h v = Some t ->
              denote n (<[a := o]> h) v = Some t.
Proof.
  induction n as [|n IH]; intros v t Hnot H.
  - destruct v; simpl in *; try exact H.
  - destruct v as [| | | |r]; try exact H.
    destruct (denote_ref_inv _ _ _ _ H) as (o' & ts & Ho' & E & ->).
    simpl in Hnot. rewrite Ho' in Hnot.
    apply denote_ref_intro.
    + rewrite list_lookup_insert_ne by (intros ->; apply Hnot; now left).
      exact Ho'.
    + assert (Hch : forall c, In c (children o') -> ~ In a (addrs n h c)).
      { intros c Hc Hac. apply Hnot. right. apply in_flat_map. eauto. }
      clear -E Hch IH. induction E as [|c tc cs tcs Hc _ IHE];
        constructor.
      * apply IH; [| exact Hc]. apply Hch. now left.
      * apply IHE. intros c' Hc'. apply Hch. now right.
Qed.

Lemma getitem_inv d k h v :
  getitem d k h = Some v ->
  exists a items,
    d = VRef a /\ h !! a = Some (ODict items) /\ assoc_get items k = Some v.
Proof.
  destruct d as [| | | |a]; simpl; try discriminate.
  destruct (h !! a) as [[items|elems]|] eqn:Ho; try discriminate.
  eauto.
Qed.

Lemma assoc_get_In {A} (items : list (string * A)) k v :
  assoc_get items k = Some v -> In v (map snd items).
Proof.
  induction items as [|[k0 x] items IH]; simpl; [discriminate |].
  destruct (String.eqb k0 k).
  - intros H. inversion H. now left.
  - intros H. right. now apply IH.
Qed.

(** An object met along a path is met while unfolding. *)
Lemma path_in_addrs h path :
  forall n root t a,
    path_get root path h = Some (VRef a) -> denote n h root = Some t ->
    In a (addrs n h root).
Proof.
  induction path as [|k rest IH]; intros n root t a Hp Hd; simpl in Hp.
  - inversion Hp; subst root. destruct n; [discriminate |]. now left.
  - destruct (getitem root k h) as [v|] eqn:Eg; [| discriminate].
    destruct (getitem_inv _ _ _ _ Eg) as (a0 & items & -> & Ho & Hv).
    destruct n; [discriminate |].
    destruct (denote_ref_inv _ _ _ _ Hd) as (o & ts & Ho' & E & ->).
    rewrite Ho in Ho'. inversion Ho'; subst o. simpl in E.
    apply assoc_get_In in Hv.
    destruct (Forall2_In_l _ _ _ _ E Hv) as (tv & _ & Htv).
    simpl. right. rewrite Ho. apply in_flat_map. exists v.
    split; [exact Hv |]. eapply IH; eassumption.
Qed.

(** A path is long enough for the fuel that unfolds its end. *)
Lemma path_get_denote h path :
  forall n root t v,
    path_get root path h = Some v -> denote n h root = Some t ->
    exists tv, tree_get t path = Some tv /\
               denote (n - length path) h v = Some tv.
Proof.
  induction path as [|k rest IH]; intros n root t v Hp Hd; simpl in Hp.
  - inversion Hp; subst v. exists t. simpl. rewrite Nat.sub_0_r. auto.
  - destruct (getitem root k h) as [w|] eqn:Eg; [| discriminate].
    destruct (getitem_inv _ _ _ _ Eg) as (a0 & items & -> & Ho & Hw).
    destruct n; [discriminate |].
    destruct (denote_ref_inv _ _ _ _ Hd) as (o & ts & Ho' & E & ->).
    rewrite Ho in Ho'. inversion Ho'; subst o. simpl in E. simpl.
    assert (Hsub : exists tw, assoc_get (zip (map fst items) ts) k = Some tw
                              /\ denote n h w = Some tw).
    { clear -E Hw. revert ts E.
      induction items as [|[k0 x] items IHi]; intros ts E; simpl in *;
        [discriminate |].
      inversion E as [|? tx ? ts0 Hx Hrest]; subst. simpl.
      destruct (String.eqb k0 k).
      - inversion Hw; subst. eauto.
      - now apply IHi. }
    destruct Hsub as (tw & Hget & Hdw). rewrite Hget.
    now apply (IH n w tw v).
Qed.

(** *** Replacing a subtree *)

(** [t] with the subtree at [path] replaced by [s]. *)
Fixpoint tree_replace (t : tree) (path : list string) (s : tree) : tree :=
  match path with
  | [] => s
  | k :: rest =>
      match t with
      | TDict items =>
          match assoc_get items k with
          | Some sub => TDict (assoc_set items k (tree_replace sub rest s))
          | None => t
          end
      | _ => t
      end
  end.

Lemma assoc_get_set_eq {A} (items : list (string * A)) k x :
  assoc_get (assoc_set items k x) k = Some x.
Proof.
  induction items as [|[k0 y] items IH]; simpl.
  - now rewrite String.eqb_refl.
  - destruct (String.eqb k0 k) eqn:E; simpl; rewrite E; [reflexivity | exact IH].
Qed.

Lemma assoc_get_set_ne {A} (items : list (string * A)) k k' x :
  k <> k' -> assoc_get (assoc_set items k x) k' = assoc_get items k'.
Proof.
  intros Hne. induction items as [|[k0 y] items IH]; simpl.
  - apply String.eqb_neq in Hne. now rewrite Hne.
  - destruct (String.eqb_spec k0 k) as [-> | Hk]; simpl.
    + apply String.eqb_neq in Hne. now rewrite Hne.
    + destruct (String.eqb k0 k'); [reflexivity | exact IH].
Qed.

Lemma assoc_set_set_eq {A} (items : list (string * A)) k x y :
  assoc_set (assoc_set items k x) k y = assoc_set items k y.
Proof.
  induction items as [|[k0 z] items IH]; simpl.
  - now rewrite String.eqb_refl.
  - destruct (String.eqb k0 k) eqn:E; simpl; rewrite E;
      [reflexivity | now rewrite IH].
Qed.

Lemma tree_set_replace key x path :
  forall t titems,
    tree_get t path = Some (TDict titems) ->
    tree_set t path key x
    = tree_replace t path (TDict (assoc_set titems key x)).
Proof.
  induction path as [|k rest IH]; intros t titems H; simpl in *.
  - inversion H; subst t. reflexivity.
  - destruct t as [| | | |items|elems]; try discriminate. simpl.
    destruct (assoc_get items k) as [sub|]; [| discriminate].
    now rewrite (IH sub titems H).
Qed.

Lemma tree_get_replace s path :
  forall t s0, tree_get t path = Some s0 ->
               tree_get (tree_replace t path s) path = Some s.
Proof.
  induction path as [|k rest IH]; intros t s0 H; simpl in *.
  - reflexivity.
  - destruct t as [| | | |items|elems]; try discriminate.
    destruct (assoc_get items k) as [sub|] eqn:E; [| discriminate].
    simpl. rewrite assoc_get_set_eq. eapply IH; eassumption.
Qed.

Lemma tree_replace_twice s s' path :
  forall t s0, tree_get t path = Some s0 ->
               tree_replace (tree_replace t path s) path s'
               = tree_replace t path s'.
Proof.
  induction path as [|k rest IH]; intros t s0 H; simpl in *.
  - reflexivity.
  - destruct t as [| | | |items|elems]; try discriminate.
    destruct (assoc_get items k) as [sub|] eqn:E; [| discriminate].
    simpl. rewrite assoc_get_set_eq, assoc_set_set_eq.
    now rewrite (IH sub s0 H).
Qed.

(** The subtree at [path ++ more] is the subtree at [more] of the
    subtree at [path]. *)
Lemma tree_get_app path more :
  forall t, tree_get t (path ++ more)
            = match tree_get t path with
              | Some s => tree_get s more
              | None => None
              end.
Proof.
  induction path as [|k rest IH]; intros t; simpl; [reflexivity |].
  destruct t as [| | | |items|elems]; try reflexivity.
  destruct (assoc_get items k) as [sub|]; [apply IH | reflexivity].
Qed.

Lemma tree_replace_app path more s :
  forall t sub,
    tree_get t path = Some sub ->
    tree_replace t (path ++ more) s
    = tree_replace t path (tree_replace sub more s).
Proof.
  induction path as [|k rest IH]; intros t sub H; simpl in *.
  - inversion H. reflexivity.
  - destruct t as [| | | |items|elems]; try discriminate.
    destruct (assoc_get items k) as [x|]; [| discriminate].
    now rewrite (IH x sub H).
Qed.

(** The three new fields, as one replacement of the dictionary at
    [path]. *)
Definition new_items {A} (items : list (string * A)) (u s b : A)
  : list (string * A) :=
  assoc_set
    (assoc_set (assoc_set items "destination_project_id" u)
       "source_project_id" s)
    "accepted" b.

Lemma with_new_fields_replace t path tu titems :
  tree_get t path = Some (TDict titems) ->
  with_new_fields t path tu
  = tree_replace t path (TDict (new_items titems tu uuid_string boolean)).
Proof.
  intros H. unfold with_new_fields, new_items.
  rewrite (tree_set_replace _ _ _ _ _ H).
  rewrite (tree_set_replace "source_project_id" uuid_string path _
             (assoc_set titems "destination_project_id" tu))
    by (eapply tree_get_replace; exact H).
  rewrite (tree_replace_twice _ _ _ _ _ H).
  rewrite (tree_set_replace "accepted" boolean path _
             (assoc_set (assoc_set titems "destination_project_id" tu)
                "source_project_id" uuid_string))
    by (eapply tree_get_replace; exact H).
  now rewrite (tree_replace_twice _ _ _ _ _ H).
Qed.

(** *** Unfolding after one object is replaced *)

Lemma items_replace (f f' : val -> option tree) (A : val -> list addr)
    (a : addr) (k : string) (g : tree -> tree) :
  (forall c t, ~ In a (A c) -> f c = Some t -> f' c = Some t) ->
  forall items ts v1,
    Forall2 (fun c t => f c = Some t) (map snd items) ts ->
    assoc_get items k = Some v1 ->
    NoDup (flat_map A (map snd items)) ->
    In a (A v1) ->
    (forall t1, NoDup (A v1) -> f v1 = Some t1 -> f' v1 = Some (g t1)) ->
    exists t1 ts',
      assoc_get (zip (map fst items) ts) k = Some t1 /\
      Forall2 (fun c t => f' c = Some t) (map snd items) ts' /\
      zip (map fst items) ts'
      = assoc_set (zip (map fst items) ts) k (g t1).
Proof.
  intros Hother. induction items as [|[k0 c0] items IH];
    intros ts v1 E Hget Hnd Ha Hv1; simpl in *; [discriminate |].
  inversion E as [|? t0 ? ts0 Hc0 Hrest]; subst.
  apply NoDup_app in Hnd as (Hnd0 & Hdisj & Hndr). simpl.
  destruct (String.eqb k0 k) eqn:Ek.
  - inversion Hget; subst v1. exists t0, (g t0 :: ts0).
    split; [reflexivity |]. split; [| reflexivity].
    constructor; [now apply Hv1 |].
    assert (Hnot : forall c, In c (map snd items) -> ~ In a (A c)).
    { intros c Hc Hac. apply (Hdisj a); [now apply list_elem_of_In |].
      apply list_elem_of_In, in_flat_map. eauto. }
    clear -Hrest Hnot Hother.
    induction Hrest as [|c tc cs tcs Hc _ IHr]; constructor.
    + apply Hother; [| exact Hc]. apply Hnot. now left.
    + apply IHr. intros c' Hc'. apply Hnot. now right.
  - destruct (IH ts0 v1 Hrest Hget Hndr Ha Hv1) as (t1 & ts' & G & E' & Z).
    exists t1, (t0 :: ts'). split; [exact G |]. split.
    + constructor; [| exact E'].
      apply Hother; [| exact Hc0]. intros Hac.
      apply (Hdisj a); [now apply list_elem_of_In |].
      apply list_elem_of_In, in_flat_map. exists v1.
      split; [| exact Ha]. eapply assoc_get_In; eassumption.
    + simpl. now rewrite Z.
Qed.

(** When the object at the end of [path] is met once only, replacing
    it replaces the subtree at [path]. *)
Lemma denote_replace h a items' path :
  forall n root t ts',
    path_get root path h = Some (VRef a) ->
    denote n h root = Some t ->
    NoDup (addrs n h root) ->
    Forall2 (fun c tc =>
               denote (n - S (length path)) (<[a := ODict items']> h) c
               = Some tc)
      (map snd items') ts' ->
    denote n (<[a := ODict items']> h) root
    = Some (tree_replace t path (TDict (zip (map fst items') ts'))).
Proof.
  induction path as [|k rest IH]; intros n root t ts' Hp Hd Hnd Hnew.
  - simpl in Hp. inversion Hp; subst root.
    destruct n; [discriminate |].
    destruct (denote_ref_inv _ _ _ _ Hd) as (o & ts & Ho & _ & _).
    simpl in Hnew. rewrite Nat.sub_0_r in Hnew.
    apply (denote_ref_intro n _ a (ODict items') ts'); [| exact Hnew].
    apply list_lookup_insert_eq. now apply lookup_lt_Some in Ho.
  - simpl in Hp.
    destruct (getitem root k h) as [v1|] eqn:Eg; [| discriminate].
    destruct (getitem_inv _ _ _ _ Eg) as (a0 & items & -> & Ho & Hv1).
    destruct n; [discriminate |].
    destruct (denote_ref_inv _ _ _ _ Hd) as (o & ts & Ho' & E & ->).
    rewrite Ho in Ho'. inversion Ho'; subst o. simpl in E.
    simpl in Hnd. rewrite Ho in Hnd.
    apply NoDup_cons in Hnd as [Ha0 Hndc].
    assert (Htv1 : exists tv1, denote n h v1 = Some tv1).
    { destruct (Forall2_In_l _ _ _ _ E (assoc_get_In _ _ _ Hv1))
        as (tv1 & _ & H1). eauto. }
    destruct Htv1 as [tv1 Htv1].
    pose proof (path_in_addrs _ _ _ _ _ _ Hp Htv1) as Hin.
    assert (Hne : a0 <> a).
    { intros ->. apply Ha0. apply list_elem_of_In, in_flat_map.
      exists v1. split; [eapply assoc_get_In; eassumption | exact Hin]. }
    simpl in Hnew.
    destruct (items_replace (denote n h)
                (denote n (<[a := ODict items']> h)) (addrs n h) a k
                (fun t1 => tree_replace t1 rest
                             (TDict (zip (map fst items') ts')))
                (denote_insert_other n h a (ODict items'))
                items ts v1 E Hv1 Hndc Hin)
      as (t1 & ts1 & G & E1 & Z).
    { intros t1 Hnd1 Ht1. now apply IH. }
    simpl. rewrite G, <- Z.
    apply (denote_ref_intro n _ a0 (ODict items) ts1); [| exact E1].
    now rewrite list_lookup_insert_ne by congruence.
Qed.

(** Setting keys in a dictionary, on the values and on their trees. *)
Lemma assoc_set_denote (f : val -> option tree) k x tx :
  f x = Some tx ->
  forall items ts,
    Forall2 (fun c t => f c = Some t) (map snd items) ts ->
    exists ts',
      Forall2 (fun c t => f c = Some t) (map snd (assoc_set items k x)) ts' /\
      zip (map fst (assoc_set items k x)) ts'
      = assoc_set (zip (map fst items) ts) k tx.
Proof.
  intros Hx. induction items as [|[k0 c0] items IH]; intros ts E;
    simpl in *.
  - inversion E; subst. exists [tx]. split; [| reflexivity].
    repeat constructor. exact Hx.
  - inversion E as [|? t0 ? ts0 Hc0 Hrest]; subst. simpl.
    destruct (String.eqb k0 k).
    + exists (tx :: ts0). split; [| reflexivity].
      constructor; assumption.
    + destruct (IH ts0 Hrest) as (ts' & E' & Z).
      exists (t0 :: ts'). split; [constructor; assumption |].
      simpl. now rewrite Z.
Qed.

(** *** The addresses met do not depend on spare fuel or spare heap *)

Lemma flat_map_ext_In {A B} (f g : A -> list B) (l : list A) :
  (forall x, In x l -> f x = g x) -> flat_map f l = flat_map g l.
Proof.
  intros H. induction l as [|x l IH]; simpl; [reflexivity |].
  rewrite (H x) by now left. rewrite IH; [reflexivity |].
  intros y Hy. apply H. now right.
Qed.

Lemma addrs_mono n h :
  forall v t n', denote n h v = Some t -> n <= n' ->
                 addrs n' h v = addrs n h v.
Proof.
  induction n as [|n IH]; intros v t n' H Hle.
  - destruct v; simpl in *; try discriminate; destruct n'; reflexivity.
  - destruct v as [| | | |a]; try (destruct n'; reflexivity).
    destruct n' as [|n']; [lia |].
    destruct (denote_ref_inv _ _ _ _ H) as (o & ts & Ho & E & _).
    simpl. rewrite Ho. f_equal. apply flat_map_ext_In. intros c Hc.
    destruct (Forall2_In_l _ _ _ _ E Hc) as (tc & _ & Htc).
    apply (IH c tc); [exact Htc | lia].
Qed.

Lemma addrs_extends n h h' :
  extends_heap h h' ->
  forall v t, denote n h v = Some t -> addrs n h' v = addrs n h v.
Proof.
  intros He. induction n as [|n IH]; intros v t H.
  - destruct v; reflexivity.
  - destruct v as [| | | |a]; try reflexivity.
    destruct (denote_ref_inv _ _ _ _ H) as (o & ts & Ho & E & _).
    simpl. rewrite Ho, (He _ _ Ho). f_equal.
    apply flat_map_ext_In. intros c Hc.
    destruct (Forall2_In_l _ _ _ _ E Hc) as (tc & _ & Htc).
    now apply (IH c tc).
Qed.

Lemma addrs_lt n h :
  forall v t, denote n h v = Some t ->
              forall a, In a (addrs n h v) -> a < length h.
Proof.
  induction n as [|n IH]; intros v t H a Ha.
  - destruct v; simpl in *; contradiction.
  - destruct v as [| | | |r]; simpl in Ha; try contradiction.
    destruct (denote_ref_inv _ _ _ _ H) as (o & ts & Ho & E & _).
    rewrite Ho in Ha. destruct Ha as [<- | Ha].
    + now apply lookup_lt_Some in Ho.
    + apply in_flat_map in Ha as (c & Hc & Hac).
      destruct (Forall2_In_l _ _ _ _ E Hc) as (tc & _ & Htc).
      now apply (IH c tc).
Qed.

Lemma NoDup_flat_map_In {A B} (f : A -> list B) (l : list A) x :
  NoDup (flat_map f l) -> In x l -> NoDup (f x).
Proof.
  induction l as [|y l IH]; simpl; [contradiction |].
  intros Hnd [-> | Hin]; apply NoDup_app in Hnd as (H1 & _ & H2); auto.
Qed.

(** The part unfolded from the end of a path is tree-shaped too. *)
Lemma NoDup_addrs_path h path :
  forall n root t v,
    path_get root path h = Some v -> denote n h root = Some t ->
    NoDup (addrs n h root) -> NoDup (addrs (n - length path) h v).
Proof.
  induction path as [|k rest IH]; intros n root t v Hp Hd Hnd; simpl in Hp.
  - inversion Hp; subst v. simpl. now rewrite Nat.sub_0_r.
  - destruct (getitem root k h) as [w|] eqn:Eg; [| discriminate].
    destruct (getitem_inv _ _ _ _ Eg) as (a0 & items & -> & Ho & Hw).
    destruct n; [discriminate |].
    destruct (denote_ref_inv _ _ _ _ Hd) as (o & ts & Ho' & E & _).
    rewrite Ho in Ho'. inversion Ho'; subst o. simpl in E.
    simpl in Hnd. rewrite Ho in Hnd. apply NoDup_cons in Hnd as [_ Hnd].
    pose proof (assoc_get_In _ _ _ Hw) as Hin.
    destruct (Forall2_In_l _ _ _ _ E Hin) as (tw & _ & Htw).
    simpl. apply (IH n w tw v Hp Htw).
    eapply NoDup_flat_map_In; eassumption.
Qed.

(** *** Statements of the module, as heap updates *)

Lemma setitem_inv d k x h h' :
  setitem d k x h = Some h' ->
  exists a items,
    d = VRef a /\ h !! a = Some (ODict items) /\
    h' = <[a := ODict (assoc_set items k x)]> h.
Proof.
  destruct d as [| | | |a]; simpl; try discriminate.
  destruct (h !! a) as [[items|elems]|] eqn:Ho; try discriminate.
  intros H. inversion H. eauto.
Qed.

Lemma assign_inv root path key x h h' :
  assign root path key x h = Some h' ->
  exists a items,
    path_get root path h = Some (VRef a) /\ h !! a = Some (ODict items) /\
    h' = <[a := ODict (assoc_set items key x)]> h.
Proof.
  unfold assign. destruct (path_get root path h) as [d|] eqn:Ep; simpl;
    [| discriminate].
  intros H. destruct (setitem_inv _ _ _ _ _ H) as (a & items & -> & Ho & ->).
  eauto.
Qed.

(** A path reads the same after a key that is not on it is set. *)
Lemma path_get_set_other h a items key x path :
  h !! a = Some (ODict items) ->
  Forall (fun k => k <> key) path ->
  forall root,
    path_get root path (<[a := ODict (assoc_set items key x)]> h)
    = path_get root path h.
Proof.
  intros Ho Hpath. induction Hpath as [|k rest Hk _ IH]; intros root;
    simpl; [reflexivity |].
  assert (Hg : getitem root k (<[a := ODict (assoc_set items key x)]> h)
               = getitem root k h).
  { destruct root as [| | | |r]; simpl; try reflexivity.
    destruct (Nat.eq_dec r a) as [-> | Hne].
    - rewrite list_lookup_insert_eq by (now apply lookup_lt_Some in Ho).
      rewrite Ho. apply assoc_get_set_ne. congruence.
    - now rewrite list_lookup_insert_ne by congruence. }
  rewrite Hg. destruct (getitem root k h); [apply IH | reflexivity].
Qed.

(** The objects the three [update] statements allocate when the heap
    has [n] objects: the argument dictionaries and the two displays. *)
Definition field_objects (uuid_or_null : val) (n : nat) : list obj :=
  [ODict [("destination_project_id", uuid_or_null)];
   ODict [("type", VStr "string"); ("format", VStr "uuid")];
   ODict [("source_project_id", VRef (S n))];
   ODict [("type", VStr "boolean")];
   ODict [("accepted", VRef (S (S (S n))))]].

Definition is_new_field (k : string) : Prop :=
  k = "destination_project_id" \/ k = "source_project_id" \/ k = "accepted".

Lemma update_with_inv root path key expr h h' a items x l :
  path_get root path h = Some (VRef a) -> h !! a = Some (ODict items) ->
  expr h = (x, h ++ l) ->
  update_with root path key expr h = Some h' ->
  h' = <[a := ODict (assoc_set items key x)]> h ++ l ++ [ODict [(key, x)]].
Proof.
  intros Hp Ho Hx H. unfold update_with in H. rewrite Hp in H. simpl in H.
  rewrite Hx in H.
  pose proof (lookup_lt_Some _ _ _ Ho) as Ha.
  rewrite <- app_assoc in H. rewrite lookup_app_l in H by exact Ha.
  rewrite Ho in H. inversion H.
  now rewrite insert_app_l by exact Ha.
Qed.

Lemma add_fields_inv root path u h h' a :
  Forall (fun k => ~ is_new_field k) path ->
  path_get root path h = Some (VRef a) -> a < length h ->
  add_fields root path u h = Some h' ->
  exists items,
    h !! a = Some (ODict items) /\
    h' = <[a := ODict (new_items items u (VRef (S (length h)))
                         (VRef (S (S (S (length h))))))]> h
         ++ field_objects u (length h).
Proof.
  intros Hpath Hp Ha H. unfold add_fields in H.
  destruct (lookup_lt_is_Some_2 h a Ha) as [o Ho].
  destruct (update_with root path "destination_project_id" _ h)
    as [h1|] eqn:E1; simpl in H; [| discriminate].
  destruct (update_with root path "source_project_id" _ h1)
    as [h2|] eqn:E2; simpl in H; [| discriminate].
  assert (Hitems : exists items, o = ODict items).
  { unfold update_with in E1. rewrite Hp in E1. simpl in E1.
    rewrite lookup_app_l in E1 by exact Ha. rewrite Ho in E1.
    destruct o as [items|elems]; [eauto | discriminate]. }
  destruct Hitems as [items ->]. exists items. split; [exact Ho |].
  assert (Hne : forall key, is_new_field key ->
                            Forall (fun k => k <> key) path).
  { intros key Hkey. eapply Forall_impl; [exact Hpath |].
    intros k Hk ->. now apply Hk. }
  (* first statement *)
  apply (update_with_inv _ _ _ _ _ _ a items u []) in E1;
    [| exact Hp | exact Ho | now rewrite app_nil_r].
  simpl in E1.
  set (i1 := assoc_set items "destination_project_id" u) in *.
  set (g1 := <[a := ODict i1]> h) in *.
  assert (Hlen1 : length h1 = S (length h)).
  { subst h1 g1. rewrite length_app, length_insert. simpl. lia. }
  assert (Hg1 : g1 !! a = Some (ODict i1)).
  { unfold g1. now apply list_lookup_insert_eq. }
  assert (Hp1 : path_get root path h1 = Some (VRef a)).
  { subst h1. apply (path_get_extends g1); [apply extends_heap_app |].
    unfold g1, i1. rewrite path_get_set_other; auto.
    apply Hne. left. reflexivity. }
  assert (Ho1 : h1 !! a = Some (ODict i1)).
  { subst h1. rewrite lookup_app_l; [exact Hg1 |].
    unfold g1. now rewrite length_insert. }
  (* second statement *)
  apply (update_with_inv _ _ _ _ _ _ a i1 (VRef (length h1))
           [ODict [("type", VStr "string"); ("format", VStr "uuid")]])
    in E2; [| exact Hp1 | exact Ho1 | reflexivity].
  set (i2 := assoc_set i1 "source_project_id" (VRef (length h1))) in *.
  assert (Hh2 : h2 = <[a := ODict i2]> h
                     ++ [ODict [("destination_project_id", u)];
                         ODict [("type", VStr "string");
                                ("format", VStr "uuid")];
                         ODict [("source_project_id", VRef (length h1))]]).
  { rewrite E2, E1. unfold g1.
    rewrite insert_app_l by (now rewrite length_insert).
    rewrite list_insert_insert_eq. now rewrite <- !app_assoc. }
  clear E2.
  assert (Hlen2 : length h2 = S (S (S (length h)))).
  { rewrite Hh2, length_app, length_insert. simpl. lia. }
  assert (Ho2 : h2 !! a = Some (ODict i2)).
  { rewrite Hh2, lookup_app_l by (now rewrite length_insert).
    now apply list_lookup_insert_eq. }
  assert (Hp2 : path_get root path h2 = Some (VRef a)).
  { rewrite Hh2.
    apply (path_get_extends (<[a := ODict i2]> h));
      [apply extends_heap_app |].
    unfold i2.
    assert (Hd : <[a := ODict (assoc_set i1 "source_project_id"
                                 (VRef (length h1)))]> h
                 = <[a := ODict (assoc_set i1 "source_project_id"
                                   (VRef (length h1)))]> g1).
    { unfold g1. now rewrite list_insert_insert_eq. }
    rewrite Hd, path_get_set_other;
      [| exact Hg1 | apply Hne; right; left; reflexivity].
    unfold g1, i1. rewrite path_get_set_other; auto.
    apply Hne. left. reflexivity. }
  (* third statement *)
  apply (update_with_inv _ _ _ _ _ _ a i2 (VRef (length h2))
           [ODict [("type", VStr "boolean")]])
    in H; [| exact Hp2 | exact Ho2 | reflexivity].
  rewrite H, Hlen2, Hh2.
  rewrite insert_app_l by (now rewrite length_insert).
  rewrite list_insert_insert_eq. rewrite <- !app_assoc.
  unfold new_items, field_objects, i2, i1. rewrite Hlen1.
  reflexivity.
Qed.

(** *** Values within a range of addresses *)

Definition val_within (lo hi : nat) (v : val) : Prop :=
  match v with
  | VRef r => lo <= r < hi
  | _ => True
  end.

Lemma path_get_within lo hi h path :
  (forall b o, lo <= b < hi -> h !! b = Some o ->
               Forall (val_within lo hi) (children o)) ->
  forall root v,
    val_within lo hi root -> path_get root path h = Some v ->
    val_within lo hi v.
Proof.
  intros Hobj. induction path as [|k rest IH]; intros root v Hroot Hp;
    simpl in Hp.
  - now inversion Hp; subst.
  - destruct (getitem root k h) as [w|] eqn:Eg; [| discriminate].
    destruct (getitem_inv _ _ _ _ Eg) as (a & items & -> & Ho & Hw).
    apply (IH w v); [| exact Hp].
    pose proof (Hobj a _ Hroot Ho) as Hch. rewrite Forall_forall in Hch.
    apply Hch. apply list_elem_of_In. simpl. eapply assoc_get_In; eassumption.
Qed.

Lemma copied_root_within n0 h m h' v :
  copied n0 h m h' -> in_memo m v ->
  val_within (length h) (length h') (rename m v).
Proof.
  intros Hc Hin. destruct v as [| | | |a]; simpl in *; try exact I.
  destruct (memo_get m a) as [a'|] eqn:Ea; [| congruence].
  destruct (copied_entry _ _ _ _ Hc a a' Ea) as (_ & Hr & _). exact Hr.
Qed.

Lemma copied_within n0 h m h' b o :
  copied n0 h m h' -> length h <= b -> h' !! b = Some o ->
  Forall (val_within (length h) (length h')) (children o).
Proof. intros Hc Hb Ho. exact (copied_fresh _ _ _ _ Hc b o Hb Ho). Qed.

(** ** The statements that derive one schema *)

(** [v] unfolds to [t] and no object is met twice on the way: the
    value is a tree, without shared parts. *)
Definition tree_shaped (h : heap) (v : val) (t : tree) : Prop :=
  exists n, denote n h v = Some t /\ NoDup (addrs n h v).

Lemma tree_shaped_denotes h v t : tree_shaped h v t -> denotes h v t.
Proof. intros (n & H & _). now exists n. Qed.

Lemma tree_shaped_extends h h' v t :
  extends_heap h h' -> tree_shaped h v t -> tree_shaped h' v t.
Proof.
  intros He (n & H & Hnd). exists n. split.
  - eapply denote_extends; eassumption.
  - now rewrite (addrs_extends n h h' He v t H).
Qed.

Lemma closed_below_extends n h h' :
  closed_below n h -> extends_heap h h' -> closed_below n h'.
Proof.
  intros [Hn Hc] He. split.
  - apply extends_heap_length in He. lia.
  - intros b o Hb Ho.
    destruct (lookup_lt_is_Some_2 h b) as [o0 Ho0]; [lia |].
    pose proof (He _ _ Ho0) as Ho'. rewrite Ho in Ho'. inversion Ho'; subst.
    eapply Hc; eassumption.
Qed.

Lemma add_fields_path root path u h h' :
  add_fields root path u h = Some h' ->
  exists a, path_get root path h = Some (VRef a).
Proof.
  unfold add_fields, update_with. intros H.
  destruct (path_get root path h) as [d|]; [| discriminate].
  simpl in H. destruct d as [| | | |a]; try discriminate. eauto.
Qed.

(** [x' = copy.deepcopy(x)] followed by the three [update]s. *)
Lemma derive_fields_shape n0 h x x' h1 h2 path u :
  closed_below n0 h -> val_below n0 x ->
  Forall (fun k => ~ is_new_field k) path ->
  copy_deepcopy x h = Some (x', h1) ->
  add_fields x' path u h1 = Some h2 ->
  exists m a items,
    copied n0 h m h1 /\ x' = rename m x /\ in_memo m x /\
    length h <= a < length h1 /\
    path_get x' path h1 = Some (VRef a) /\
    h1 !! a = Some (ODict items) /\
    h2 = <[a := ODict (new_items items u (VRef (S (length h1)))
                         (VRef (S (S (S (length h1))))))]> h1
         ++ field_objects u (length h1).
Proof.
  intros Hc Hx Hpath Hcopy Hadd.
  destruct (copy_deepcopy_spec n0 h x Hc Hx)
    as (x'' & h1' & m & Hcopy' & Hcopied & Hx' & Hin).
  rewrite Hcopy in Hcopy'. injection Hcopy' as E1 E2.
  rewrite <- E1 in *. rewrite <- E2 in *. clear E1 E2 x'' h1'.
  destruct (add_fields_path _ _ _ _ _ Hadd) as [a Hp].
  assert (Ha : val_within (length h) (length h1) (VRef a)).
  { apply (path_get_within _ _ h1 path) with (root := x').
    - intros b o Hb Ho'.
      apply (copied_within n0 h m h1 b o Hcopied); [lia | exact Ho'].
    - rewrite Hx'. eapply copied_root_within; eassumption.
    - exact Hp. }
  simpl in Ha.
  destruct (add_fields_inv _ _ _ _ _ a Hpath Hp (proj2 Ha) Hadd)
    as (items & Ho & Hh2).
  exists m, a, items. auto 10.
Qed.

(** [x' = copy.deepcopy(x)] followed by [x'[path][key] = c]. *)
Lemma derive_item_shape n0 h x x' h1 h2 path key c :
  closed_below n0 h -> val_below n0 x ->
  copy_deepcopy x h = Some (x', h1) ->
  assign x' path key c h1 = Some h2 ->
  exists m a items,
    copied n0 h m h1 /\ x' = rename m x /\ in_memo m x /\
    length h <= a < length h1 /\
    path_get x' path h1 = Some (VRef a) /\
    h1 !! a = Some (ODict items) /\
    h2 = <[a := ODict (assoc_set items key c)]> h1.
Proof.
  intros Hc Hx Hcopy Hassign.
  destruct (copy_deepcopy_spec n0 h x Hc Hx)
    as (x'' & h1' & m & Hcopy' & Hcopied & Hx' & Hin).
  rewrite Hcopy in Hcopy'. injection Hcopy' as E1 E2.
  rewrite <- E1 in *. rewrite <- E2 in *. clear E1 E2 x'' h1'.
  destruct (assign_inv _ _ _ _ _ _ Hassign) as (a & items & Hp & Ho & Hh2).
  assert (Ha : val_within (length h) (length h1) (VRef a)).
  { apply (path_get_within _ _ h1 path) with (root := x').
    - intros b o Hb Ho'.
      apply (copied_within n0 h m h1 b o Hcopied); [lia | exact Ho'].
    - rewrite Hx'. eapply copied_root_within; eassumption.
    - exact Hp. }
  exists m, a, items. auto 10.
Qed.

(** Writing to a copy leaves what was there before the copy. *)
Lemma insert_fresh_extends h h1 a o l :
  extends_heap h h1 -> length h <= a ->
  extends_heap h (<[a := o]> h1 ++ l).
Proof.
  intros He Ha b ob Hb. pose proof (lookup_lt_Some _ _ _ Hb) as Hlt.
  apply lookup_app_l_Some. rewrite list_lookup_insert_ne by lia.
  now apply He.
Qed.

Lemma derive_copy_denote n0 h x x' h1 t :
  closed_below n0 h -> val_below n0 x ->
  copy_deepcopy x h = Some (x', h1) ->
  denotes h x t ->
  extends_heap h h1 /\ denotes h1 x' t /\
  val_within (length h) (length h1) x'.
Proof.
  intros Hc Hx Hcopy [n Hd].
  destruct (copy_deepcopy_spec n0 h x Hc Hx)
    as (x'' & h1' & m & Hcopy' & Hcopied & Hx' & Hin).
  rewrite Hcopy in Hcopy'. injection Hcopy' as E1 E2.
  rewrite <- E1 in *. rewrite <- E2 in *. clear E1 E2 x'' h1'.
  split; [eapply copied_extends; eassumption |]. split.
  - exists n. rewrite Hx'. eapply copied_denote; eassumption.
  - rewrite Hx'. eapply copied_root_within; eassumption.
Qed.

(** The dictionary at the end of [path] in a fresh copy of a
    tree-shaped value: with fuel to spare, the copy unfolds to the
    same tree in any heap that extends the copy's, and the values of
    the dictionary unfold to the same trees whatever is written to
    the dictionary itself. *)
Lemma copy_children n0 h m h1 x t path a items :
  copied n0 h m h1 -> in_memo m x -> tree_shaped h x t ->
  path_get (rename m x) path h1 = Some (VRef a) ->
  h1 !! a = Some (ODict items) ->
  exists n, forall k, n <= k -> forall l o',
    denote (k + S (length path)) (h1 ++ l) (rename m x) = Some t /\
    NoDup (addrs (k + S (length path)) (h1 ++ l) (rename m x)) /\
    path_get (rename m x) path (h1 ++ l) = Some (VRef a) /\
    exists ts,
      tree_get t path = Some (TDict (zip (map fst items) ts)) /\
      Forall2 (fun c tc => denote k (<[a := o']> (h1 ++ l)) c = Some tc)
        (map snd items) ts.
Proof.
  intros Hcopied Hin (n & Hd & Hnd) Hp Ho. exists n. intros k Hk l o'.
  set (N := k + S (length path)). set (hL := h1 ++ l).
  assert (He : extends_heap h1 hL) by apply extends_heap_app.
  pose proof (copied_denote _ _ _ _ Hcopied n x t Hin Hd) as Hd1.
  pose proof (copied_NoDup _ _ _ _ Hcopied n x Hin Hnd) as Hnd1.
  assert (HdL : denote N hL (rename m x) = Some t).
  { apply (denote_mono n); [| unfold N; lia].
    eapply denote_extends; eassumption. }
  assert (HndL : NoDup (addrs N hL (rename m x))).
  { rewrite (addrs_mono n hL _ t N); [| | unfold N; lia].
    - now rewrite (addrs_extends n h1 hL He _ t Hd1).
    - eapply denote_extends; eassumption. }
  assert (HpL : path_get (rename m x) path hL = Some (VRef a))
    by (eapply path_get_extends; eassumption).
  split; [exact HdL |]. split; [exact HndL |]. split; [exact HpL |].
  destruct (path_get_denote _ _ _ _ _ _ HpL HdL) as (tv & Hget & Hda).
  pose proof (NoDup_addrs_path _ _ _ _ _ _ HpL HdL HndL) as Hnda.
  replace (N - length path) with (S k) in * by (unfold N; lia).
  destruct (denote_ref_inv _ _ _ _ Hda) as (o & ts & HoL & E & ->).
  rewrite (He _ _ Ho) in HoL. inversion HoL; subst o. simpl in E.
  simpl in Hnda. rewrite (He _ _ Ho) in Hnda.
  apply NoDup_cons in Hnda as [Hnot _].
  exists ts. split; [exact Hget |].
  assert (Hch : forall c, In c (map snd items) -> ~ In a (addrs k hL c)).
  { intros c Hc Hac. apply Hnot. apply list_elem_of_In, in_flat_map. eauto. }
  clear -E Hch. induction E as [|c tc cs tcs Hc _ IH]; constructor.
  - apply denote_insert_other; [| exact Hc]. apply Hch. now left.
  - apply IH. intros c' Hc'. apply Hch. now right.
Qed.

(** A value that was there before the copy unfolds to the same tree
    after an object of the copy is written. *)
Lemma denote_old_value h h1 a o l x tx :
  extends_heap h h1 -> length h <= a ->
  denotes h x tx ->
  exists n, forall k, n <= k ->
    denote k (<[a := o]> (h1 ++ l)) x = Some tx.
Proof.
  intros He Ha [n Hd]. exists n. intros k' Hk.
  assert (HeL : extends_heap h (h1 ++ l)).
  { eapply extends_heap_trans; [exact He | apply extends_heap_app]. }
  apply denote_insert_other.
  - rewrite (addrs_mono n (h1 ++ l) x tx k');
      [| eapply denote_extends; eassumption | exact Hk].
    rewrite (addrs_extends n h (h1 ++ l) HeL x tx Hd).
    intros Hin. apply (addrs_lt _ _ _ _ Hd) in Hin. lia.
  - apply (denote_mono n); [| exact Hk].
    eapply denote_extends; eassumption.
Qed.

Lemma derive_fields_denote n0 h x x' h1 h2 path u t tu :
  closed_below n0 h -> val_below n0 x ->
  Forall (fun k => ~ is_new_field k) path ->
  copy_deepcopy x h = Some (x', h1) ->
  add_fields x' path u h1 = Some h2 ->
  tree_shaped h x t -> denotes h u tu ->
  extends_heap h h2 /\
  denotes h2 x' (with_new_fields t path tu) /\
  val_within (length h) (length h1) x' /\
  exists titems, tree_get t path = Some (TDict titems).
Proof.
  intros Hc Hx Hpath Hcopy Hadd Ht Hu.
  destruct (derive_fields_shape _ _ _ _ _ _ _ _ Hc Hx Hpath Hcopy Hadd)
    as (m & a & items & Hcopied & -> & Hin & Ha & Hp & Ho & Hh2).
  pose proof (copied_extends _ _ _ _ Hcopied) as He.
  split; [rewrite Hh2; now apply insert_fresh_extends |].
  split; [| split; [eapply copied_root_within; eassumption |]].
  2:{ destruct (copy_children _ _ _ _ _ _ _ _ _ Hcopied Hin Ht Hp Ho)
        as (n & Hn).
      destruct (Hn n (Nat.le_refl n) [] (ODict items))
        as (_ & _ & _ & ts & Hget & _). eauto. }
  set (L := length h1) in *.
  set (items' := new_items items u (VRef (S L)) (VRef (S (S (S L))))) in *.
  set (l := field_objects u L) in *.
  rewrite <- insert_app_l in Hh2 by lia.
  destruct (copy_children _ _ _ _ _ _ _ _ _ Hcopied Hin Ht Hp Ho)
    as (n1 & Hn1).
  destruct (denote_old_value h h1 a (ODict items') l u tu He
              (proj1 Ha) Hu) as (n2 & Hn2).
  set (k := S (n1 + n2)).
  destruct (Hn1 k ltac:(unfold k; lia) l (ODict items'))
    as (HdL & HndL & HpL & ts & Hget & E).
  rewrite <- Hh2 in E.
  assert (Hfu : denote k h2 u = Some tu).
  { rewrite Hh2. apply Hn2. unfold k. lia. }
  assert (Hlen : length (<[a := ODict items']> h1) = L)
    by now rewrite length_insert.
  assert (Hlit : forall i o, l !! i = Some o ->
                             h2 !! (L + i) = Some o).
  { intros i o Hi. rewrite Hh2.
    rewrite insert_app_l by lia.
    rewrite lookup_app_r by lia. now rewrite Hlen, Nat.add_comm, Nat.add_sub. }
  assert (Hfs : denote k h2 (VRef (S L)) = Some uuid_string).
  { apply (denote_mono 1); [| unfold k; lia].
    simpl. replace (S L) with (L + 1) by lia.
    rewrite (Hlit 1 _ eq_refl). reflexivity. }
  assert (Hfb : denote k h2 (VRef (S (S (S L)))) = Some boolean).
  { apply (denote_mono 1); [| unfold k; lia].
    simpl. replace (S (S (S L))) with (L + 3) by lia.
    rewrite (Hlit 3 _ eq_refl). reflexivity. }
  destruct (assoc_set_denote (denote k h2) "destination_project_id" u tu
              Hfu items ts E) as (ts1 & E1 & Z1).
  destruct (assoc_set_denote (denote k h2) "source_project_id"
              (VRef (S L)) uuid_string Hfs _ ts1 E1) as (ts2 & E2 & Z2).
  destruct (assoc_set_denote (denote k h2) "accepted"
              (VRef (S (S (S L)))) boolean Hfb _ ts2 E2) as (ts3 & E3 & Z3).
  fold (new_items items u (VRef (S L)) (VRef (S (S (S L))))) in E3, Z3.
  fold items' in E3, Z3.
  exists (k + S (length path)). rewrite Hh2.
  rewrite (denote_replace (h1 ++ l) a items' path
             (k + S (length path)) (rename m x) t ts3 HpL HdL HndL).
  - rewrite (with_new_fields_replace _ _ _ _ Hget).
    unfold new_items. now rewrite Z3, Z2, Z1.
  - replace (k + S (length path) - S (length path)) with k by lia.
    rewrite <- Hh2. exact E3.
Qed.

Lemma derive_item_denote n0 h x x' h1 h2 path key c t tc :
  closed_below n0 h -> val_below n0 x ->
  Forall (fun k => k <> key) path ->
  copy_deepcopy x h = Some (x', h1) ->
  assign x' path key c h1 = Some h2 ->
  tree_shaped h x t -> denotes h c tc ->
  extends_heap h h2 /\
  denotes h2 x' (tree_set t path key tc) /\
  val_within (length h) (length h1) x' /\
  exists a, length h <= a < length h1 /\
            path_get x' path h2 = Some (VRef a) /\
            getitem (VRef a) key h2 = Some c.
Proof.
  intros Hc Hx Hpath Hcopy Hassign Ht Hcv.
  destruct (derive_item_shape _ _ _ _ _ _ _ _ _ Hc Hx Hcopy Hassign)
    as (m & a & items & Hcopied & -> & Hin & Ha & Hp & Ho & Hh2).
  pose proof (copied_extends _ _ _ _ Hcopied) as He.
  assert (Hh2' : h2 = <[a := ODict (assoc_set items key c)]> (h1 ++ []))
    by now rewrite app_nil_r.
  split.
  { rewrite Hh2. rewrite <- (app_nil_r (<[a := _]> h1)).
    now apply insert_fresh_extends. }
  split; [| split; [eapply copied_root_within; eassumption |]].
  - destruct (copy_children _ _ _ _ _ _ _ _ _ Hcopied Hin Ht Hp Ho)
      as (n1 & Hn1).
    destruct (denote_old_value h h1 a (ODict (assoc_set items key c)) []
                c tc He (proj1 Ha) Hcv) as (n2 & Hn2).
    set (k := n1 + n2).
    destruct (Hn1 k ltac:(unfold k; lia) [] (ODict (assoc_set items key c)))
      as (HdL & HndL & HpL & ts & Hget & E).
    rewrite <- Hh2' in E.
    assert (Hfc : denote k h2 c = Some tc).
    { rewrite Hh2'. apply Hn2. unfold k. lia. }
    destruct (assoc_set_denote (denote k h2) key c tc Hfc items ts E)
      as (ts1 & E1 & Z1).
    exists (k + S (length path)). rewrite Hh2'.
    rewrite (denote_replace (h1 ++ []) a (assoc_set items key c) path
               (k + S (length path)) (rename m x) t ts1 HpL HdL HndL).
    + rewrite (tree_set_replace _ _ _ _ _ Hget). now rewrite Z1.
    + replace (k + S (length path) - S (length path)) with k by lia.
      rewrite <- Hh2'. exact E1.
  - exists a. split; [exact Ha |]. split.
    + rewrite Hh2, path_get_set_other; assumption.
    + rewrite Hh2. simpl.
      rewrite list_lookup_insert_eq by lia. apply assoc_get_set_eq.
Qed.

(** Setting a key to a tree with the new fields is adding the new
    fields below that key. *)
Lemma with_new_fields_nested t pre k q sub titems tu :
  tree_get t (pre ++ [k]) = Some sub ->
  tree_get sub q = Some (TDict titems) ->
  tree_set t pre k (with_new_fields sub q tu)
  = with_new_fields t (pre ++ k :: q) tu.
Proof.
  intros Hsub Hq.
  assert (Hpre : exists items,
             tree_get t pre = Some (TDict items) /\
             assoc_get items k = Some sub).
  { rewrite tree_get_app in Hsub.
    destruct (tree_get t pre) as [s|]; [| discriminate].
    simpl in Hsub. destruct s as [| | | |items|]; try discriminate.
    destruct (assoc_get items k) as [y|] eqn:E; [| discriminate].
    inversion Hsub; subst y. eauto. }
  destruct Hpre as (items & Hpre & Hk).
  assert (Hfull : tree_get t (pre ++ k :: q) = Some (TDict titems)).
  { rewrite tree_get_app, Hpre. simpl. now rewrite Hk. }
  rewrite (with_new_fields_replace _ _ _ _ Hfull).
  rewrite (with_new_fields_replace _ _ _ _ Hq).
  rewrite (tree_set_replace _ _ _ _ _ Hpre).
  rewrite (tree_replace_app pre (k :: q) _ t (TDict items) Hpre).
  simpl. now rewrite Hk.
Qed.

(** ** The module, statement by statement *)

Lemma v3_57_inv base u h0 d hF :
  v3_57 base u h0 = Some (d, hF) ->
  exists create h1 h2 common h3 h4 show h5 h6 no_detail h7
         with_detail h8 h9 delete h10 accept,
    copy_deepcopy (create_volume_transfer base) h0 = Some (create, h1) /\
    add_fields create transfer_properties u h1 = Some h2 /\
    copy_deepcopy (common_show_volume_transfer base) h2
    = Some (common, h3) /\
    add_fields common ["properties"] u h3 = Some h4 /\
    copy_deepcopy (show_volume_transfer base) h4 = Some (show, h5) /\
    assign show ["response_body"; "properties"] "transfer" common h5
    = Some h6 /\
    copy_deepcopy (list_volume_transfers_no_detail base) h6
    = Some (no_detail, h7) /\
    copy_deepcopy (list_volume_transfers_with_detail base) h7
    = Some (with_detail, h8) /\
    assign with_detail ["response_body"; "properties"; "transfers"]
      "items" common h8 = Some h9 /\
    copy_deepcopy (delete_volume_transfer base) h9 = Some (delete, h10) /\
    copy_deepcopy (accept_volume_transfer base) h10 = Some (accept, hF) /\
    d = {| create_volume_transfer := create;
           common_show_volume_transfer := common;
           show_volume_transfer := show;
           list_volume_transfers_no_detail := no_detail;
           list_volume_transfers_with_detail := with_detail;
           delete_volume_transfer := delete;
           accept_volume_transfer := accept |}.
Proof.
  unfold v3_57. intros H.
  destruct (copy_deepcopy (create_volume_transfer base) h0)
    as [[create h1]|] eqn:E1; simpl in H; [| discriminate].
  destruct (add_fields create transfer_properties u h1) as [h2|] eqn:E2; simpl in H; [| discriminate].
  destruct (copy_deepcopy (common_show_volume_transfer base) h2)
    as [[common h3]|] eqn:E3; simpl in H; [| discriminate].
  destruct (add_fields common ["properties"] u h3) as [h4|] eqn:E4; simpl in H; [| discriminate].
  destruct (copy_deepcopy (show_volume_transfer base) h4)
    as [[show h5]|] eqn:E5; simpl in H; [| discriminate].
  destruct (assign show ["response_body"; "properties"] "transfer"
              common h5) as [h6|] eqn:E6; simpl in H; [| discriminate].
  destruct (copy_deepcopy (list_volume_transfers_no_detail base) h6)
    as [[no_detail h7]|] eqn:E7; simpl in H; [| discriminate].
  destruct (copy_deepcopy (list_volume_transfers_with_detail base) h7)
    as [[with_detail h8]|] eqn:E8; simpl in H; [| discriminate].
  destruct (assign with_detail
              ["response_body"; "properties"; "transfers"] "items"
              common h8) as [h9|] eqn:E9; simpl in H; [| discriminate].
  destruct (copy_deepcopy (delete_volume_transfer base) h9)
    as [[delete h10]|] eqn:E10; simpl in H; [| discriminate].
  destruct (copy_deepcopy (accept_volume_transfer base) h10)
    as [[accept h11]|] eqn:E11; simpl in H; [| discriminate].
  inversion H; subst.
  exists create, h1, h2, common, h3, h4, show, h5, h6, no_detail, h7,
    with_detail, h8, h9, delete, h10, accept.
  repeat split; assumption.
Qed.

Lemma denotes_val_below h v t : denotes h v t -> val_below (length h) v.
Proof.
  intros [n H]. destruct v as [| | | |a]; simpl; try exact I.
  destruct n; [discriminate |].
  destruct (denote_ref_inv _ _ _ _ H) as (o & _ & Ho & _).
  now apply lookup_lt_Some in Ho.
Qed.

Lemma val_below_le n n' v : n <= n' -> val_below n v -> val_below n' v.
Proof. destruct v; simpl; auto. lia. Qed.

Lemma transfer_properties_old :
  Forall (fun k => ~ is_new_field k) transfer_properties.
Proof.
  unfold transfer_properties.
  repeat constructor; intros [H | [H | H]]; discriminate H.
Qed.

Lemma properties_old : Forall (fun k => ~ is_new_field k) ["properties"].
Proof. repeat constructor; intros [H | [H | H]]; discriminate H. Qed.

(** C2.  In a heap without dangling references where the 3.55 schemas
    are trees, and where the show schema and the detailed list embed
    the common show schema, the module, when its import succeeds,
    leaves schemas structurally equal to the 3.55 ones but for the
    three fields [destination_project_id] (the value of
    [uuid_or_null]), [source_project_id] and [accepted], set in the
    ['transfer'] properties of the create and show schemas and in the
    item properties of the detailed list; the no-detail list, delete
    and accept schemas are structurally equal to the 3.55 ones. *)
Theorem derived_schemas_equal_base_plus_new_fields
    (base : transfers) (uuid_or_null : val) (h0 hF : heap) (d : transfers)
    (t_create t_common t_show t_no_detail t_with_detail t_delete t_accept
       tu : tree) :
  closed_below (length h0) h0 ->
  tree_shaped h0 (create_volume_transfer base) t_create ->
  tree_shaped h0 (common_show_volume_transfer base) t_common ->
  tree_shaped h0 (show_volume_transfer base) t_show ->
  tree_shaped h0 (list_volume_transfers_with_detail base) t_with_detail ->
  denotes h0 (list_volume_transfers_no_detail base) t_no_detail ->
  denotes h0 (delete_volume_transfer base) t_delete ->
  denotes h0 (accept_volume_transfer base) t_accept ->
  denotes h0 uuid_or_null tu ->
  tree_get t_show ["response_body"; "properties"; "transfer"]
  = Some t_common ->
  tree_get t_with_detail
    ["response_body"; "properties"; "transfers"; "items"]
  = Some t_common ->
  v3_57 base uuid_or_null h0 = Some (d, hF) ->
  denotes hF (create_volume_transfer d)
    (with_new_fields t_create
       ["response_body"; "properties"; "transfer"; "properties"] tu) /\
  denotes hF (show_volume_transfer d)
    (with_new_fields t_show
       ["response_body"; "properties"; "transfer"; "properties"] tu) /\
  denotes hF (list_volume_transfers_with_detail d)
    (with_new_fields t_with_detail
       ["response_body"; "properties"; "transfers"; "items"; "properties"]
       tu) /\
  denotes hF (list_volume_transfers_no_detail d) t_no_detail /\
  denotes hF (delete_volume_transfer d) t_delete /\
  denotes hF (accept_volume_transfer d) t_accept.
Proof.
  intros Hc0 Tcreate Tcommon Tshow Twd Dnd Ddel Dacc Du Gshow Gwd Hrun.
  destruct (v3_57_inv _ _ _ _ _ Hrun)
    as (create & h1 & h2 & common & h3 & h4 & show & h5 & h6 & no_detail
        & h7 & with_detail & h8 & h9 & delete & h10 & accept
        & C1 & F1 & C2 & F2 & C3 & A3 & C4 & C5 & A5 & C6 & C7 & ->).
  simpl. set (n0 := length h0) in *.
  assert (Bcreate := denotes_val_below _ _ _ (tree_shaped_denotes _ _ _ Tcreate)).
  assert (Bcommon := denotes_val_below _ _ _ (tree_shaped_denotes _ _ _ Tcommon)).
  assert (Bshow := denotes_val_below _ _ _ (tree_shaped_denotes _ _ _ Tshow)).
  assert (Bwd := denotes_val_below _ _ _ (tree_shaped_denotes _ _ _ Twd)).
  assert (Bnd := denotes_val_below _ _ _ Dnd).
  assert (Bdel := denotes_val_below _ _ _ Ddel).
  assert (Bacc := denotes_val_below _ _ _ Dacc).
  fold n0 in Bcreate, Bcommon, Bshow, Bwd, Bnd, Bdel, Bacc.
  (* create *)
  destruct (derive_fields_denote n0 h0 _ _ _ _ _ _ _ _ Hc0 Bcreate
              transfer_properties_old C1 F1 Tcreate Du)
    as (E02 & Dcreate & _ & _).
  (* common_show *)
  assert (Hc2 : closed_below n0 h2) by (eapply closed_below_extends; eassumption).
  destruct (derive_fields_denote n0 h2 _ _ _ _ _ _ _ _ Hc2 Bcommon
              properties_old C2 F2
              (tree_shaped_extends _ _ _ _ E02 Tcommon)
              (denotes_extends _ _ _ _ E02 Du))
    as (E24 & Dcommon & _ & titems & Gprops).
  assert (E04 : extends_heap h0 h4) by (eapply extends_heap_trans; eassumption).
  (* show *)
  assert (Hc4 : closed_below n0 h4) by (eapply closed_below_extends; eassumption).
  destruct (derive_item_denote n0 h4 _ _ _ _
              ["response_body"; "properties"] "transfer" _ _ _ Hc4 Bshow
              ltac:(repeat constructor; discriminate) C3 A3
              (tree_shaped_extends _ _ _ _ E04 Tshow) Dcommon)
    as (E46 & Dshow & _ & _).
  assert (E06 : extends_heap h0 h6) by (eapply extends_heap_trans; eassumption).
  (* list without detail *)
  assert (Hc6 : closed_below n0 h6) by (eapply closed_below_extends; eassumption).
  destruct (derive_copy_denote n0 h6 _ _ _ _ Hc6 Bnd C4
              (denotes_extends _ _ _ _ E06 Dnd))
    as (E67 & Dnd' & _).
  assert (E07 : extends_heap h0 h7) by (eapply extends_heap_trans; eassumption).
  (* list with detail *)
  assert (Hc7 : closed_below n0 h7) by (eapply closed_below_extends; eassumption).
  assert (E47 : extends_heap h4 h7).
  { eapply extends_heap_trans; eassumption. }
  destruct (derive_item_denote n0 h7 _ _ _ _
              ["response_body"; "properties"; "transfers"] "items" _ _ _
              Hc7 Bwd ltac:(repeat constructor; discriminate) C5 A5
              (tree_shaped_extends _ _ _ _ E07 Twd)
              (denotes_extends _ _ _ _ E47 Dcommon))
    as (E79 & Dwd & _ & _).
  assert (E09 : extends_heap h0 h9) by (eapply extends_heap_trans; eassumption).
  (* delete and accept *)
  assert (Hc9 : closed_below n0 h9) by (eapply closed_below_extends; eassumption).
  destruct (derive_copy_denote n0 h9 _ _ _ _ Hc9 Bdel C6
              (denotes_extends _ _ _ _ E09 Ddel))
    as (E9a & Ddel' & _).
  assert (E0a : extends_heap h0 h10) by (eapply extends_heap_trans; eassumption).
  assert (Hca : closed_below n0 h10) by (eapply closed_below_extends; eassumption).
  destruct (derive_copy_denote n0 h10 _ _ _ _ Hca Bacc C7
              (denotes_extends _ _ _ _ E0a Dacc))
    as (EaF & Dacc' & _).
  assert (E9F : extends_heap h9 hF) by (eapply extends_heap_trans; eassumption).
  assert (E7F : extends_heap h7 hF) by (eapply extends_heap_trans; eassumption).
  assert (E6F : extends_heap h6 hF) by (eapply extends_heap_trans; eassumption).
  assert (E2F : extends_heap h2 hF).
  { eapply extends_heap_trans; [exact E24 |].
    eapply extends_heap_trans; eassumption. }
  rewrite (with_new_fields_nested t_show ["response_body"; "properties"]
             "transfer" ["properties"] t_common titems tu Gshow Gprops)
    in Dshow.
  rewrite (with_new_fields_nested t_with_detail
             ["response_body"; "properties"; "transfers"] "items"
             ["properties"] t_common titems tu Gwd Gprops) in Dwd.
  split; [eapply denotes_extends; [exact E2F | exact Dcreate] |].
  split; [eapply denotes_extends; [exact E6F | exact Dshow] |].
  split; [eapply denotes_extends; [exact E9F | exact Dwd] |].
  split; [eapply denotes_extends; [exact E7F | exact Dnd'] |].
  split; [eapply denotes_extends; [exact EaF | exact Ddel'] |].
  exact Dacc'.
Qed.

(** ** Aliasing between the derived and the base schemas *)

(** The objects reachable from [roots]. *)
Inductive reach (h : heap) (roots : list val) : addr -> Prop :=
| reach_root a : In (VRef a) roots -> reach h roots a
| reach_step a o b :
    reach h roots a -> h !! a = Some o -> In (VRef b) (children o) ->
    reach h roots b.

(** The seven names of a transfers module. *)
Definition roots_of (t : transfers) : list val :=
  [create_volume_transfer t; common_show_volume_transfer t;
   show_volume_transfer t; list_volume_transfers_no_detail t;
   list_volume_transfers_with_detail t; delete_volume_transfer t;
   accept_volume_transfer t].

(** [v] is an immutable value or refers to [n0] or above. *)
Definition val_from (n0 : nat) (v : val) : Prop :=
  match v with
  | VRef r => n0 <= r
  | _ => True
  end.

(** The objects from [n0] upwards hold immutable values, references
    from [n0] upwards and [u] only. *)
Definition derived_ok (n0 : nat) (u : val) (h : heap) : Prop :=
  forall b o, n0 <= b -> h !! b = Some o ->
              Forall (fun v => val_from n0 v \/ v = u) (children o).

Lemma val_within_from n0 lo hi v :
  n0 <= lo -> val_within lo hi v -> val_from n0 v.
Proof. destruct v; simpl; auto. lia. Qed.

Lemma copied_frame n0 h m h1 b :
  copied n0 h m h1 -> b < length h -> h1 !! b = h !! b.
Proof. intros [Hf _ _ _ _ _] Hb. now apply Hf. Qed.

Lemma derived_ok_copied n0 u nc h m h1 :
  n0 <= length h -> derived_ok n0 u h -> copied nc h m h1 ->
  derived_ok n0 u h1.
Proof.
  intros Hn Hok Hcopied b o Hb Ho.
  destruct (Nat.lt_ge_cases b (length h)) as [Hlt | Hge].
  - rewrite (copied_frame _ _ _ _ _ Hcopied Hlt) in Ho.
    exact (Hok b o Hb Ho).
  - pose proof (copied_within _ _ _ _ _ _ Hcopied Hge Ho) as Hw.
    eapply Forall_impl; [exact Hw |].
    intros v Hv. left.
    exact (val_within_from n0 (length h) (length h1) v Hn Hv).
Qed.

Lemma derived_ok_insert_app n0 u h a o l :
  derived_ok n0 u h ->
  Forall (fun v => val_from n0 v \/ v = u) (children o) ->
  Forall (fun o' => Forall (fun v => val_from n0 v \/ v = u) (children o')) l ->
  derived_ok n0 u (<[a := o]> h ++ l).
Proof.
  intros Hok Ho Hl b ob Hb Hlook.
  apply lookup_app_Some in Hlook as [Hlook | [_ Hlook]].
  - destruct (Nat.eq_dec a b) as [-> | Hne].
    + pose proof (lookup_lt_Some _ _ _ Hlook) as Hlt.
      rewrite length_insert in Hlt.
      rewrite list_lookup_insert_eq in Hlook by exact Hlt.
      now inversion Hlook; subst.
    + rewrite list_lookup_insert_ne in Hlook by exact Hne.
      exact (Hok b ob Hb Hlook).
  - rewrite Forall_forall in Hl. apply Hl.
    eapply list_elem_of_lookup_2; eassumption.
Qed.

Lemma Forall_children_assoc_set (P : val -> Prop) items k x :
  Forall P (map snd items) -> P x ->
  Forall P (map snd (assoc_set items k x)).
Proof.
  intros Hitems Hx. induction items as [|[k0 y] items IH]; simpl in *.
  - constructor; [exact Hx | constructor].
  - inversion Hitems; subst. destruct (String.eqb k0 k); simpl.
    + constructor; assumption.
    + constructor; [assumption | now apply IH].
Qed.

Lemma field_objects_ok n0 u n :
  n0 <= n ->
  Forall (fun o => Forall (fun v => val_from n0 v \/ v = u) (children o))
    (field_objects u n).
Proof.
  intros Hn. unfold field_objects.
  repeat (constructor;
          [simpl;
           repeat (constructor;
                   [first [right; reflexivity | left; simpl; lia
                          | left; exact I] |]);
           constructor |]).
  constructor.
Qed.

Lemma derived_ok_fields n0 u h x x' h1 h2 path :
  closed_below n0 h -> val_below n0 x -> derived_ok n0 u h ->
  Forall (fun k => ~ is_new_field k) path ->
  copy_deepcopy x h = Some (x', h1) ->
  add_fields x' path u h1 = Some h2 ->
  derived_ok n0 u h2 /\ extends_heap h h2 /\
  val_within (length h) (length h1) x' /\ length h1 <= length h2.
Proof.
  intros Hc Hx Hok Hpath Hcopy Hadd. pose proof Hc as [Hn _].
  destruct (derive_fields_shape _ _ _ _ _ _ _ _ Hc Hx Hpath Hcopy Hadd)
    as (m & a & items & Hcopied & -> & Hin & Ha & Hp & Ho & Hh2).
  pose proof (derived_ok_copied n0 u n0 h m h1 Hn Hok Hcopied) as Hok1.
  pose proof (copied_extends _ _ _ _ Hcopied) as He.
  pose proof (extends_heap_length _ _ He) as Hlen.
  assert (Hitems : Forall (fun v => val_from n0 v \/ v = u) (map snd items)).
  { apply (Hok1 a (ODict items)); [lia | exact Ho]. }
  split; [| split; [| split]].
  - rewrite Hh2. apply derived_ok_insert_app; [exact Hok1 | |].
    + unfold new_items. simpl.
      apply Forall_children_assoc_set; [| left; simpl; lia].
      apply Forall_children_assoc_set; [| left; simpl; lia].
      apply Forall_children_assoc_set; [exact Hitems | now right].
    + apply field_objects_ok. lia.
  - rewrite Hh2. apply insert_fresh_extends; [exact He | lia].
  - eapply copied_root_within; eassumption.
  - rewrite Hh2, length_app, length_insert. lia.
Qed.

Lemma derived_ok_item n0 u h x x' h1 h2 path key c :
  closed_below n0 h -> val_below n0 x -> derived_ok n0 u h ->
  val_from n0 c ->
  copy_deepcopy x h = Some (x', h1) ->
  assign x' path key c h1 = Some h2 ->
  derived_ok n0 u h2 /\ extends_heap h h2 /\
  val_within (length h) (length h1) x' /\ length h1 <= length h2.
Proof.
  intros Hc Hx Hok Hcv Hcopy Hassign. pose proof Hc as [Hn _].
  destruct (derive_item_shape _ _ _ _ _ _ _ _ _ Hc Hx Hcopy Hassign)
    as (m & a & items & Hcopied & -> & Hin & Ha & Hp & Ho & Hh2).
  pose proof (derived_ok_copied n0 u n0 h m h1 Hn Hok Hcopied) as Hok1.
  pose proof (copied_extends _ _ _ _ Hcopied) as He.
  pose proof (extends_heap_length _ _ He) as Hlen.
  assert (Hitems : Forall (fun v => val_from n0 v \/ v = u) (map snd items)).
  { apply (Hok1 a (ODict items)); [lia | exact Ho]. }
  rewrite <- (app_nil_r h2), Hh2.
  split; [| split; [| split]].
  - apply derived_ok_insert_app; [exact Hok1 | | constructor].
    simpl. apply Forall_children_assoc_set; auto.
  - apply insert_fresh_extends; [exact He | lia].
  - eapply copied_root_within; eassumption.
  - rewrite length_app, length_insert. simpl. lia.
Qed.

Lemma derived_ok_plain n0 u h x x' h1 :
  closed_below n0 h -> val_below n0 x -> derived_ok n0 u h ->
  copy_deepcopy x h = Some (x', h1) ->
  derived_ok n0 u h1 /\ extends_heap h h1 /\
  val_within (length h) (length h1) x'.
Proof.
  intros Hc Hx Hok Hcopy. pose proof Hc as [Hn _].
  destruct (copy_deepcopy_spec n0 h x Hc Hx)
    as (x'' & h1' & m & Hcopy' & Hcopied & Hx' & Hin).
  rewrite Hcopy in Hcopy'. injection Hcopy' as E1 E2.
  rewrite <- E1 in *. rewrite <- E2 in *. clear E1 E2 x'' h1'.
  split; [eapply derived_ok_copied; eassumption |].
  split; [eapply copied_extends; eassumption |].
  rewrite Hx'. eapply copied_root_within; eassumption.
Qed.

(** What the whole module leaves. *)
Lemma v3_57_derived_ok base u h0 d hF :
  closed_below (length h0) h0 ->
  Forall (val_below (length h0)) (roots_of base) ->
  v3_57 base u h0 = Some (d, hF) ->
  derived_ok (length h0) u hF /\ extends_heap h0 hF /\
  Forall (val_from (length h0)) (roots_of d).
Proof.
  intros Hc0 Hroots Hrun. set (n0 := length h0) in *.
  destruct (v3_57_inv _ _ _ _ _ Hrun)
    as (create & h1 & h2 & common & h3 & h4 & show & h5 & h6 & no_detail
        & h7 & with_detail & h8 & h9 & delete & h10 & accept
        & C1 & F1 & C2 & F2 & C3 & A3 & C4 & C5 & A5 & C6 & C7 & ->).
  unfold roots_of in *. simpl in *.
  inversion Hroots as [|? ? B1 R1]; subst. inversion R1 as [|? ? B2 R2]; subst.
  inversion R2 as [|? ? B3 R3]; subst. inversion R3 as [|? ? B4 R4]; subst.
  inversion R4 as [|? ? B5 R5]; subst. inversion R5 as [|? ? B6 R6]; subst.
  inversion R6 as [|? ? B7 _]; subst.
  assert (Hok0 : derived_ok n0 u h0).
  { intros b o Hb Ho. apply lookup_lt_Some in Ho. unfold n0 in Hb. lia. }
  destruct (derived_ok_fields n0 u h0 _ _ _ _ _ Hc0 B1 Hok0
              transfer_properties_old C1 F1) as (Hok2 & E02 & W1 & _).
  assert (Hc2 : closed_below n0 h2) by (eapply closed_below_extends; eassumption).
  destruct (derived_ok_fields n0 u h2 _ _ _ _ _ Hc2 B2 Hok2
              properties_old C2 F2) as (Hok4 & E24 & W2 & _).
  assert (L2 : n0 <= length h2) by apply Hc2.
  assert (Hc4 : closed_below n0 h4) by (eapply closed_below_extends; eassumption).
  assert (Vcommon : val_from n0 common)
    by exact (val_within_from _ _ _ _ L2 W2).
  destruct (derived_ok_item n0 u h4 _ _ _ _ _ _ _ Hc4 B3 Hok4 Vcommon C3 A3)
    as (Hok6 & E46 & W3 & _).
  assert (L4 : n0 <= length h4) by apply Hc4.
  assert (Hc6 : closed_below n0 h6) by (eapply closed_below_extends; eassumption).
  destruct (derived_ok_plain n0 u h6 _ _ _ Hc6 B4 Hok6 C4)
    as (Hok7 & E67 & W4).
  assert (L6 : n0 <= length h6) by apply Hc6.
  assert (Hc7 : closed_below n0 h7) by (eapply closed_below_extends; eassumption).
  destruct (derived_ok_item n0 u h7 _ _ _ _ _ _ _ Hc7 B5 Hok7 Vcommon C5 A5)
    as (Hok9 & E79 & W5 & _).
  assert (L7 : n0 <= length h7) by apply Hc7.
  assert (Hc9 : closed_below n0 h9) by (eapply closed_below_extends; eassumption).
  destruct (derived_ok_plain n0 u h9 _ _ _ Hc9 B6 Hok9 C6)
    as (Hoka & E9a & W6).
  assert (L9 : n0 <= length h9) by apply Hc9.
  assert (Hca : closed_below n0 h10) by (eapply closed_below_extends; eassumption).
  destruct (derived_ok_plain n0 u h10 _ _ _ Hca B7 Hoka C7)
    as (HokF & EaF & W7).
  assert (La : n0 <= length h10) by apply Hca.
  split; [exact HokF |]. split.
  - repeat (eapply extends_heap_trans; [eassumption |]).
    apply extends_heap_refl.
  - assert (L0 : n0 <= length h0) by (unfold n0; lia).
    constructor; [exact (val_within_from _ _ _ _ L0 W1) |].
    constructor; [exact Vcommon |].
    constructor; [exact (val_within_from _ _ _ _ L4 W3) |].
    constructor; [exact (val_within_from _ _ _ _ L6 W4) |].
    constructor; [exact (val_within_from _ _ _ _ L7 W5) |].
    constructor; [exact (val_within_from _ _ _ _ L9 W6) |].
    constructor; [exact (val_within_from _ _ _ _ La W7) |].
    constructor.
Qed.

Lemma reach_below n0 h roots a :
  closed_below n0 h -> Forall (val_below n0) roots ->
  reach h roots a -> a < n0.
Proof.
  intros [_ Hc] Hroots Hr. induction Hr as [a Ha | a o b _ IH Ho Hb].
  - rewrite Forall_forall in Hroots.
    apply (Hroots (VRef a)). now apply list_elem_of_In.
  - pose proof (Hc a o IH Ho) as Hch. rewrite Forall_forall in Hch.
    apply (Hch (VRef b)). now apply list_elem_of_In.
Qed.

Lemma extends_heap_agree h h' b o :
  extends_heap h h' -> b < length h -> h' !! b = Some o -> h !! b = Some o.
Proof.
  intros He Hb Ho. destruct (lookup_lt_is_Some_2 h b Hb) as [o0 Ho0].
  pose proof (He _ _ Ho0) as Ho'. congruence.
Qed.

(** What is reachable in the later heap from roots of the earlier,
    closed, heap was reachable there already. *)
Lemma reach_old h h' roots a :
  closed_below (length h) h -> Forall (val_below (length h)) roots ->
  extends_heap h h' ->
  reach h' roots a -> reach h roots a.
Proof.
  intros Hc Hroots He Hr. induction Hr as [a Ha | a o b _ IH Ho Hb].
  - now apply reach_root.
  - apply (reach_step h roots a o b IH); [| exact Hb].
    apply (extends_heap_agree h h' a o He); [| exact Ho].
    eapply reach_below; eassumption.
Qed.

Lemma addrs_reach n h roots :
  forall v a, In v roots \/ (exists r o, reach h roots r /\ h !! r = Some o
                                        /\ In v (children o)) ->
              In a (addrs n h v) -> reach h roots a.
Proof.
  induction n as [|n IH]; intros v a Hv Ha.
  - destruct v; simpl in Ha; contradiction.
  - destruct v as [| | | |r]; simpl in Ha; try contradiction.
    assert (Hr : reach h roots r).
    { destruct Hv as [Hv | (r0 & o & Hr0 & Ho & Hin)].
      - now apply reach_root.
      - eapply reach_step; eassumption. }
    destruct Ha as [<- | Ha]; [exact Hr |].
    destruct (h !! r) as [o|] eqn:Ho; [| contradiction].
    apply in_flat_map in Ha as (c & Hc & Hac).
    apply (IH c a); [| exact Hac]. right. eauto.
Qed.

(** C3.  In a heap without dangling references, where no object of
    the 3.55 schemas is part of [uuid_or_null], a successful import of
    the module leaves every object of the heap it started in as it
    was, and no object of a 3.57 schema is an object of a 3.55
    schema: overwriting any object of a 3.57 schema changes no object
    of a 3.55 schema, nor the tree a 3.55 schema unfolds to. *)
Theorem derived_schemas_share_nothing_with_base
    (base : transfers) (uuid_or_null : val) (h0 hF : heap) (d : transfers) :
  closed_below (length h0) h0 ->
  Forall (val_below (length h0)) (roots_of base) ->
  val_below (length h0) uuid_or_null ->
  (forall a, reach h0 (roots_of base) a -> ~ reach h0 [uuid_or_null] a) ->
  v3_57 base uuid_or_null h0 = Some (d, hF) ->
  extends_heap h0 hF /\
  (forall a, reach hF (roots_of d) a -> ~ reach hF (roots_of base) a) /\
  (forall a o, reach hF (roots_of d) a ->
     (forall b, reach hF (roots_of base) b ->
                (<[a := o]> hF) !! b = hF !! b) /\
     (forall x t, In x (roots_of base) -> denotes hF x t ->
                  denotes (<[a := o]> hF) x t)).
Proof.
  intros Hc0 Hroots Hu Hsep Hrun. set (n0 := length h0) in *.
  destruct (v3_57_derived_ok _ _ _ _ _ Hc0 Hroots Hrun)
    as (Hok & He & Hd).
  fold n0 in Hok, Hd.
  assert (Hbase : forall b, reach hF (roots_of base) b ->
                            reach h0 (roots_of base) b).
  { intros b. now apply reach_old. }
  assert (Hderived : forall a, reach hF (roots_of d) a ->
                               n0 <= a \/ reach h0 [uuid_or_null] a).
  { intros a Hr. induction Hr as [a Ha | a o b _ IH Ho Hb].
    - left. rewrite Forall_forall in Hd.
      apply (Hd (VRef a)). now apply list_elem_of_In.
    - destruct (Nat.lt_ge_cases a n0) as [Hlt | Hge].
      + right. destruct IH as [IH | IH]; [lia |].
        apply (reach_step h0 _ a o b IH); [| exact Hb].
        now apply (extends_heap_agree h0 hF a o He).
      + pose proof (Hok a o Hge Ho) as Hch. rewrite Forall_forall in Hch.
        destruct (Hch (VRef b)) as [Hb' | Hb'];
          [now apply list_elem_of_In | now left |].
        right. apply reach_root. rewrite <- Hb'. now left. }
  assert (Hdisj : forall a, reach hF (roots_of d) a ->
                            ~ reach hF (roots_of base) a).
  { intros a Hda Hba. apply Hbase in Hba.
    pose proof (reach_below _ _ _ _ Hc0 Hroots Hba) as Hlt.
    destruct (Hderived a Hda) as [Hge | Hua]; [unfold n0 in Hge; lia |].
    exact (Hsep a Hba Hua). }
  split; [exact He |]. split; [exact Hdisj |].
  intros a o Hda. split.
  - intros b Hb. apply list_lookup_insert_ne. intros ->.
    exact (Hdisj b Hda Hb).
  - intros x t Hx [n Hn]. exists n. apply denote_insert_other; [| exact Hn].
    intros Hin. apply (Hdisj a Hda).
    apply (addrs_reach n hF (roots_of base) x a); [now left | exact Hin].
Qed.

(** ** The object shared by the show schema and the detailed list *)

Lemma path_get_app path more h :
  forall root,
    path_get root (path ++ more) h
    = match path_get root path h with
      | Some v => path_get v more h
      | None => None
      end.
Proof.
  induction path as [|k rest IH]; intros root; simpl; [reflexivity |].
  destruct (getitem root k h); [apply IH | reflexivity].
Qed.

(** A path that stays within a range of addresses reads the same
    after an object outside the range is overwritten. *)
Lemma path_get_insert_outside lo hi h c o (K : string -> Prop) path :
  (forall b items k v,
      lo <= b < hi -> h !! b = Some (ODict items) -> K k ->
      assoc_get items k = Some v -> val_within lo hi v) ->
  ~ (lo <= c < hi) -> Forall K path ->
  forall root v,
    val_within lo hi root -> path_get root path h = Some v ->
    path_get root path (<[c := o]> h) = Some v.
Proof.
  intros Hclosed Hc Hpath.
  induction Hpath as [|k rest Hk _ IH]; intros root v Hroot Hp;
    simpl in *; [exact Hp |].
  destruct (getitem root k h) as [w|] eqn:Eg; [| discriminate].
  destruct (getitem_inv _ _ _ _ Eg) as (r & items & -> & Ho & Hw).
  simpl in Hroot. simpl.
  rewrite list_lookup_insert_ne by (intros ->; now apply Hc).
  rewrite Ho, Hw. apply IH; [| exact Hp].
  eapply Hclosed; eassumption.
Qed.

Lemma path_get_new_items h a items u s b path :
  h !! a = Some (ODict items) ->
  Forall (fun k => ~ is_new_field k) path ->
  forall root,
    path_get root path (<[a := ODict (new_items items u s b)]> h)
    = path_get root path h.
Proof.
  intros Ho Hpath root.
  pose proof (lookup_lt_Some _ _ _ Ho) as Ha.
  assert (Hne : forall key, is_new_field key ->
                            Forall (fun k => k <> key) path).
  { intros key Hkey. eapply Forall_impl; [exact Hpath |].
    intros k Hk ->. now apply Hk. }
  set (i1 := assoc_set items "destination_project_id" u).
  set (i2 := assoc_set i1 "source_project_id" s).
  assert (H1 : (<[a := ODict i1]> h) !! a = Some (ODict i1))
    by now apply list_lookup_insert_eq.
  assert (H2 : (<[a := ODict i2]> h) !! a = Some (ODict i2))
    by now apply list_lookup_insert_eq.
  unfold new_items. fold i1. fold i2.
  rewrite <- (list_insert_insert_eq h a (ODict (assoc_set i2 "accepted" b))
                (ODict i2)).
  rewrite (path_get_set_other _ _ _ _ _ _ H2)
    by (apply Hne; right; right; reflexivity).
  unfold i2.
  rewrite <- (list_insert_insert_eq h a
                (ODict (assoc_set i1 "source_project_id" s)) (ODict i1)).
  rewrite (path_get_set_other _ _ _ _ _ _ H1)
    by (apply Hne; right; left; reflexivity).
  unfold i1.
  rewrite (path_get_set_other _ _ _ _ _ _ Ho)
    by (apply Hne; left; reflexivity).
  reflexivity.
Qed.

(** After the three [update]s, the dictionary at [path] holds the
    three fields. *)
Lemma derive_fields_present n0 h x x' h1 h2 path u :
  closed_below n0 h -> val_below n0 x ->
  Forall (fun k => ~ is_new_field k) path ->
  copy_deepcopy x h = Some (x', h1) ->
  add_fields x' path u h1 = Some h2 ->
  extends_heap h h2 /\
  val_within (length h) (length h1) x' /\ length h1 <= length h2 /\
  exists a s b,
    path_get x' path h2 = Some (VRef a) /\
    getitem (VRef a) "destination_project_id" h2 = Some u /\
    getitem (VRef a) "source_project_id" h2 = Some s /\
    denotes h2 s uuid_string /\
    getitem (VRef a) "accepted" h2 = Some b /\
    denotes h2 b boolean.
Proof.
  intros Hc Hx Hpath Hcopy Hadd.
  destruct (derive_fields_shape _ _ _ _ _ _ _ _ Hc Hx Hpath Hcopy Hadd)
    as (m & a & items & Hcopied & -> & Hin & Ha & Hp & Ho & Hh2).
  pose proof (copied_extends _ _ _ _ Hcopied) as He.
  set (L := length h1) in *.
  set (items' := new_items items u (VRef (S L)) (VRef (S (S (S L))))) in *.
  assert (Hlen : length (<[a := ODict items']> h1) = L)
    by now rewrite length_insert.
  assert (Hlook : h2 !! a = Some (ODict items')).
  { rewrite Hh2, lookup_app_l by lia. apply list_lookup_insert_eq. lia. }
  assert (Hlit : forall i o, field_objects u L !! i = Some o ->
                             h2 !! (L + i) = Some o).
  { intros i o Hi. rewrite Hh2, lookup_app_r by lia.
    now rewrite Hlen, Nat.add_comm, Nat.add_sub. }
  split; [rewrite Hh2; apply insert_fresh_extends; [exact He | lia] |].
  split; [eapply copied_root_within; eassumption |].
  split; [rewrite Hh2, length_app, Hlen; lia |].
  exists a, (VRef (S L)), (VRef (S (S (S L)))).
  split; [| split; [| split; [| split; [| split]]]].
  - rewrite Hh2.
    apply (path_get_extends (<[a := ODict items']> h1));
      [apply extends_heap_app |].
    unfold items'. now rewrite path_get_new_items.
  - simpl. rewrite Hlook. unfold items', new_items.
    rewrite !assoc_get_set_ne by discriminate. apply assoc_get_set_eq.
  - simpl. rewrite Hlook. unfold items', new_items.
    rewrite assoc_get_set_ne by discriminate. apply assoc_get_set_eq.
  - exists 1. simpl. replace (S L) with (L + 1) by lia.
    now rewrite (Hlit 1 _ eq_refl).
  - simpl. rewrite Hlook. unfold items', new_items. apply assoc_get_set_eq.
  - exists 1. simpl. replace (S (S (S L))) with (L + 3) by lia.
    now rewrite (Hlit 3 _ eq_refl).
Qed.

(** After [x'[path][key] = c], the path [path ++ [key]] leads to [c],
    and still does when an object that is not part of the copy is
    overwritten later. *)
Lemma derive_item_alias n0 h x x' h1 h2 path key c hF :
  closed_below n0 h -> val_below n0 x ->
  Forall (fun k => k <> key) path ->
  copy_deepcopy x h = Some (x', h1) ->
  assign x' path key c h1 = Some h2 ->
  extends_heap h2 hF ->
  extends_heap h h2 /\ length h1 <= length h2 /\
  path_get x' (path ++ [key]) hF = Some c /\
  forall cc o, ~ (length h <= cc < length h1) ->
               path_get x' (path ++ [key]) (<[cc := o]> hF) = Some c.
Proof.
  intros Hc Hx Hpath Hcopy Hassign HeF.
  destruct (derive_item_shape _ _ _ _ _ _ _ _ _ Hc Hx Hcopy Hassign)
    as (m & a & items & Hcopied & -> & Hin & Ha & Hp & Ho & Hh2).
  pose proof (copied_extends _ _ _ _ Hcopied) as He.
  assert (Hlen2 : length h2 = length h1) by now rewrite Hh2, length_insert.
  assert (Hlook : h2 !! a = Some (ODict (assoc_set items key c))).
  { rewrite Hh2. apply list_lookup_insert_eq. lia. }
  assert (Hp2 : path_get (rename m x) path h2 = Some (VRef a)).
  { now rewrite Hh2, path_get_set_other. }
  assert (Hroot : val_within (length h) (length h1) (rename m x))
    by (eapply copied_root_within; eassumption).
  assert (Hclosed : forall b its k v,
             length h <= b < length h1 -> hF !! b = Some (ODict its) ->
             k <> key -> assoc_get its k = Some v ->
             val_within (length h) (length h1) v).
  { intros b its k v Hb Hlk Hk Hv.
    apply (extends_heap_agree h2 hF b _ HeF) in Hlk; [| lia].
    assert (Hold : exists its0, h1 !! b = Some (ODict its0) /\
                                assoc_get its0 k = Some v).
    { destruct (Nat.eq_dec b a) as [-> | Hne].
      - rewrite Hlook in Hlk. inversion Hlk; subst its.
        rewrite assoc_get_set_ne in Hv by congruence. eauto.
      - rewrite Hh2, list_lookup_insert_ne in Hlk by congruence. eauto. }
    destruct Hold as (its0 & Hl0 & Hv0).
    pose proof (copied_within _ _ _ _ _ _ Hcopied (proj1 Hb) Hl0) as Hw.
    rewrite Forall_forall in Hw. apply Hw, list_elem_of_In. simpl.
    eapply assoc_get_In; eassumption. }
  assert (HpF : path_get (rename m x) path hF = Some (VRef a))
    by (eapply path_get_extends; eassumption).
  assert (HgF : hF !! a = Some (ODict (assoc_set items key c)))
    by now apply HeF.
  split; [rewrite Hh2, <- (app_nil_r (<[a := _]> h1));
          apply insert_fresh_extends; [exact He | lia] |].
  split; [lia |]. split.
  - rewrite path_get_app, HpF. simpl. rewrite HgF.
    now rewrite assoc_get_set_eq.
  - intros cc o Hcc. rewrite path_get_app.
    rewrite (path_get_insert_outside (length h) (length h1) hF cc o
               (fun k => k <> key) path Hclosed Hcc Hpath _ _ Hroot HpF).
    simpl. rewrite list_lookup_insert_ne by (intros ->; now apply Hcc).
    rewrite HgF. now rewrite assoc_get_set_eq.
Qed.

Lemma copy_deepcopy_extends n0 h x x' h1 :
  closed_below n0 h -> val_below n0 x ->
  copy_deepcopy x h = Some (x', h1) -> extends_heap h h1.
Proof.
  intros Hc Hx Hcopy.
  destruct (copy_deepcopy_spec n0 h x Hc Hx)
    as (x'' & h1' & m & Hcopy' & Hcopied & _).
  rewrite Hcopy in Hcopy'. injection Hcopy' as _ <-.
  eapply copied_extends; eassumption.
Qed.

(** C9.  After a successful import, [common_show_volume_transfer] is
    an object; the ['transfer'] of the show schema and the ['items'] of
    the detailed list are that very object; its properties hold the
    three fields added at 3.57; and whatever that object is overwritten
    with later, what is read below ['transfer'] of the show schema and
    below ['items'] of the detailed list is what is read from that
    object. *)
Theorem show_and_detailed_list_share_common_show
    (base : transfers) (uuid_or_null : val) (h0 hF : heap) (d : transfers) :
  closed_below (length h0) h0 ->
  Forall (val_below (length h0)) (roots_of base) ->
  v3_57 base uuid_or_null h0 = Some (d, hF) ->
  exists c,
    common_show_volume_transfer d = VRef c /\
    path_get (show_volume_transfer d)
      ["response_body"; "properties"; "transfer"] hF = Some (VRef c) /\
    path_get (list_volume_transfers_with_detail d)
      ["response_body"; "properties"; "transfers"; "items"] hF
    = Some (VRef c) /\
    (exists p s b,
        path_get (VRef c) ["properties"] hF = Some (VRef p) /\
        getitem (VRef p) "destination_project_id" hF = Some uuid_or_null /\
        getitem (VRef p) "source_project_id" hF = Some s /\
        denotes hF s uuid_string /\
        getitem (VRef p) "accepted" hF = Some b /\
        denotes hF b boolean) /\
    (forall o q,
        path_get (show_volume_transfer d)
          (["response_body"; "properties"; "transfer"] ++ q)
          (<[c := o]> hF)
        = path_get (VRef c) q (<[c := o]> hF) /\
        path_get (list_volume_transfers_with_detail d)
          (["response_body"; "properties"; "transfers"; "items"] ++ q)
          (<[c := o]> hF)
        = path_get (VRef c) q (<[c := o]> hF)).
Proof.
  intros Hc0 Hroots Hrun. set (n0 := length h0) in *.
  destruct (v3_57_inv _ _ _ _ _ Hrun)
    as (create & h1 & h2 & common & h3 & h4 & show & h5 & h6 & no_detail
        & h7 & with_detail & h8 & h9 & delete & h10 & accept
        & C1 & F1 & C2 & F2 & C3 & A3 & C4 & C5 & A5 & C6 & C7 & ->).
  unfold roots_of in Hroots.
  cbn [common_show_volume_transfer show_volume_transfer
       list_volume_transfers_with_detail].
  inversion Hroots as [|? ? B1 R1]; subst. inversion R1 as [|? ? B2 R2]; subst.
  inversion R2 as [|? ? B3 R3]; subst. inversion R3 as [|? ? B4 R4]; subst.
  inversion R4 as [|? ? B5 R5]; subst. inversion R5 as [|? ? B6 R6]; subst.
  inversion R6 as [|? ? B7 _]; subst.
  destruct (derive_fields_present n0 h0 _ _ _ _ _ _ Hc0 B1
              transfer_properties_old C1 F1) as (E02 & _).
  assert (Hc2 : closed_below n0 h2) by (eapply closed_below_extends; eassumption).
  destruct (derive_fields_present n0 h2 _ _ _ _ _ _ Hc2 B2
              properties_old C2 F2)
    as (E24 & W2 & L34 & p & s & b & Pp & Gu & Gs & Ds & Gb & Db).
  assert (Hc4 : closed_below n0 h4) by (eapply closed_below_extends; eassumption).
  assert (Kshow : Forall (fun k => k <> "transfer")
                    ["response_body"; "properties"])
    by (repeat constructor; discriminate).
  assert (Klist : Forall (fun k => k <> "items")
                    ["response_body"; "properties"; "transfers"])
    by (repeat constructor; discriminate).
  destruct (derive_item_alias n0 h4 _ _ _ _ _ _ _ h6 Hc4 B3 Kshow C3 A3
              (extends_heap_refl h6)) as (E46 & L56 & _).
  assert (Hc6 : closed_below n0 h6) by (eapply closed_below_extends; eassumption).
  pose proof (copy_deepcopy_extends _ _ _ _ _ Hc6 B4 C4) as E67.
  assert (Hc7 : closed_below n0 h7) by (eapply closed_below_extends; eassumption).
  destruct (derive_item_alias n0 h7 _ _ _ _ _ _ _ h9 Hc7 B5 Klist C5 A5
              (extends_heap_refl h9)) as (E79 & L89 & _).
  assert (Hc9 : closed_below n0 h9) by (eapply closed_below_extends; eassumption).
  pose proof (copy_deepcopy_extends _ _ _ _ _ Hc9 B6 C6) as E9a.
  assert (Hca : closed_below n0 h10) by (eapply closed_below_extends; eassumption).
  pose proof (copy_deepcopy_extends _ _ _ _ _ Hca B7 C7) as EaF.
  assert (E9F : extends_heap h9 hF) by (eapply extends_heap_trans; eassumption).
  assert (E6F : extends_heap h6 hF).
  { eapply extends_heap_trans; [exact E67 |].
    eapply extends_heap_trans; eassumption. }
  assert (E4F : extends_heap h4 hF) by (eapply extends_heap_trans; eassumption).
  destruct (derive_item_alias n0 h4 _ _ _ _ _ _ _ hF Hc4 B3 Kshow C3 A3 E6F)
    as (_ & _ & Sshow & Sshow').
  destruct (derive_item_alias n0 h7 _ _ _ _ _ _ _ hF Hc7 B5 Klist C5 A5 E9F)
    as (_ & _ & Slist & Slist').
  simpl app in Sshow, Slist, Sshow', Slist'.
  (* the common show schema is an object *)
  assert (Hcommon : exists c, common = VRef c).
  { pose proof Pp as Pp'. simpl in Pp'.
    destruct (getitem common "properties" h4) as [w|] eqn:Eg;
      [| discriminate].
    destruct (getitem_inv _ _ _ _ Eg) as (c & _ & -> & _). eauto. }
  destruct Hcommon as [c ->]. simpl in W2.
  pose proof (extends_heap_length _ _ E46) as L46.
  pose proof (extends_heap_length _ _ E67) as L67.
  exists c. split; [reflexivity |].
  split; [exact Sshow |]. split; [exact Slist |]. split.
  - exists p, s, b.
    split; [eapply path_get_extends; eassumption |].
    split; [eapply getitem_extends; eassumption |].
    split; [eapply getitem_extends; eassumption |].
    split; [eapply denotes_extends; eassumption |].
    split; [eapply getitem_extends; eassumption |].
    eapply denotes_extends; eassumption.
  - intros o q. split.
    + rewrite path_get_app.
      rewrite (Sshow' c o) by lia. reflexivity.
    + rewrite path_get_app.
      rewrite (Slist' c o) by lia. reflexivity.
Qed.

(** ** The sample module *)

(** Decision procedures for the side conditions on a concrete heap. *)
Definition val_belowb (n : nat) (v : val) : bool :=
  match v with
  | VRef a => Nat.ltb a n
  | _ => true
  end.

Definition val_fromb (n : nat) (v : val) : bool :=
  match v with
  | VRef a => Nat.leb n a
  | _ => true
  end.

Definition closed_belowb (n : nat) (h : heap) : bool :=
  Nat.leb n (length h)
  && forallb (fun o => forallb (val_belowb n) (children o)) (take n h).

Definition closed_fromb (n : nat) (h : heap) : bool :=
  forallb (fun o => forallb (val_fromb n) (children o)) (drop n h).

Lemma val_belowb_ok n vs :
  forallb (val_belowb n) vs = true -> Forall (val_below n) vs.
Proof.
  induction vs as [|v vs IH]; simpl; intros H; constructor.
  - apply andb_true_iff in H as [H _]. destruct v; simpl in *; auto.
    now apply Nat.ltb_lt.
  - apply IH. now apply andb_true_iff in H as [_ H].
Qed.

Lemma val_fromb_ok n vs :
  forallb (val_fromb n) vs = true -> Forall (val_from n) vs.
Proof.
  induction vs as [|v vs IH]; simpl; intros H; constructor.
  - apply andb_true_iff in H as [H _]. destruct v; simpl in *; auto.
    now apply Nat.leb_le.
  - apply IH. now apply andb_true_iff in H as [_ H].
Qed.

Lemma closed_belowb_ok n h : closed_belowb n h = true -> closed_below n h.
Proof.
  unfold closed_belowb. intros H. apply andb_true_iff in H as [Hlen Hall].
  split; [now apply Nat.leb_le |].
  intros b o Hb Ho. apply val_belowb_ok.
  rewrite forallb_forall in Hall. apply Hall.
  apply list_elem_of_In. apply (list_elem_of_lookup_2 _ b).
  now rewrite lookup_take_lt.
Qed.

Lemma reach_from n0 h roots a :
  closed_fromb n0 h = true -> forallb (val_fromb n0) roots = true ->
  reach h roots a -> n0 <= a.
Proof.
  unfold closed_fromb. intros Hall Hroots Hr.
  apply val_fromb_ok in Hroots. rewrite forallb_forall in Hall.
  induction Hr as [a Ha | a o b _ IH Ho Hb].
  - rewrite Forall_forall in Hroots.
    apply (Hroots (VRef a)). now apply list_elem_of_In.
  - assert (Hin : In o (drop n0 h)).
    { apply list_elem_of_In. apply (list_elem_of_lookup_2 _ (a - n0)).
      rewrite lookup_drop. now replace (n0 + (a - n0)) with a by lia. }
    pose proof (val_fromb_ok _ _ (Hall o Hin)) as Hch.
    rewrite Forall_forall in Hch.
    apply (Hch (VRef b)). now apply list_elem_of_In.
Qed.

(** In the sample heap [uuid_or_null] occupies the first two objects
    and the 3.55 schemas the rest. *)
Lemma sample_base_apart a :
  reach sample_heap (roots_of sample_base) a ->
  ~ reach sample_heap [sample_uuid] a.
Proof.
  intros Hb Hu.
  assert (2 <= a).
  { apply (reach_from 2 sample_heap (roots_of sample_base));
      [vm_compute; reflexivity | vm_compute; reflexivity | exact Hb]. }
  assert (a < 2).
  { apply (reach_below 2 sample_heap [sample_uuid]);
      [apply closed_belowb_ok; vm_compute; reflexivity
      | apply val_belowb_ok; vm_compute; reflexivity | exact Hu]. }
  lia.
Qed.

Lemma sample_tree_shaped v t :
  denote 12 sample_heap v = Some t ->
  bool_decide (NoDup (addrs 12 sample_heap v)) = true ->
  tree_shaped sample_heap v t.
Proof.
  intros Hd Hn. exists 12. split; [exact Hd |].
  now apply bool_decide_eq_true in Hn.
Qed.

Lemma derived_schemas_equal_base_plus_new_fields_witness :
  denotes sample_final (create_volume_transfer sample_derived)
    (with_new_fields (sample_body "transfer" sample_transfer)
       ["response_body"; "properties"; "transfer"; "properties"]
       sample_uuid_or_null) /\
  denotes sample_final (show_volume_transfer sample_derived)
    (with_new_fields (sample_body "transfer" sample_transfer)
       ["response_body"; "properties"; "transfer"; "properties"]
       sample_uuid_or_null) /\
  denotes sample_final (list_volume_transfers_with_detail sample_derived)
    (with_new_fields (sample_list sample_transfer)
       ["response_body"; "properties"; "transfers"; "items"; "properties"]
       sample_uuid_or_null) /\
  denotes sample_final (list_volume_transfers_no_detail sample_derived)
    (sample_list sample_summary) /\
  denotes sample_final (delete_volume_transfer sample_derived)
    sample_delete /\
  denotes sample_final (accept_volume_transfer sample_derived)
    (sample_body "transfer" sample_transfer).
Proof.
  apply (derived_schemas_equal_base_plus_new_fields
           sample_base sample_uuid sample_heap sample_final sample_derived
           (sample_body "transfer" sample_transfer) sample_transfer
           (sample_body "transfer" sample_transfer)
           (sample_list sample_summary) (sample_list sample_transfer)
           sample_delete (sample_body "transfer" sample_transfer)
           sample_uuid_or_null).
  - apply closed_belowb_ok. vm_compute. reflexivity.
  - apply sample_tree_shaped; vm_compute; reflexivity.
  - apply sample_tree_shaped; vm_compute; reflexivity.
  - apply sample_tree_shaped; vm_compute; reflexivity.
  - apply sample_tree_shaped; vm_compute; reflexivity.
  - exists 12. vm_compute. reflexivity.
  - exists 12. vm_compute. reflexivity.
  - exists 12. vm_compute. reflexivity.
  - exists 12. vm_compute. reflexivity.
  - vm_compute. reflexivity.
  - vm_compute. reflexivity.
  - vm_compute. reflexivity.
Defined.

Lemma derived_schemas_share_nothing_with_base_witness :
  extends_heap sample_heap sample_final /\
  (forall a, reach sample_final (roots_of sample_derived) a ->
             ~ reach sample_final (roots_of sample_base) a) /\
  (forall a o, reach sample_final (roots_of sample_derived) a ->
     (forall b, reach sample_final (roots_of sample_base) b ->
                (<[a := o]> sample_final) !! b = sample_final !! b) /\
     (forall x t, In x (roots_of sample_base) -> denotes sample_final x t ->
                  denotes (<[a := o]> sample_final) x t)).
Proof.
  apply (derived_schemas_share_nothing_with_base
           sample_base sample_uuid sample_heap sample_final sample_derived).
  - apply closed_belowb_ok. vm_compute. reflexivity.
  - apply val_belowb_ok. vm_compute. reflexivity.
  - vm_compute. lia.
  - exact sample_base_apart.
  - vm_compute. reflexivity.
Defined.

Lemma show_and_detailed_list_share_common_show_witness :
  exists c,
    common_show_volume_transfer sample_derived = VRef c /\
    path_get (show_volume_transfer sample_derived)
      ["response_body"; "properties"; "transfer"] sample_final
    = Some (VRef c) /\
    path_get (list_volume_transfers_with_detail sample_derived)
      ["response_body"; "properties"; "transfers"; "items"] sample_final
    = Some (VRef c) /\
    (exists p s b,
        path_get (VRef c) ["properties"] sample_final = Some (VRef p) /\
        getitem (VRef p) "destination_project_id" sample_final
        = Some sample_uuid /\
        getitem (VRef p) "source_project_id" sample_final = Some s /\
        denotes sample_final s uuid_string /\
        getitem (VRef p) "accepted" sample_final = Some b /\
        denotes sample_final b boolean) /\
    (forall o q,
        path_get (show_volume_transfer sample_derived)
          (["response_body"; "properties"; "transfer"] ++ q)
          (<[c := o]> sample_final)
        = path_get (VRef c) q (<[c := o]> sample_final) /\
        path_get (list_volume_transfers_with_detail sample_derived)
          (["response_body"; "properties"; "transfers"; "items"] ++ q)
          (<[c := o]> sample_final)
        = path_get (VRef c) q (<[c := o]> sample_final)).
Proof.
  apply (show_and_detailed_list_share_common_show
           sample_base sample_uuid sample_heap sample_final sample_derived).
  - apply closed_belowb_ok. vm_compute. reflexivity.
  - apply val_belowb_ok. vm_compute. reflexivity.
  - vm_compute. reflexivity.
Defined.

(** The run on the sample module: the show schema and the detailed
    list lead to object 76, the derived [common_show_volume_transfer]. *)
Example sample_shared_object :
  common_show_volume_transfer sample_derived = VRef 76 /\
  path_get (show_volume_transfer sample_derived)
    ["response_body"; "properties"; "transfer"] sample_final
  = Some (VRef 76) /\
  path_get (list_volume_transfers_with_detail sample_derived)
    ["response_body"; "properties"; "transfers"; "items"] sample_final
  = Some (VRef 76) /\
  path_get (show_volume_transfer sample_base)
    ["response_body"; "properties"; "transfer"] sample_final
  = Some (VRef 22).
Proof. vm_compute. repeat split. Qed.

(** ** Further properties of the module *)

(** The stages of a successful import: each one leaves the objects of
    the heap it started from as they were. *)
Lemma v3_57_chain base u h0 d hF :
  closed_below (length h0) h0 ->
  Forall (val_below (length h0)) (roots_of base) ->
  v3_57 base u h0 = Some (d, hF) ->
  exists create h1 h2 common h3 h4 show h5 h6 no_detail h7
         with_detail h8 h9,
    d = {| create_volume_transfer := create;
           common_show_volume_transfer := common;
           show_volume_transfer := show;
           list_volume_transfers_no_detail := no_detail;
           list_volume_transfers_with_detail := with_detail;
           delete_volume_transfer := delete_volume_transfer d;
           accept_volume_transfer := accept_volume_transfer d |} /\
    copy_deepcopy (create_volume_transfer base) h0 = Some (create, h1) /\
    add_fields create transfer_properties u h1 = Some h2 /\
    copy_deepcopy (common_show_volume_transfer base) h2
    = Some (common, h3) /\
    add_fields common ["properties"] u h3 = Some h4 /\
    copy_deepcopy (show_volume_transfer base) h4 = Some (show, h5) /\
    assign show ["response_body"; "properties"] "transfer" common h5
    = Some h6 /\
    copy_deepcopy (list_volume_transfers_with_detail base) h7
    = Some (with_detail, h8) /\
    assign with_detail ["response_body"; "properties"; "transfers"]
      "items" common h8 = Some h9 /\
    extends_heap h0 h2 /\ extends_heap h2 h4 /\ extends_heap h4 h6 /\
    extends_heap h6 h7 /\ extends_heap h7 h9 /\ extends_heap h9 hF.
Proof.
  intros Hc0 Hroots Hrun. set (n0 := length h0) in *.
  destruct (v3_57_inv _ _ _ _ _ Hrun)
    as (create & h1 & h2 & common & h3 & h4 & show & h5 & h6 & no_detail
        & h7 & with_detail & h8 & h9 & delete & h10 & accept
        & C1 & F1 & C2 & F2 & C3 & A3 & C4 & C5 & A5 & C6 & C7 & ->).
  unfold roots_of in Hroots.
  inversion Hroots as [|? ? B1 R1]; subst. inversion R1 as [|? ? B2 R2]; subst.
  inversion R2 as [|? ? B3 R3]; subst. inversion R3 as [|? ? B4 R4]; subst.
  inversion R4 as [|? ? B5 R5]; subst. inversion R5 as [|? ? B6 R6]; subst.
  inversion R6 as [|? ? B7 _]; subst.
  destruct (derive_fields_present n0 h0 _ _ _ _ _ _ Hc0 B1
              transfer_properties_old C1 F1) as (E02 & _).
  assert (Hc2 : closed_below n0 h2) by (eapply closed_below_extends; eassumption).
  destruct (derive_fields_present n0 h2 _ _ _ _ _ _ Hc2 B2
              properties_old C2 F2) as (E24 & _).
  assert (Hc4 : closed_below n0 h4) by (eapply closed_below_extends; eassumption).
  assert (Kshow : Forall (fun k => k <> "transfer")
                    ["response_body"; "properties"])
    by (repeat constructor; discriminate).
  assert (Klist : Forall (fun k => k <> "items")
                    ["response_body"; "properties"; "transfers"])
    by (repeat constructor; discriminate).
  destruct (derive_item_alias n0 h4 _ _ _ _ _ _ _ h6 Hc4 B3 Kshow C3 A3
              (extends_heap_refl h6)) as (E46 & _).
  assert (Hc6 : closed_below n0 h6) by (eapply closed_below_extends; eassumption).
  pose proof (copy_deepcopy_extends _ _ _ _ _ Hc6 B4 C4) as E67.
  assert (Hc7 : closed_below n0 h7) by (eapply closed_below_extends; eassumption).
  destruct (derive_item_alias n0 h7 _ _ _ _ _ _ _ h9 Hc7 B5 Klist C5 A5
              (extends_heap_refl h9)) as (E79 & _).
  assert (Hc9 : closed_below n0 h9) by (eapply closed_below_extends; eassumption).
  pose proof (copy_deepcopy_extends _ _ _ _ _ Hc9 B6 C6) as E9a.
  assert (Hca : closed_below n0 h10) by (eapply closed_below_extends; eassumption).
  pose proof (copy_deepcopy_extends _ _ _ _ _ Hca B7 C7) as EaF.
  exists create, h1, h2, common, h3, h4, show, h5, h6, no_detail, h7,
    with_detail, h8, h9.
  split; [reflexivity |].
  repeat (split; [assumption |]).
  eapply extends_heap_trans; eassumption.
Qed.

(** X1.  At 3.57 [common_show_volume_transfer] is the 3.55 one with the
    three fields set in its ['properties']; the show schema is the
    3.55 show schema with ['transfer'] set to it, and the detailed list
    the 3.55 one with ['items'] set to it, whatever the 3.55 schemas
    held under those keys, if anything. *)
Theorem show_and_detailed_list_hold_derived_common
    (base : transfers) (uuid_or_null : val) (h0 hF : heap) (d : transfers)
    (t_common t_show t_with_detail tu : tree) :
  closed_below (length h0) h0 ->
  Forall (val_below (length h0)) (roots_of base) ->
  tree_shaped h0 (common_show_volume_transfer base) t_common ->
  tree_shaped h0 (show_volume_transfer base) t_show ->
  tree_shaped h0 (list_volume_transfers_with_detail base) t_with_detail ->
  denotes h0 uuid_or_null tu ->
  v3_57 base uuid_or_null h0 = Some (d, hF) ->
  denotes hF (common_show_volume_transfer d)
    (with_new_fields t_common ["properties"] tu) /\
  denotes hF (show_volume_transfer d)
    (tree_set t_show ["response_body"; "properties"] "transfer"
       (with_new_fields t_common ["properties"] tu)) /\
  denotes hF (list_volume_transfers_with_detail d)
    (tree_set t_with_detail ["response_body"; "properties"; "transfers"]
       "items" (with_new_fields t_common ["properties"] tu)).
Proof.
  intros Hc0 Hroots Tcommon Tshow Twd Du Hrun. set (n0 := length h0) in *.
  destruct (v3_57_chain _ _ _ _ _ Hc0 Hroots Hrun)
    as (create & h1 & h2 & common & h3 & h4 & show & h5 & h6 & no_detail
        & h7 & with_detail & h8 & h9 & -> & C1 & F1 & C2 & F2 & C3 & A3
        & C5 & A5 & E02 & E24 & E46 & E67 & E79 & E9F).
  cbn [common_show_volume_transfer show_volume_transfer
       list_volume_transfers_with_detail].
  unfold roots_of in Hroots.
  inversion Hroots as [|? ? B1 R1]; subst. inversion R1 as [|? ? B2 R2]; subst.
  inversion R2 as [|? ? B3 R3]; subst. inversion R3 as [|? ? B4 R4]; subst.
  inversion R4 as [|? ? B5 _]; subst. fold n0 in B2, B3, B5.
  assert (Hc2 : closed_below n0 h2) by (eapply closed_below_extends; eassumption).
  destruct (derive_fields_denote n0 h2 _ _ _ _ _ _ _ _ Hc2 B2
              properties_old C2 F2
              (tree_shaped_extends _ _ _ _ E02 Tcommon)
              (denotes_extends _ _ _ _ E02 Du))
    as (_ & Dcommon & _ & _).
  assert (E04 : extends_heap h0 h4) by (eapply extends_heap_trans; eassumption).
  assert (Hc4 : closed_below n0 h4) by (eapply closed_below_extends; eassumption).
  destruct (derive_item_denote n0 h4 _ _ _ _
              ["response_body"; "properties"] "transfer" _ _ _ Hc4 B3
              ltac:(repeat constructor; discriminate) C3 A3
              (tree_shaped_extends _ _ _ _ E04 Tshow) Dcommon)
    as (_ & Dshow & _ & _).
  assert (E47 : extends_heap h4 h7) by (eapply extends_heap_trans; eassumption).
  assert (E07 : extends_heap h0 h7) by (eapply extends_heap_trans; eassumption).
  assert (Hc7 : closed_below n0 h7) by (eapply closed_below_extends; eassumption).
  destruct (derive_item_denote n0 h7 _ _ _ _
              ["response_body"; "properties"; "transfers"] "items" _ _ _
              Hc7 B5 ltac:(repeat constructor; discriminate) C5 A5
              (tree_shaped_extends _ _ _ _ E07 Twd)
              (denotes_extends _ _ _ _ E47 Dcommon))
    as (_ & Dwd & _ & _).
  assert (E7F : extends_heap h7 hF) by (eapply extends_heap_trans; eassumption).
  assert (E6F : extends_heap h6 hF) by (eapply extends_heap_trans; eassumption).
  assert (E4F : extends_heap h4 hF) by (eapply extends_heap_trans; eassumption).
  split; [eapply denotes_extends; [exact E4F | exact Dcommon] |].
  split; [eapply denotes_extends; [exact E6F | exact Dshow] |].
  eapply denotes_extends; [exact E9F | exact Dwd].
Qed.

(** X2.  The ['destination_project_id'] entry of the create schema, of the
    common show schema, and so of the show schema and of the detailed
    list, is the value of [parameter_types.uuid_or_null] itself: the
    object the module imported, not a copy of it. *)
Theorem destination_project_id_is_the_imported_uuid_or_null
    (base : transfers) (uuid_or_null : val) (h0 hF : heap) (d : transfers) :
  closed_below (length h0) h0 ->
  Forall (val_below (length h0)) (roots_of base) ->
  v3_57 base uuid_or_null h0 = Some (d, hF) ->
  path_get (create_volume_transfer d)
    ["response_body"; "properties"; "transfer"; "properties";
     "destination_project_id"] hF = Some uuid_or_null /\
  path_get (common_show_volume_transfer d)
    ["properties"; "destination_project_id"] hF = Some uuid_or_null /\
  path_get (show_volume_transfer d)
    ["response_body"; "properties"; "transfer"; "properties";
     "destination_project_id"] hF = Some uuid_or_null /\
  path_get (list_volume_transfers_with_detail d)
    ["response_body"; "properties"; "transfers"; "items"; "properties";
     "destination_project_id"] hF = Some uuid_or_null.
Proof.
  intros Hc0 Hroots Hrun. set (n0 := length h0) in *.
  destruct (v3_57_chain _ _ _ _ _ Hc0 Hroots Hrun)
    as (create & h1 & h2 & common & h3 & h4 & show & h5 & h6 & no_detail
        & h7 & with_detail & h8 & h9 & -> & C1 & F1 & C2 & F2 & C3 & A3
        & C5 & A5 & E02 & E24 & E46 & E67 & E79 & E9F).
  cbn [create_volume_transfer common_show_volume_transfer
       show_volume_transfer list_volume_transfers_with_detail].
  unfold roots_of in Hroots.
  inversion Hroots as [|? ? B1 R1]; subst. inversion R1 as [|? ? B2 R2]; subst.
  inversion R2 as [|? ? B3 R3]; subst. inversion R3 as [|? ? B4 R4]; subst.
  inversion R4 as [|? ? B5 _]; subst. fold n0 in B1, B2, B3, B5.
  assert (E7F : extends_heap h7 hF) by (eapply extends_heap_trans; eassumption).
  assert (E6F : extends_heap h6 hF) by (eapply extends_heap_trans; eassumption).
  assert (E4F : extends_heap h4 hF) by (eapply extends_heap_trans; eassumption).
  assert (E2F : extends_heap h2 hF) by (eapply extends_heap_trans; eassumption).
  assert (Hc2 : closed_below n0 h2) by (eapply closed_below_extends; eassumption).
  assert (Hc4 : closed_below n0 h4)
    by (eapply closed_below_extends; [exact Hc2 | exact E24]).
  assert (Hc7 : closed_below n0 h7).
  { eapply closed_below_extends; [exact Hc4 |].
    eapply extends_heap_trans; [exact E46 | exact E67]. }
  destruct (derive_fields_present n0 h0 _ _ _ _ _ _ Hc0 B1
              transfer_properties_old C1 F1)
    as (_ & _ & _ & a1 & _ & _ & P1 & G1 & _).
  destruct (derive_fields_present n0 h2 _ _ _ _ _ _ Hc2 B2
              properties_old C2 F2)
    as (_ & _ & _ & a2 & _ & _ & P2 & G2 & _).
  assert (Kshow : Forall (fun k => k <> "transfer")
                    ["response_body"; "properties"])
    by (repeat constructor; discriminate).
  assert (Klist : Forall (fun k => k <> "items")
                    ["response_body"; "properties"; "transfers"])
    by (repeat constructor; discriminate).
  destruct (derive_item_alias n0 h4 _ _ _ _ _ _ _ hF Hc4 B3 Kshow C3 A3 E6F)
    as (_ & _ & Sshow & _).
  destruct (derive_item_alias n0 h7 _ _ _ _ _ _ _ hF Hc7 B5 Klist C5 A5 E9F)
    as (_ & _ & Slist & _).
  assert (Q1 : path_get create
                 (transfer_properties ++ ["destination_project_id"]) hF
               = Some uuid_or_null).
  { rewrite path_get_app, (path_get_extends _ _ _ E2F _ _ P1).
    cbn [path_get]. now rewrite (getitem_extends _ _ _ _ _ E2F G1). }
  assert (Q2 : path_get common (["properties"] ++ ["destination_project_id"])
                 hF = Some uuid_or_null).
  { rewrite path_get_app, (path_get_extends _ _ _ E4F _ _ P2).
    cbn [path_get]. now rewrite (getitem_extends _ _ _ _ _ E4F G2). }
  split; [exact Q1 |]. split; [exact Q2 |]. split.
  - change ["response_body"; "properties"; "transfer"; "properties";
            "destination_project_id"]
      with ((["response_body"; "properties"] ++ ["transfer"])
              ++ ["properties"] ++ ["destination_project_id"]).
    rewrite path_get_app, Sshow. exact Q2.
  - change ["response_body"; "properties"; "transfers"; "items";
            "properties"; "destination_project_id"]
      with ((["response_body"; "properties"; "transfers"] ++ ["items"])
              ++ ["properties"] ++ ["destination_project_id"]).
    rewrite path_get_app, Slist. exact Q2.
Qed.

(** ** When the import succeeds *)

(** The tree [t] has a dictionary at [path]. *)
Definition has_dict (t : tree) (path : list string) : Prop :=
  exists items, tree_get t path = Some (TDict items).

Lemma denote_dict_inv n h root titems :
  denote n h root = Some (TDict titems) ->
  exists a n' items ts,
    root = VRef a /\ n = S n' /\ h !! a = Some (ODict items) /\
    Forall2 (fun c tc => denote n' h c = Some tc) (map snd items) ts /\
    titems = zip (map fst items) ts.
Proof.
  intros H.
  destruct n as [|n']; destruct root as [| | | |a]; simpl in H;
    try discriminate.
  change (denote (S n') h (VRef a) = Some (TDict titems)) in H.
  destruct (denote_ref_inv _ _ _ _ H) as (o & ts & Ho & E & Ht).
  destruct o as [items|elems]; simpl in Ht; [| discriminate].
  inversion Ht; subst titems.
  exists a, n', items, ts. repeat split; assumption.
Qed.

Lemma assoc_get_zip_inv n h k sub :
  forall (items : list (string * val)) ts,
    Forall2 (fun c tc => denote n h c = Some tc) (map snd items) ts ->
    assoc_get (zip (map fst items) ts) k = Some sub ->
    exists w, assoc_get items k = Some w /\ denote n h w = Some sub.
Proof.
  induction items as [|[k0 x] items IH]; intros ts E H; simpl in *.
  - discriminate.
  - inversion E as [|? tx ? ts0 Hx Hrest]; subst. simpl in H.
    destruct (String.eqb k0 k).
    + inversion H; subst. eauto.
    + now apply (IH ts0).
Qed.

(** A dictionary in the tree a value unfolds to is an object of the
    heap, found along the same keys. *)
Lemma tree_get_path_get h path :
  forall n root t titems,
    denote n h root = Some t -> tree_get t path = Some (TDict titems) ->
    exists a items,
      path_get root path h = Some (VRef a) /\ h !! a = Some (ODict items).
Proof.
  induction path as [|k rest IH]; intros n root t titems Hd Hg; simpl in Hg.
  - inversion Hg; subst t.
    destruct (denote_dict_inv _ _ _ _ Hd)
      as (a & n' & items & ts & -> & _ & Ho & _).
    exists a, items. split; [reflexivity | exact Ho].
  - destruct t as [| | | |its0|]; try discriminate.
    destruct (assoc_get its0 k) as [sub|] eqn:Ek; [| discriminate].
    destruct (denote_dict_inv _ _ _ _ Hd)
      as (r & n' & items & ts & -> & -> & Ho & E & Hz).
    subst its0.
    destruct (assoc_get_zip_inv _ _ _ _ _ _ E Ek) as (w & Hw & Hdw).
    destruct (IH _ _ _ _ Hdw Hg) as (a & items' & Hp & Ha).
    exists a, items'. split; [| exact Ha].
    simpl. rewrite Ho, Hw. exact Hp.
Qed.

(** Conversely an object found along [path] is a dictionary of the
    tree. *)
Lemma path_get_has_dict h path root t a items :
  denotes h root t ->
  path_get root path h = Some (VRef a) -> h !! a = Some (ODict items) ->
  has_dict t path.
Proof.
  intros [n Hd] Hp Ho.
  destruct (path_get_denote _ _ _ _ _ _ Hp Hd) as (tv & Hg & Hv).
  destruct (n - length path) as [|k]; [discriminate |].
  destruct (denote_ref_inv _ _ _ _ Hv) as (o & ts & Ho' & _ & ->).
  rewrite Ho in Ho'. inversion Ho'; subst o. simpl in Hg.
  eexists. exact Hg.
Qed.

Lemma update_with_keeps root path key expr h a items x l :
  path_get root path h = Some (VRef a) -> h !! a = Some (ODict items) ->
  expr h = (x, h ++ l) -> Forall (fun k => k <> key) path ->
  exists h',
    update_with root path key expr h = Some h' /\
    path_get root path h' = Some (VRef a) /\
    h' !! a = Some (ODict (assoc_set items key x)).
Proof.
  intros Hp Ho Hx Hpath.
  pose proof (lookup_lt_Some _ _ _ Ho) as Ha.
  exists (<[a := ODict (assoc_set items key x)]> h
            ++ l ++ [ODict [(key, x)]]).
  split; [| split].
  - unfold update_with. rewrite Hp. simpl. rewrite Hx.
    rewrite <- app_assoc. rewrite lookup_app_l by exact Ha. rewrite Ho.
    now rewrite insert_app_l by exact Ha.
  - apply (path_get_extends (<[a := ODict (assoc_set items key x)]> h));
      [apply extends_heap_app |].
    rewrite path_get_set_other; auto.
  - rewrite lookup_app_l by (now rewrite length_insert).
    now apply list_lookup_insert_eq.
Qed.

(** The three [update] statements go through on a dictionary. *)
Lemma add_fields_total root path u h a items :
  Forall (fun k => ~ is_new_field k) path ->
  path_get root path h = Some (VRef a) -> h !! a = Some (ODict items) ->
  exists h', add_fields root path u h = Some h'.
Proof.
  intros Hpath Hp Ho.
  assert (Hne : forall key, is_new_field key ->
                            Forall (fun k => k <> key) path).
  { intros key Hkey. eapply Forall_impl; [exact Hpath |].
    intros k Hk ->. now apply Hk. }
  unfold add_fields.
  destruct (update_with_keeps root path "destination_project_id"
              (fun h => (u, h)) h a items u [] Hp Ho)
    as (h1 & E1 & Hp1 & Ho1);
    [now rewrite app_nil_r | apply Hne; left; reflexivity |].
  rewrite E1. cbn [mbind option_bind].
  destruct (update_with_keeps root path "source_project_id"
              (store uuid_string) h1 a _ (VRef (length h1))
              [ODict [("type", VStr "string"); ("format", VStr "uuid")]]
              Hp1 Ho1)
    as (h2 & E2 & Hp2 & Ho2);
    [reflexivity | apply Hne; right; left; reflexivity |].
  rewrite E2. cbn [mbind option_bind].
  destruct (update_with_keeps root path "accepted"
              (store boolean) h2 a _ (VRef (length h2))
              [ODict [("type", VStr "boolean")]] Hp2 Ho2)
    as (h3 & E3 & _);
    [reflexivity | apply Hne; right; right; reflexivity |].
  exists h3. exact E3.
Qed.

Lemma stage_fields_total n0 h x path u t :
  closed_below n0 h -> val_below n0 x ->
  Forall (fun k => ~ is_new_field k) path ->
  denotes h x t -> has_dict t path ->
  exists x' h1 h2,
    copy_deepcopy x h = Some (x', h1) /\
    add_fields x' path u h1 = Some h2 /\ extends_heap h h2.
Proof.
  intros Hc Hx Hpath Hd [titems Hg].
  destruct (copy_deepcopy_spec n0 h x Hc Hx)
    as (x' & h1 & m & Hcopy & _).
  destruct (derive_copy_denote _ _ _ _ _ _ Hc Hx Hcopy Hd)
    as (_ & [n Hd1] & _).
  destruct (tree_get_path_get _ _ _ _ _ _ Hd1 Hg) as (a & items & Hp & Ho).
  destruct (add_fields_total x' path u h1 a items Hpath Hp Ho) as [h2 F].
  exists x', h1, h2. split; [exact Hcopy |]. split; [exact F |].
  now destruct (derive_fields_present _ _ _ _ _ _ _ _ Hc Hx Hpath Hcopy F).
Qed.

Lemma stage_item_total n0 h x path key c t :
  closed_below n0 h -> val_below n0 x ->
  Forall (fun k => k <> key) path ->
  denotes h x t -> has_dict t path ->
  exists x' h1 h2,
    copy_deepcopy x h = Some (x', h1) /\
    assign x' path key c h1 = Some h2 /\ extends_heap h h2.
Proof.
  intros Hc Hx Hpath Hd [titems Hg].
  destruct (copy_deepcopy_spec n0 h x Hc Hx)
    as (x' & h1 & m & Hcopy & _).
  destruct (derive_copy_denote _ _ _ _ _ _ Hc Hx Hcopy Hd)
    as (_ & [n Hd1] & _).
  destruct (tree_get_path_get _ _ _ _ _ _ Hd1 Hg) as (a & items & Hp & Ho).
  assert (A : assign x' path key c h1
              = Some (<[a := ODict (assoc_set items key c)]> h1)).
  { unfold assign. rewrite Hp. simpl. now rewrite Ho. }
  exists x', h1, (<[a := ODict (assoc_set items key c)]> h1).
  split; [exact Hcopy |]. split; [exact A |].
  now destruct (derive_item_alias _ _ _ _ _ _ _ _ _ _ Hc Hx Hpath Hcopy A
                  (extends_heap_refl _)).
Qed.

Lemma stage_copy_total n0 h x :
  closed_below n0 h -> val_below n0 x ->
  exists x' h1, copy_deepcopy x h = Some (x', h1) /\ extends_heap h h1.
Proof.
  intros Hc Hx.
  destruct (copy_deepcopy_spec n0 h x Hc Hx)
    as (x' & h1 & m & Hcopy & _).
  exists x', h1. split; [exact Hcopy |].
  eapply copy_deepcopy_extends; eassumption.
Qed.

Lemma stage_fields_has_dict n0 h x x' h1 h2 path u t :
  closed_below n0 h -> val_below n0 x ->
  Forall (fun k => ~ is_new_field k) path ->
  copy_deepcopy x h = Some (x', h1) ->
  add_fields x' path u h1 = Some h2 ->
  denotes h x t -> has_dict t path.
Proof.
  intros Hc Hx Hpath Hcopy F Hd.
  destruct (derive_fields_shape _ _ _ _ _ _ _ _ Hc Hx Hpath Hcopy F)
    as (m & a & items & _ & _ & _ & _ & Hp & Ho & _).
  destruct (derive_copy_denote _ _ _ _ _ _ Hc Hx Hcopy Hd) as (_ & Hd1 & _).
  eapply path_get_has_dict; eassumption.
Qed.

Lemma stage_item_has_dict n0 h x x' h1 h2 path key c t :
  closed_below n0 h -> val_below n0 x ->
  copy_deepcopy x h = Some (x', h1) ->
  assign x' path key c h1 = Some h2 ->
  denotes h x t -> has_dict t path.
Proof.
  intros Hc Hx Hcopy A Hd.
  destruct (derive_item_shape _ _ _ _ _ _ _ _ _ Hc Hx Hcopy A)
    as (m & a & items & _ & _ & _ & _ & Hp & Ho & _).
  destruct (derive_copy_denote _ _ _ _ _ _ Hc Hx Hcopy Hd) as (_ & Hd1 & _).
  eapply path_get_has_dict; eassumption.
Qed.

(** X3.  The import of the module succeeds exactly when the 3.55 schemas
    hold dictionaries where it edits them: the ['transfer'] properties
    of the create schema, the ['properties'] of the common show schema,
    the body properties of the show schema and the ['transfers'] of the
    detailed list.  Otherwise a statement of the module raises. *)
Theorem import_succeeds_iff_edited_paths_hold_dicts
    (base : transfers) (uuid_or_null : val) (h0 : heap)
    (t_create t_common t_show t_with_detail : tree) :
  closed_below (length h0) h0 ->
  Forall (val_below (length h0)) (roots_of base) ->
  denotes h0 (create_volume_transfer base) t_create ->
  denotes h0 (common_show_volume_transfer base) t_common ->
  denotes h0 (show_volume_transfer base) t_show ->
  denotes h0 (list_volume_transfers_with_detail base) t_with_detail ->
  (exists d hF, v3_57 base uuid_or_null h0 = Some (d, hF)) <->
  has_dict t_create
    ["response_body"; "properties"; "transfer"; "properties"] /\
  has_dict t_common ["properties"] /\
  has_dict t_show ["response_body"; "properties"] /\
  has_dict t_with_detail ["response_body"; "properties"; "transfers"].
Proof.
  intros Hc0 Hroots Dc Dm Ds Dw. set (n0 := length h0) in *.
  assert (Kshow : Forall (fun k => k <> "transfer")
                    ["response_body"; "properties"])
    by (repeat constructor; discriminate).
  assert (Klist : Forall (fun k => k <> "items")
                    ["response_body"; "properties"; "transfers"])
    by (repeat constructor; discriminate).
  pose proof Hroots as Hroots'. unfold roots_of in Hroots'.
  inversion Hroots' as [|? ? B1 R1]; subst.
  inversion R1 as [|? ? B2 R2]; subst.
  inversion R2 as [|? ? B3 R3]; subst. inversion R3 as [|? ? B4 R4]; subst.
  inversion R4 as [|? ? B5 R5]; subst. inversion R5 as [|? ? B6 R6]; subst.
  inversion R6 as [|? ? B7 _]; subst. clear Hroots' R1 R2 R3 R4 R5 R6.
  split.
  - intros (d & hF & Hrun).
    destruct (v3_57_chain _ _ _ _ _ Hc0 Hroots Hrun)
      as (create & h1 & h2 & common & h3 & h4 & show & h5 & h6 & no_detail
          & h7 & with_detail & h8 & h9 & _ & C1 & F1 & C2 & F2 & C3 & A3
          & C5 & A5 & E02 & E24 & E46 & E67 & E79 & E9F).
    assert (E04 : extends_heap h0 h4)
      by (eapply extends_heap_trans; [exact E02 | exact E24]).
    assert (E07 : extends_heap h0 h7).
    { eapply extends_heap_trans; [exact E04 |].
      eapply extends_heap_trans; [exact E46 | exact E67]. }
    split; [| split; [| split]].
    + exact (stage_fields_has_dict n0 h0 _ _ _ _ _ _ _ Hc0 B1
               transfer_properties_old C1 F1 Dc).
    + apply (stage_fields_has_dict n0 h2 _ _ _ _ _ uuid_or_null _
               (closed_below_extends _ _ _ Hc0 E02) B2 properties_old C2 F2).
      eapply denotes_extends; eassumption.
    + apply (stage_item_has_dict n0 h4 _ _ _ _ _ _ _ _
               (closed_below_extends _ _ _ Hc0 E04) B3 C3 A3).
      eapply denotes_extends; eassumption.
    + apply (stage_item_has_dict n0 h7 _ _ _ _ _ _ _ _
               (closed_below_extends _ _ _ Hc0 E07) B5 C5 A5).
      eapply denotes_extends; eassumption.
  - intros (Gc & Gm & Gs & Gw). unfold v3_57.
    destruct (stage_fields_total n0 h0 _ _ uuid_or_null _ Hc0 B1
                transfer_properties_old Dc Gc)
      as (create & h1 & h2 & C1 & F1 & E02).
    rewrite C1. cbn [mbind option_bind]. rewrite F1. cbn [mbind option_bind].
    assert (Hc2 := closed_below_extends _ _ _ Hc0 E02).
    destruct (stage_fields_total n0 h2 _ _ uuid_or_null _ Hc2 B2
                properties_old (denotes_extends _ _ _ _ E02 Dm) Gm)
      as (common & h3 & h4 & C2 & F2 & E24).
    rewrite C2. cbn [mbind option_bind]. rewrite F2. cbn [mbind option_bind].
    assert (E04 : extends_heap h0 h4)
      by (eapply extends_heap_trans; [exact E02 | exact E24]).
    assert (Hc4 := closed_below_extends _ _ _ Hc0 E04).
    destruct (stage_item_total n0 h4 _ _ "transfer" common _ Hc4 B3 Kshow
                (denotes_extends _ _ _ _ E04 Ds) Gs)
      as (show & h5 & h6 & C3 & A3 & E46).
    rewrite C3. cbn [mbind option_bind]. rewrite A3. cbn [mbind option_bind].
    assert (E06 : extends_heap h0 h6)
      by (eapply extends_heap_trans; [exact E04 | exact E46]).
    assert (Hc6 := closed_below_extends _ _ _ Hc0 E06).
    destruct (stage_copy_total n0 h6 _ Hc6 B4) as (no_detail & h7 & C4 & E67).
    rewrite C4. cbn [mbind option_bind].
    assert (E07 : extends_heap h0 h7)
      by (eapply extends_heap_trans; [exact E06 | exact E67]).
    assert (Hc7 := closed_below_extends _ _ _ Hc0 E07).
    destruct (stage_item_total n0 h7 _ _ "items" common _ Hc7 B5 Klist
                (denotes_extends _ _ _ _ E07 Dw) Gw)
      as (with_detail & h8 & h9 & C5 & A5 & E79).
    rewrite C5. cbn [mbind option_bind]. rewrite A5. cbn [mbind option_bind].
    assert (E09 : extends_heap h0 h9)
      by (eapply extends_heap_trans; [exact E07 | exact E79]).
    assert (Hc9 := closed_below_extends _ _ _ Hc0 E09).
    destruct (stage_copy_total n0 h9 _ Hc9 B6) as (delete & h10 & C6 & E9a).
    rewrite C6. cbn [mbind option_bind].
    assert (E0a : extends_heap h0 h10)
      by (eapply extends_heap_trans; [exact E09 | exact E9a]).
    assert (Hca := closed_below_extends _ _ _ Hc0 E0a).
    destruct (stage_copy_total n0 h10 _ Hca B7) as (accept & hF & C7 & _).
    rewrite C7. cbn [mbind option_bind]. eauto.
Qed.

Lemma show_and_detailed_list_hold_derived_common_witness :
  denotes sample_final (common_show_volume_transfer sample_derived)
    (with_new_fields sample_transfer ["properties"] sample_uuid_or_null) /\
  denotes sample_final (show_volume_transfer sample_derived)
    (tree_set (sample_body "transfer" sample_transfer)
       ["response_body"; "properties"] "transfer"
       (with_new_fields sample_transfer ["properties"]
          sample_uuid_or_null)) /\
  denotes sample_final (list_volume_transfers_with_detail sample_derived)
    (tree_set (sample_list sample_transfer)
       ["response_body"; "properties"; "transfers"] "items"
       (with_new_fields sample_transfer ["properties"]
          sample_uuid_or_null)).
Proof.
  apply (show_and_detailed_list_hold_derived_common
           sample_base sample_uuid sample_heap sample_final sample_derived
           sample_transfer (sample_body "transfer" sample_transfer)
           (sample_list sample_transfer) sample_uuid_or_null).
  - apply closed_belowb_ok. vm_compute. reflexivity.
  - apply val_belowb_ok. vm_compute. reflexivity.
  - apply sample_tree_shaped; vm_compute; reflexivity.
  - apply sample_tree_shaped; vm_compute; reflexivity.
  - apply sample_tree_shaped; vm_compute; reflexivity.
  - exists 12. vm_compute. reflexivity.
  - vm_compute. reflexivity.
Defined.

Lemma destination_project_id_is_the_imported_uuid_or_null_witness :
  path_get (create_volume_transfer sample_derived)
    ["response_body"; "properties"; "transfer"; "properties";
     "destination_project_id"] sample_final = Some sample_uuid /\
  path_get (common_show_volume_transfer sample_derived)
    ["properties"; "destination_project_id"] sample_final
  = Some sample_uuid /\
  path_get (show_volume_transfer sample_derived)
    ["response_body"; "properties"; "transfer"; "properties";
     "destination_project_id"] sample_final = Some sample_uuid /\
  path_get (list_volume_transfers_with_detail sample_derived)
    ["response_body"; "properties"; "transfers"; "items"; "properties";
     "destination_project_id"] sample_final = Some sample_uuid.
Proof.
  apply (destination_project_id_is_the_imported_uuid_or_null
           sample_base sample_uuid sample_heap sample_final sample_derived).
  - apply closed_belowb_ok. vm_compute. reflexivity.
  - apply val_belowb_ok. vm_compute. reflexivity.
  - vm_compute. reflexivity.
Defined.

Lemma import_succeeds_iff_edited_paths_hold_dicts_witness :
  (exists d hF, v3_57 sample_base sample_uuid sample_heap = Some (d, hF)) <->
  has_dict (sample_body "transfer" sample_transfer)
    ["response_body"; "properties"; "transfer"; "properties"] /\
  has_dict sample_transfer ["properties"] /\
  has_dict (sample_body "transfer" sample_transfer)
    ["response_body"; "properties"] /\
  has_dict (sample_list sample_transfer)
    ["response_body"; "properties"; "transfers"].
Proof.
  apply (import_succeeds_iff_edited_paths_hold_dicts
           sample_base sample_uuid sample_heap).
  - apply closed_belowb_ok. vm_compute. reflexivity.
  - apply val_belowb_ok. vm_compute. reflexivity.
  - exists 12. vm_compute. reflexivity.
  - exists 12. vm_compute. reflexivity.
  - exists 12. vm_compute. reflexivity.
  - exists 12. vm_compute. reflexivity.
Defined.

(** A 3.55 create schema without ['transfer']: the first [update] of
    the module raises, and the import fails. *)
Definition bare_create : tree :=
  TDict [("status_code", TList [TInt 202]);
         ("response_body",
          TDict [("type", TStr "object"); ("properties", TDict [])])].

Example import_fails_without_transfer :
  let '(u, h) := store sample_uuid_or_null [] in
  let '(create, h) := store bare_create h in
  let base := {| create_volume_transfer := create;
                 common_show_volume_transfer := create;
                 show_volume_transfer := create;
                 list_volume_transfers_no_detail := create;
                 list_volume_transfers_with_detail := create;
                 delete_volume_transfer := create;
                 accept_volume_transfer := create |} in
  v3_57 base u h = None /\
  tree_get bare_create
    ["response_body"; "properties"; "transfer"; "properties"] = None.
Proof. vm_compute. split; reflexivity. Qed.

End Schema.

(** * More on the live-migration flow ([test_live_migration.py]) *)

Module MigrationFlow.
Import LiveMigration.

Ltac step H := unfold bind at 1; rewrite H; cbv beta iota.

Tactic Notation "bind_inv" hyp(H) "as" ident(a) ident(w) ident(Ha) :=
  apply bind_Ok_inv in H as (a & w & Ha & H).

(** ** The failure message *)

Section Report.

Context {Migration : Type}.
Variable instance_uuid : Migration -> option string.
Variable str_of : Migration -> string.

(** [live_migration['instance_uuid'] == server_id], for a record that
    has the key. *)
Definition belongs (server_id : string) (m : Migration) : bool :=
  match instance_uuid m with
  | Some u => String.eqb u server_id
  | None => false
  end.

(** One line per record: a newline, then the record. *)
Fixpoint record_lines (ms : list Migration) : string :=
  match ms with
  | [] => ""
  | m :: rest =>
      String.append newline (String.append (str_of m) (record_lines rest))
  end.

Lemma append_migrations_lines server_id migration_list :
  (forall m, In m migration_list -> instance_uuid m <> None) ->
  forall msg0,
    append_migrations instance_uuid str_of server_id migration_list msg0
    = Ok (String.append msg0
            (record_lines (List.filter (belongs server_id) migration_list))).
Proof.
  induction migration_list as [|x rest IH]; intros Hk msg0; simpl.
  - now rewrite append_empty_r.
  - assert (Hrest : forall m, In m rest -> instance_uuid m <> None)
      by (intros m Hm; apply Hk; now right).
    unfold belongs at 1.
    destruct (instance_uuid x) as [u|] eqn:Eu.
    + destruct (String.eqb u server_id).
      * rewrite (IH Hrest). simpl. now rewrite !append_assoc.
      * apply (IH Hrest).
    + exfalso. apply (Hk x); [now left | exact Eu].
Qed.

Lemma append_migrations_key_error server_id migration_list :
  (exists m, In m migration_list /\ instance_uuid m = None) ->
  forall msg0,
    append_migrations instance_uuid str_of server_id migration_list msg0
    = Raise (KeyError "instance_uuid").
Proof.
  induction migration_list as [|x rest IH]; intros (m & Hin & Hm) msg0.
  - destruct Hin.
  - simpl. destruct (instance_uuid x) as [u|] eqn:Eu; [| reflexivity].
    assert (Hrest : exists m, In m rest /\ instance_uuid m = None).
    { destruct Hin as [-> | Hin]; [congruence | eauto]. }
    destruct (String.eqb u server_id); apply (IH Hrest).
Qed.

(** X4.  When every listed record has an [instance_uuid], the message
    built for the final assertion is the heading, then one line for
    each record of the server, in the order of the list, then the
    closing bracket: the records of other servers leave no trace in it,
    and without a record of the server it is the heading and ["]"]. *)
Theorem failure_message_lists_the_records_of_the_server
    (server_id : string) (migration_list : list Migration) :
  (forall m, In m migration_list -> instance_uuid m <> None) ->
  failure_msg instance_uuid str_of server_id migration_list
  = Ok (String.append (msg_head server_id)
          (String.append
             (record_lines (List.filter (belongs server_id) migration_list))
             "]")).
Proof.
  intros Hk. unfold failure_msg.
  rewrite (append_migrations_lines server_id migration_list Hk).
  now rewrite append_assoc.
Qed.

End Report.

(** ** Malformed records and missing attributes *)

Section Edges.

Context {World Migration : Type}.

Variable CONF : Conf.
Variable get_host_for_server : string -> M World string.
Variable live_migrate_server :
  string -> option string -> bm_arg -> option bool -> M World unit.
Variable wait_for_server_status : client -> string -> string -> M World unit.
Variable list_migrations : M World (list Migration).
Variable instance_uuid : Migration -> option string.
Variable str_of : Migration -> string.

Abbreviation live_migrate :=
  (_live_migrate CONF get_host_for_server live_migrate_server
     wait_for_server_status list_migrations instance_uuid str_of).
Abbreviation migrate_server_to := (_migrate_server_to CONF live_migrate_server).

(** X5.  The message is built before the host is checked: once the
    migrate request is accepted and the wait is over, a listed record
    without [instance_uuid], of whatever server, makes [_live_migrate]
    raise [KeyError], in the world the listing left; the host the
    server ended on is never asked for. *)
Theorem record_without_instance_uuid_fails_the_flow
    (self : TestClass) (server_id : string) (target_host : option string)
    (state : string) (volume_backed : bool)
    (w w1 w2 w3 w4 : World) (source_host : string)
    (migration_list : list Migration) :
  match target_host with
  | None => get_host_for_server server_id w = (Ok source_host, w1)
  | Some _ => w1 = w
  end ->
  migrate_server_to self server_id target_host volume_backed w1
    = (Ok tt, w2) ->
  wait_for_server_status ServersClient server_id state w2 = (Ok tt, w3) ->
  list_migrations w3 = (Ok migration_list, w4) ->
  (exists m, In m migration_list /\ instance_uuid m = None) ->
  live_migrate self server_id target_host state volume_backed w
  = (Raise (KeyError "instance_uuid"), w4).
Proof.
  intros Hsrc Hmig Hwait Hlist Hbad.
  assert (Hmsg : failure_msg instance_uuid str_of server_id migration_list
                 = Raise (KeyError "instance_uuid")).
  { unfold failure_msg.
    now rewrite (append_migrations_key_error instance_uuid str_of
                   server_id migration_list Hbad). }
  unfold _live_migrate.
  destruct target_host as [t|]; [subst w1 |]; cbn [bind ret lift raise].
  - step Hmig. step Hwait. step Hlist.
    unfold bind at 1, lift at 1. now rewrite Hmsg.
  - unfold bind at 1. step Hsrc. unfold ret at 1. cbv beta iota.
    step Hmig. step Hwait. step Hlist.
    unfold bind at 1, lift at 1. now rewrite Hmsg.
Qed.

(** In a class that does not declare [block_migration],
    [_live_migrate] raises [AttributeError] without sending a request:
    with a target in the world it started in, without one in the world
    the query for the source host left. *)
Lemma live_migrate_needs_the_block_migration_attribute_aux
    (self : TestClass) (server_id : string) (target_host : option string)
    (state : string) (volume_backed : bool) (w w1 : World)
    (source_host : string) :
  block_migration self = None ->
  match target_host with
  | None => get_host_for_server server_id w = (Ok source_host, w1)
  | Some _ => w1 = w
  end ->
  live_migrate self server_id target_host state volume_backed w
  = (Raise (AttributeError "block_migration"), w1).
Proof.
  intros Hattr Hsrc.
  assert (Hmig : migrate_server_to self server_id target_host volume_backed
                   w1 = (Raise (AttributeError "block_migration"), w1)).
  { unfold _migrate_server_to. now rewrite Hattr. }
  unfold _live_migrate.
  destruct target_host as [t|]; [subst w1 |]; cbn [bind ret lift raise].
  - now step Hmig.
  - unfold bind at 1. step Hsrc. unfold ret at 1. cbv beta iota.
    now step Hmig.
Qed.

End Edges.

(** ** The requests a test sends *)

(** A request to the compute service, or a wait on it. *)
Inductive call : Type :=
| LiveMigrateServer (server_id : string) (host : option string)
    (block_migration : bm_arg) (disk_over_commit : option bool)
| PauseServer (server_id : string)
| WaitForServerStatus (c : client) (server_id status : string).

Section Calls.

Context {World Migration : Type}.

Variable CONF : Conf.
Variable get_host_for_server : string -> M World string.
Variable live_migrate_server :
  string -> option string -> bm_arg -> option bool -> M World unit.
Variable wait_for_server_status : client -> string -> string -> M World unit.
Variable list_migrations : M World (list Migration).
Variable create_test_server : string -> bool -> M World string.
Variable get_host_other_than : string -> M World string.
Variable pause_server : string -> M World unit.
Variable instance_uuid : Migration -> option string.
Variable str_of : Migration -> string.

(** The world and the calls made so far. *)
Definition Logged : Type := World * list call.

(** [op], recorded as [c] when it is called, whatever comes of it. *)
Definition logged {A} (c : call) (op : M World A) : M Logged A :=
  fun s =>
    match op (fst s) with
    | (r, w') => (r, (w', snd s ++ [c]))
    end.

(** [op], which is not recorded. *)
Definition quiet {A} (op : M World A) : M Logged A :=
  fun s =>
    match op (fst s) with
    | (r, w') => (r, (w', snd s))
    end.

Definition logged_live_migrate_server (server_id : string)
    (host : option string) (bm : bm_arg) (disk_over_commit : option bool)
  : M Logged unit :=
  logged (LiveMigrateServer server_id host bm disk_over_commit)
    (live_migrate_server server_id host bm disk_over_commit).

Definition logged_wait (c : client) (server_id status : string)
  : M Logged unit :=
  logged (WaitForServerStatus c server_id status)
    (wait_for_server_status c server_id status).

Definition logged_pause_server (server_id : string) : M Logged unit :=
  logged (PauseServer server_id) (pause_server server_id).

(** [_live_migrate] and [_test_live_migration] with their requests
    recorded. *)
Definition recorded_live_migrate :=
  _live_migrate CONF (fun server_id => quiet (get_host_for_server server_id))
    logged_live_migrate_server logged_wait (quiet list_migrations)
    instance_uuid str_of.

Definition recorded_test_live_migration :=
  _test_live_migration CONF
    (fun server_id => quiet (get_host_for_server server_id))
    logged_live_migrate_server logged_wait (quiet list_migrations)
    (fun wait_until volume_backed =>
       quiet (create_test_server wait_until volume_backed))
    (fun server_id => quiet (get_host_other_than server_id))
    logged_pause_server instance_uuid str_of.

(** What [_migrate_server_to] passes on for a class whose
    [block_migration] is [a]. *)
Definition migrate_request (self : TestClass) (a : pyattr)
    (server_id : string) (host : option string) (volume_backed : bool)
  : call :=
  match a with
  | AttrNone =>
      LiveMigrateServer server_id host
        (BmBool (block_migration_for_live_migration CONF
                 && negb volume_backed))
        (if is_requested_microversion_compatible self "2.24"
         then Some false else None)
  | AttrStr s => LiveMigrateServer server_id host (BmStr s) None
  end.

Lemma quiet_Ok {A} (op : M World A) s a s' :
  quiet op s = (Ok a, s') ->
  op (fst s) = (Ok a, fst s') /\ snd s' = snd s.
Proof.
  unfold quiet. destruct (op (fst s)) as [r w'] eqn:E. intros H.
  inversion H; subst. simpl. auto.
Qed.

Lemma logged_Ok {A} c (op : M World A) s a s' :
  logged c op s = (Ok a, s') -> snd s' = snd s ++ [c].
Proof.
  unfold logged. destruct (op (fst s)) as [r w']. intros H.
  now inversion H.
Qed.

Lemma lift_Ok {St A} (r : result A) (s s' : St) a :
  lift r s = (Ok a, s') -> s' = s.
Proof. unfold lift. intros H. now inversion H. Qed.

Lemma recorded_migrate_server_to self a server_id host volume_backed s s' :
  block_migration self = Some a ->
  _migrate_server_to CONF logged_live_migrate_server self server_id host
    volume_backed s = (Ok tt, s') ->
  snd s' = snd s ++ [migrate_request self a server_id host volume_backed].
Proof.
  intros Hattr H. unfold _migrate_server_to in H. rewrite Hattr in H.
  destruct a as [|str]; apply logged_Ok in H; exact H.
Qed.

Lemma recorded_live_migrate_calls self a server_id host state volume_backed
    s s' :
  block_migration self = Some a ->
  recorded_live_migrate self server_id host state volume_backed s
  = (Ok tt, s') ->
  snd s' = snd s ++ [migrate_request self a server_id host volume_backed;
                     WaitForServerStatus ServersClient server_id state].
Proof.
  intros Hattr H. unfold recorded_live_migrate, _live_migrate in H.
  bind_inv H as src s1 Hsrc.
  assert (E1 : snd s1 = snd s).
  { destruct host as [t|].
    - apply ret_inv in Hsrc as [_ <-]. reflexivity.
    - bind_inv Hsrc as h0 s0 Hq. apply ret_inv in Hsrc as [_ <-].
      now apply quiet_Ok in Hq. }
  bind_inv H as u2 s2 Hmig. destruct u2.
  apply (recorded_migrate_server_to _ a) in Hmig; [| exact Hattr].
  bind_inv H as u3 s3 Hwait. apply logged_Ok in Hwait.
  bind_inv H as migs s4 Hlist. apply quiet_Ok in Hlist as [_ E4].
  bind_inv H as msg s5 Hmsg. apply lift_Ok in Hmsg. subst s5.
  assert (E6 : snd s' = snd s4).
  { destruct host as [t|].
    - bind_inv H as h s6 Hhost. apply quiet_Ok in Hhost as [_ E6].
      apply assertEqual_Ok in H as [_ ->]. exact E6.
    - bind_inv H as h s6 Hhost. apply quiet_Ok in Hhost as [_ E6].
      destruct src as [s0|]; [| discriminate].
      apply assertNotEqual_Ok in H as [_ ->]. exact E6. }
  rewrite E6, E4, Hwait, Hmig, E1, <- app_assoc. reflexivity.
Qed.

(** X6.  The requests of a successful [_test_live_migration], in the
    order they are sent: a pause and the wait for it when, and only
    when, the state asked for is ['PAUSED']; one live migration of the
    server the test created, to the host chosen (none when the
    scheduler is to pick one), and the wait for it; and, with
    [live_migrate_back_and_forth], a second one, back to the host the
    server started on, and its wait.  Every migrate request carries
    what [_migrate_server_to] derives from the class and the
    configuration. *)
Theorem requests_of_a_successful_live_migration_test
    (self : TestClass) (a : pyattr) (state : string) (volume_backed : bool)
    (w w' : World) (calls : list call) :
  block_migration self = Some a ->
  recorded_test_live_migration self state volume_backed (w, [])
  = (Ok tt, (w', calls)) ->
  exists server_id source_host destination_host w1 w2,
    create_test_server "ACTIVE" volume_backed w = (Ok server_id, w1) /\
    get_host_for_server server_id w1 = (Ok source_host, w2) /\
    (can_migrate_between_any_hosts CONF = false ->
     destination_host = None) /\
    (can_migrate_between_any_hosts CONF = true ->
     exists h w3, get_host_other_than server_id w2 = (Ok h, w3) /\
                  destination_host = Some h) /\
    calls
    = (if String.eqb state "PAUSED"
       then [PauseServer server_id;
             WaitForServerStatus AdminServersClient server_id state]
       else [])
      ++ [migrate_request self a server_id destination_host volume_backed;
          WaitForServerStatus ServersClient server_id state]
      ++ (if live_migrate_back_and_forth CONF
          then [migrate_request self a server_id (Some source_host)
                  volume_backed;
                WaitForServerStatus ServersClient server_id state]
          else []).
Proof.
  intros Hattr H.
  unfold recorded_test_live_migration, _test_live_migration in H.
  bind_inv H as sid s1 Hcreate. apply quiet_Ok in Hcreate as [Hcreate E1].
  bind_inv H as src s2 Hsrc. apply quiet_Ok in Hsrc as [Hsrc E2].
  bind_inv H as dest s3 Hdest.
  bind_inv H as u4 s4 Hpause. bind_inv H as u5 s5 Hfwd. destruct u5.
  apply (recorded_live_migrate_calls _ a) in Hfwd; [| exact Hattr].
  simpl in Hcreate, Hsrc, E1, E2.
  exists sid, src, dest, (fst s1), (fst s2).
  split; [exact Hcreate |]. split; [exact Hsrc |].
  assert (Hd : snd s3 = snd s2 /\
               (can_migrate_between_any_hosts CONF = false -> dest = None) /\
               (can_migrate_between_any_hosts CONF = true ->
                exists h w3,
                  get_host_other_than sid (fst s2) = (Ok h, w3) /\
                  dest = Some h)).
  { destruct (can_migrate_between_any_hosts CONF); simpl in Hdest.
    - bind_inv Hdest as h s0 Hq. apply ret_inv in Hdest as [<- <-].
      apply quiet_Ok in Hq as [Hq E]. split; [exact E |].
      split; [discriminate |]. intros _. eauto.
    - apply ret_inv in Hdest as [<- <-]. split; [reflexivity |].
      split; [reflexivity | discriminate]. }
  destruct Hd as (E3 & Hnone & Hsome).
  split; [exact Hnone |]. split; [exact Hsome |].
  assert (E4 : snd s4 = snd s3 ++
                 (if String.eqb state "PAUSED"
                  then [PauseServer sid;
                        WaitForServerStatus AdminServersClient sid state]
                  else [])).
  { destruct (String.eqb state "PAUSED").
    - bind_inv Hpause as u s0 Hp. apply logged_Ok in Hp.
      apply logged_Ok in Hpause. rewrite Hpause, Hp, <- app_assoc.
      reflexivity.
    - apply ret_inv in Hpause as [_ <-]. now rewrite app_nil_r. }
  assert (E6 : calls = snd s5 ++
                 (if live_migrate_back_and_forth CONF
                  then [migrate_request self a sid (Some src) volume_backed;
                        WaitForServerStatus ServersClient sid state]
                  else [])).
  { destruct (live_migrate_back_and_forth CONF).
    - apply (recorded_live_migrate_calls _ a) in H; [| exact Hattr].
      exact H.
    - apply ret_inv in H as [_ ->]. simpl. now rewrite app_nil_r. }
  rewrite E6, Hfwd, E4, E3, E2, E1. simpl. now rewrite <- !app_assoc.
Qed.

End Calls.

(** ** [test_live_migration_serial_console] *)

(** A console check that went well: a websocket is created; after the
    sends, receives and reconnections of the loop the websocket created
    last is closed; then comes the assertion. *)
Definition console_session (evs : list Console.event) : Prop :=
  exists ws0 mid x,
    evs = Console.EvCreate ws0 :: mid
          ++ [Console.EvClose x; Console.EvAssert] /\
    Forall Console.is_io mid /\
    Console.most_recent (Console.EvCreate ws0 :: mid) = Some x.

Section SerialConsole.

Context {World Migration : Type}.

Variable CONF : Conf.
Variable get_host_for_server : string -> M World string.
Variable live_migrate_server :
  string -> option string -> bm_arg -> option bool -> M World unit.
Variable wait_for_server_status : client -> string -> string -> M World unit.
Variable list_migrations : M World (list Migration).
Variable instance_uuid : Migration -> option string.
Variable str_of : Migration -> string.

(** [self.create_test_server(scheduler_hints=..., wait_until=...)
    ['id']]; the first argument is the ['different_host'] hint, if
    any. *)
Variable create_test_server : option string -> string -> M World string.

(** The console client and the websocket helper. *)
Variable get_remote_console : string -> M World string.
Variable create_websocket : string -> M World nat.
Variable send_frame : nat -> string -> M World unit.
Variable receive_frame : nat -> M World string.
Variable close : nat -> M World unit.
Variable sleep : float -> World -> World.

(** [safe_repr] of unittest, in the message of [assertNotEqual]. *)
Variable safe_repr : string -> string.

(** The world and the websocket events so far. *)
Definition Session : Type := World * list Console.event.

(** [self._verify_console_interaction(server_id)] *)
Definition verify (server_id : string) (s : Session)
  : option (result unit * Session) :=
  match Console._verify_console_interaction get_remote_console
          create_websocket send_frame receive_frame close sleep
          server_id (fst s) (snd s) with
  | None => None
  | Some (r, st) => Some (r, (Console.world st, Console.trace st))
  end.

(** The statements before the first console check: two servers, the
    second asked for on a different host, and the assertion that their
    hosts differ. *)
Definition servers_on_two_hosts : M World (string * string * string) :=
  server01_id <~ create_test_server None "ACTIVE" ;;
  server02_id <~ create_test_server (Some server01_id) "ACTIVE" ;;
  host01_id <~ get_host_for_server server01_id ;;
  host02_id <~ get_host_for_server server02_id ;;
  assertNotEqual host01_id host02_id
    (String.append (safe_repr host01_id)
       (String.append " == " (safe_repr host02_id))) ;;;
  ret (server01_id, server02_id, host02_id).

(** [test_live_migration_serial_console]; [None] when the fuel of a
    console check does not suffice. *)
Definition test_live_migration_serial_console (self : TestClass) (w : World)
  : option (result unit * Session) :=
  match servers_on_two_hosts w with
  | (Raise e, w1) => Some (Raise e, (w1, []))
  | (Ok (server01_id, server02_id, host02_id), w1) =>
      match verify server01_id (w1, []) with
      | None => None
      | Some (Raise e, s2) => Some (Raise e, s2)
      | Some (Ok _, s2) =>
          match verify server02_id s2 with
          | None => None
          | Some (Raise e, s3) => Some (Raise e, s3)
          | Some (Ok _, s3) =>
              match _live_migrate CONF get_host_for_server
                      live_migrate_server wait_for_server_status
                      list_migrations instance_uuid str_of self
                      server01_id (Some host02_id) "ACTIVE" false
                      (fst s3) with
              | (Raise e, w4) => Some (Raise e, (w4, snd s3))
              | (Ok _, w4) => verify server01_id (w4, snd s3)
              end
          end
      end
  end.

(** A console check returns. *)
Lemma verify_total server_id s :
  exists r s', verify server_id s = Some (r, s').
Proof.
  unfold verify, Console._verify_console_interaction.
  cbv [Console.remote Console.world Console.trace Console.ws
       Console.console_output Console.t].
  destruct (get_remote_console server_id (fst s)) as [[url|e] w1];
    [| eauto].
  cbv [Console.connect Console.remote bind Console.log Console.set_ws
       Console.world Console.trace Console.ws Console.console_output
       Console.t].
  destruct (create_websocket url w1) as [[ws0|e] w2]; [| eauto].
  match goal with
  | |- context [Console.poll _ _ _ _ _ _ ?s2] =>
      destruct (Console.poll_total create_websocket send_frame
                  receive_frame sleep Console.poll_fuel url s2
                  Console.budget_runs_out) as (r & s3 & Hpoll);
      rewrite Hpoll
  end.
  destruct (Console.finish close r s3) as [r' s']. eauto.
Qed.

(** A console check that succeeds adds one session to the trace. *)
Lemma verify_Ok_session server_id s s' :
  verify server_id s = Some (Ok tt, s') ->
  exists evs, snd s' = snd s ++ evs /\ console_session evs.
Proof.
  unfold verify. intros H.
  destruct (get_remote_console server_id (fst s)) as [[url|e] w1] eqn:Hurl.
  2:{ unfold Console._verify_console_interaction in H.
      cbv [Console.remote Console.world Console.trace Console.ws
           Console.console_output Console.t] in H.
      rewrite Hurl in H. discriminate. }
  destruct (create_websocket url w1) as [[ws0|e] w2] eqn:Hws.
  2:{ unfold Console._verify_console_interaction in H.
      cbv [Console.remote Console.connect bind Console.world Console.trace
           Console.ws Console.console_output Console.t] in H.
      rewrite Hurl in H.
      cbv [Console.remote Console.connect bind Console.world Console.trace
           Console.ws Console.console_output Console.t] in H.
      rewrite Hws in H. discriminate. }
  rewrite (Console.helper_after_connect _ _ send_frame receive_frame close
             sleep _ _ (snd s) _ _ _ _ Hurl Hws) in H.
  match type of H with
  | context [Console.poll _ _ _ _ _ _ ?s2] =>
      destruct (Console.poll create_websocket send_frame receive_frame
                  sleep Console.poll_fuel url s2)
        as [[r s3]|] eqn:Hpoll; [| discriminate]
  end.
  destruct (Console.poll_trace _ _ _ _ _ _ _ _ _ Hpoll)
    as (mid & Tmid & Fmid & Rmid).
  destruct (Console.finish_trace close r s3)
    as (r' & st & tail & Hfin & Ttail & _ & Hok & _).
  rewrite Hfin in H. inversion H; subst r' s'. clear H.
  specialize (Hok eq_refl). subst tail. simpl in Tmid, Rmid. simpl.
  exists (Console.EvCreate ws0 :: mid
            ++ [Console.EvClose (Console.ws s3); Console.EvAssert]).
  split.
  - rewrite Ttail, Tmid, <- !app_assoc. reflexivity.
  - exists ws0, mid, (Console.ws s3). split; [reflexivity |].
    split; [exact Fmid |]. exact Rmid.
Qed.

(** X7.  In a class that does not declare [block_migration], as
    [LiveMigrationRemoteConsolesV26Test] is written in this file, the
    test returns and never passes: whatever the cloud does, it ends in
    an exception; when the two servers are on different hosts and both
    console checks go well, the exception is the [AttributeError] of
    [_migrate_server_to], raised before any migrate request and before
    the third console check. *)
Theorem serial_console_test_needs_the_block_migration_attribute
    (self : TestClass) (w : World) :
  block_migration self = None ->
  (exists e s, test_live_migration_serial_console self w
               = Some (Raise e, s)) /\
  (forall server01_id server02_id host02_id w1 s2 s3,
      servers_on_two_hosts w
      = (Ok (server01_id, server02_id, host02_id), w1) ->
      verify server01_id (w1, []) = Some (Ok tt, s2) ->
      verify server02_id s2 = Some (Ok tt, s3) ->
      test_live_migration_serial_console self w
      = Some (Raise (AttributeError "block_migration"), s3)).
Proof.
  intros Hattr.
  assert (Hmig : forall sid t w0,
             _live_migrate CONF get_host_for_server live_migrate_server
               wait_for_server_status list_migrations instance_uuid str_of
               self sid (Some t) "ACTIVE" false w0
             = (Raise (AttributeError "block_migration"), w0)).
  { intros sid t w0.
    apply (live_migrate_needs_the_block_migration_attribute_aux
             CONF get_host_for_server live_migrate_server
             wait_for_server_status list_migrations instance_uuid str_of
             self sid (Some t) "ACTIVE" false w0 w0 "" Hattr eq_refl). }
  split.
  - unfold test_live_migration_serial_console.
    destruct (servers_on_two_hosts w) as [[[[s1 s2] h2]|e] w1]; [| eauto].
    destruct (verify_total s1 (w1, [])) as ([[]|e] & st2 & V1);
      rewrite V1; [| eauto].
    destruct (verify_total s2 st2) as ([[]|e] & st3 & V2);
      rewrite V2; [| eauto].
    rewrite Hmig. eauto.
  - intros s1 s2 h2 w1 st2 st3 Hsetup V1 V2.
    unfold test_live_migration_serial_console.
    rewrite Hsetup, V1, V2, Hmig. now destruct st3.
Qed.


End SerialConsole.

(** ** Runs *)

Lemma failure_message_lists_the_records_of_the_server_witness :
  failure_msg (fun m : string * string => Some (fst m)) snd "server-1"
    [("server-1", "first"); ("server-2", "other"); ("server-1", "second")]
  = Ok (String.append (msg_head "server-1")
          (String.append
             (record_lines snd
                (List.filter
                   (belongs (fun m : string * string => Some (fst m))
                      "server-1")
                   [("server-1", "first"); ("server-2", "other");
                    ("server-1", "second")]))
             "]")).
Proof.
  apply (failure_message_lists_the_records_of_the_server
           (fun m : string * string => Some (fst m)) snd "server-1").
  intros m _. discriminate.
Defined.

(** The message of the run above. *)
Example failure_message_run :
  failure_msg (fun m : string * string => Some (fst m)) snd "server-1"
    [("server-1", "first"); ("server-2", "other"); ("server-1", "second")]
  = Ok (String.append
          "Live Migration failed. Migrations list for Instance server-1: ["
          (String.append newline
             (String.append "first"
                (String.append newline "second]")))).
Proof. vm_compute. reflexivity. Qed.

(** A compute service that accepts every request and lists one record
    without [instance_uuid]. *)
Definition nameless_record : option string * string :=
  (None, "{'status': 'running'}").

Lemma record_without_instance_uuid_fails_the_flow_witness :
  _live_migrate grenade_conf (fun _ w => (Ok "compute-2", w))
    (fun _ _ _ _ w => (Ok tt, w)) (fun _ _ _ w => (Ok tt, w))
    (fun w => (Ok [nameless_record], w)) fst snd test_class
    "server-1" (Some "compute-2") "ACTIVE" false tt
  = (Raise (KeyError "instance_uuid"), tt).
Proof.
  apply (record_without_instance_uuid_fails_the_flow grenade_conf
           (fun _ w => (Ok "compute-2", w)) (fun _ _ _ _ w => (Ok tt, w))
           (fun _ _ _ w => (Ok tt, w)) (fun w => (Ok [nameless_record], w))
           fst snd test_class "server-1" (Some "compute-2") "ACTIVE" false
           tt tt tt tt tt "" [nameless_record]).
  - reflexivity.
  - reflexivity.
  - reflexivity.
  - reflexivity.
  - exists nameless_record. split; [now left | reflexivity].
Defined.

(** The round trip of a paused server on the two-host cloud. *)
Definition paused_round_trip :=
  recorded_test_live_migration grenade_conf cloud_get_host
    cloud_live_migrate cloud_wait cloud_list_migrations
    cloud_create_test_server cloud_get_host_other_than cloud_pause_server
    (fun m => Some (fst m)) snd test_class "PAUSED" false
    (healthy_cloud, []).

Definition paused_round_trip_cloud : cloud :=
  Eval vm_compute in fst (snd paused_round_trip).

Definition paused_round_trip_calls : list call :=
  Eval vm_compute in snd (snd paused_round_trip).

Lemma requests_of_a_successful_live_migration_test_witness :
  exists server_id source_host destination_host w1 w2,
    cloud_create_test_server "ACTIVE" false healthy_cloud
    = (Ok server_id, w1) /\
    cloud_get_host server_id w1 = (Ok source_host, w2) /\
    (can_migrate_between_any_hosts grenade_conf = false ->
     destination_host = None) /\
    (can_migrate_between_any_hosts grenade_conf = true ->
     exists h w3, cloud_get_host_other_than server_id w2 = (Ok h, w3) /\
                  destination_host = Some h) /\
    paused_round_trip_calls
    = (if String.eqb "PAUSED" "PAUSED"
       then [PauseServer server_id;
             WaitForServerStatus AdminServersClient server_id "PAUSED"]
       else [])
      ++ [migrate_request grenade_conf test_class AttrNone server_id
            destination_host false;
          WaitForServerStatus ServersClient server_id "PAUSED"]
      ++ (if live_migrate_back_and_forth grenade_conf
          then [migrate_request grenade_conf test_class AttrNone server_id
                  (Some source_host) false;
                WaitForServerStatus ServersClient server_id "PAUSED"]
          else []).
Proof.
  apply (requests_of_a_successful_live_migration_test grenade_conf
           cloud_get_host cloud_live_migrate cloud_wait
           cloud_list_migrations cloud_create_test_server
           cloud_get_host_other_than cloud_pause_server
           (fun m => Some (fst m)) snd test_class AttrNone "PAUSED" false
           healthy_cloud paused_round_trip_cloud paused_round_trip_calls).
  - reflexivity.
  - vm_compute. reflexivity.
Defined.

Example paused_round_trip_run :
  paused_round_trip_calls
  = [PauseServer "server-1";
     WaitForServerStatus AdminServersClient "server-1" "PAUSED";
     LiveMigrateServer "server-1" (Some "compute-2") (BmBool true)
       (Some false);
     WaitForServerStatus ServersClient "server-1" "PAUSED";
     LiveMigrateServer "server-1" (Some "compute-1") (BmBool true)
       (Some false);
     WaitForServerStatus ServersClient "server-1" "PAUSED"].
Proof. reflexivity. Qed.

(** *** A lab: the two-host cloud and a console

    ["server-2"] stays on ["compute-2"]; the other server is where the
    cloud has it. *)
Definition lab : Type := cloud * Console.console.

Definition on_cloud {A} (op : M cloud A) : M lab A :=
  fun l =>
    match op (fst l) with
    | (r, c) => (r, (c, snd l))
    end.

Definition on_console {A} (op : M Console.console A) : M lab A :=
  fun l =>
    match op (snd l) with
    | (r, c) => (r, (fst l, c))
    end.

Definition lab_get_host (server_id : string) : M lab string :=
  fun l =>
    (Ok (if String.eqb server_id "server-2" then "compute-2"
         else host (fst l)), l).

Definition lab_create_test_server (different_host : option string)
    (wait_until : string) : M lab string :=
  fun l =>
    (Ok (match different_host with
         | None => "server-1"
         | Some _ => "server-2"
         end), l).

Definition lab_test (self : TestClass) (l : lab) :=
  test_live_migration_serial_console grenade_conf lab_get_host
    (fun server_id dest bm doc =>
       on_cloud (cloud_live_migrate server_id dest bm doc))
    (fun c server_id state => on_cloud (cloud_wait c server_id state))
    (on_cloud cloud_list_migrations) (fun m => Some (fst m)) snd
    lab_create_test_server
    (fun server_id => on_console (Console.flaky_get_remote_console server_id))
    (fun url => on_console (Console.flaky_create_websocket url))
    (fun x d => on_console (Console.flaky_send_frame x d))
    (fun x => on_console (Console.flaky_receive_frame x))
    (fun x => on_console (Console.flaky_close x))
    (fun _ l => l) (fun s => s) self l.

(** [LiveMigrationRemoteConsolesV26Test] as the file has it. *)
Definition consoles_class : TestClass :=
  {| block_migration := None;
     is_requested_microversion_compatible := fun _ => true |}.

Definition fresh_lab : lab := (healthy_cloud, (0, 1)).

Lemma serial_console_test_needs_the_block_migration_attribute_witness :
  (exists e s, lab_test consoles_class fresh_lab = Some (Raise e, s)) /\
  (forall server01_id server02_id host02_id w1 s2 s3,
      servers_on_two_hosts lab_get_host lab_create_test_server
        (fun s => s) fresh_lab
      = (Ok (server01_id, server02_id, host02_id), w1) ->
      verify
        (fun server_id =>
           on_console (Console.flaky_get_remote_console server_id))
        (fun url => on_console (Console.flaky_create_websocket url))
        (fun x d => on_console (Console.flaky_send_frame x d))
        (fun x => on_console (Console.flaky_receive_frame x))
        (fun x => on_console (Console.flaky_close x))
        (fun _ l => l) server01_id (w1, []) = Some (Ok tt, s2) ->
      verify
        (fun server_id =>
           on_console (Console.flaky_get_remote_console server_id))
        (fun url => on_console (Console.flaky_create_websocket url))
        (fun x d => on_console (Console.flaky_send_frame x d))
        (fun x => on_console (Console.flaky_receive_frame x))
        (fun x => on_console (Console.flaky_close x))
        (fun _ l => l) server02_id s2 = Some (Ok tt, s3) ->
      lab_test consoles_class fresh_lab
      = Some (Raise (AttributeError "block_migration"), s3)).
Proof.
  apply (serial_console_test_needs_the_block_migration_attribute
           grenade_conf lab_get_host
           (fun server_id dest bm doc =>
              on_cloud (cloud_live_migrate server_id dest bm doc))
           (fun c server_id state => on_cloud (cloud_wait c server_id state))
           (on_cloud cloud_list_migrations) (fun m => Some (fst m)) snd
           lab_create_test_server
           (fun server_id =>
              on_console (Console.flaky_get_remote_console server_id))
           (fun url => on_console (Console.flaky_create_websocket url))
           (fun x d => on_console (Console.flaky_send_frame x d))
           (fun x => on_console (Console.flaky_receive_frame x))
           (fun x => on_console (Console.flaky_close x))
           (fun _ l => l) (fun s => s) consoles_class fresh_lab).
  reflexivity.
Defined.

(** The run of the class as written: both consoles answer, then the
    migration step raises. *)
Example consoles_class_run :
  lab_test consoles_class fresh_lab
  = Some (Raise (AttributeError "block_migration"),
          ((healthy_cloud, (3, 0)),
           [Console.EvCreate 0; Console.EvSend 0; Console.EvCreate 1;
            Console.EvSend 1; Console.EvRecv 1; Console.EvClose 1;
            Console.EvAssert;
            Console.EvCreate 2; Console.EvSend 2; Console.EvRecv 2;
            Console.EvClose 2; Console.EvAssert])).
Proof. vm_compute. reflexivity. Qed.

(** The same test in a class that declares [block_migration]. *)
Definition lab_after : lab :=
  Eval vm_compute in
    match lab_test test_class fresh_lab with
    | Some (_, (l, _)) => l
    | None => fresh_lab
    end.

Definition lab_events : list Console.event :=
  Eval vm_compute in
    match lab_test test_class fresh_lab with
    | Some (_, (_, evs)) => evs
    | None => []
    end.


End MigrationFlow.

(** * Ports and trunks ([test_live_migration.py]) *)

Module Trunk.
Import Cleanup.

Tactic Notation "bind_inv" hyp(H) "as" ident(a) ident(w) ident(Ha) :=
  apply bind_Ok_inv in H as (a & w & Ha & H).

(** What the class registers for cleanup: the deletions of
    [_create_net_subnet], and the deletion of a port or of a trunk
    wrapped in [test_utils.call_and_ignore_notfound_exc]. *)
Inductive trunk_action : Type :=
| NetCleanup (a : action)
| DeletePortIgnoringNotFound (port_id : string)
| DeleteTrunkIgnoringNotFound (trunk_id : string).

(** An entry of [sub_ports]. *)
Record subport_spec : Type := {
  segmentation_id : Z;
  port_id : string;
  segmentation_type : string
}.

Section Trunks.

Context {World : Type}.

(** [data_utils.rand_name], the network clients (each returning the
    object under the key of its resource) and [get_tenant_network] of
    the base class. *)
Variable rand_name : string -> M World string.
Variable create_network : string -> M World jobject.
Variable create_subnet : string -> string -> Z -> M World jobject.
Variable create_port : string -> string -> M World jobject.
Variable get_tenant_network : M World jobject.
Variable create_trunk :
  string -> string -> list subport_spec -> M World jobject.
Variable show_port : string -> M World jobject.

(** A helper that registers network cleanups, run on the registry of
    the class: what it pushes is pushed there. *)
Definition with_net_cleanups {A} (c : M (@ClassState World action) A)
  : M (@ClassState World trunk_action) A :=
  fun s =>
    match c {| world := world s; cleanups := [] |} with
    | (r, s') =>
        (r, {| world := world s';
               cleanups := map NetCleanup (cleanups s') ++ cleanups s |})
    end.

(** [_create_port] *)
Definition _create_port (network_id name : string)
  : M (@ClassState World trunk_action) jobject :=
  name' <~ remote (rand_name name) ;;
  port <~ remote (create_port name' network_id) ;;
  port_id <~ lift (getitem port "id") ;;
  addClassResourceCleanup (DeletePortIgnoringNotFound port_id) ;;;
  ret port.

(** [_create_trunk_with_subport] *)
Definition _create_trunk_with_subport
  : M (@ClassState World trunk_action) (jobject * jobject * jobject) :=
  tenant_network <~ remote get_tenant_network ;;
  tenant_network_id <~ lift (getitem tenant_network "id") ;;
  parent <~ _create_port tenant_network_id "parent" ;;
  net <~ with_net_cleanups
           (_create_net_subnet rand_name create_network create_subnet
              "subport_net" "19.80.0.0/24") ;;
  net_id <~ lift (getitem net "id") ;;
  subport <~ _create_port net_id "subport" ;;
  trunk_name <~ remote (rand_name "trunk") ;;
  parent_id <~ lift (getitem parent "id") ;;
  subport_id <~ lift (getitem subport "id") ;;
  trunk <~ remote (create_trunk trunk_name parent_id
                     [{| segmentation_id := 42; port_id := subport_id;
                         segmentation_type := "vlan" |}]) ;;
  trunk_id <~ lift (getitem trunk "id") ;;
  addClassResourceCleanup (DeleteTrunkIgnoringNotFound trunk_id) ;;;
  ret (trunk, parent, subport).

(** [_is_port_status_active] *)
Definition _is_port_status_active (port_id : string) : M World bool :=
  port <~ show_port port_id ;;
  status <~ lift (getitem port "status") ;;
  ret (String.eqb status "ACTIVE").

Lemma ret_Ok {St A} (a b : A) (s s' : St) :
  ret a s = (Ok b, s') -> a = b /\ s = s'.
Proof. unfold ret. intros H. inversion H. split; reflexivity. Qed.

Lemma lift_Ok_eq {St A} (r : result A) (s s' : St) a :
  lift r s = (Ok a, s') -> r = Ok a /\ s' = s.
Proof. unfold lift. intros H. inversion H. split; reflexivity. Qed.

Lemma remote_Ok {Action A} (c : M World A) (s s' : @ClassState World Action)
    a :
  remote c s = (Ok a, s') -> cleanups s' = cleanups s.
Proof.
  unfold remote. destruct (c (world s)) as [r w']. intros H.
  now inversion H.
Qed.

Lemma create_port_registers network_id name s port s' :
  _create_port network_id name s = (Ok port, s') ->
  exists port_id,
    getitem port "id" = Ok port_id /\
    cleanups s' = DeletePortIgnoringNotFound port_id :: cleanups s.
Proof.
  intros H. unfold _create_port in H.
  bind_inv H as n s1 H1. apply remote_Ok in H1.
  bind_inv H as p s2 H2. apply remote_Ok in H2.
  bind_inv H as i s3 H3. apply lift_Ok_eq in H3 as [H3 ->].
  bind_inv H as u s4 H4. apply ret_Ok in H as [<- <-].
  unfold addClassResourceCleanup in H4. inversion H4; subst s4. simpl.
  exists i. split; [exact H3 |]. now rewrite H2, H1.
Qed.

Lemma with_net_cleanups_registers name cidr s net s' :
  with_net_cleanups
    (_create_net_subnet rand_name create_network create_subnet name cidr) s
  = (Ok net, s') ->
  exists network_id subnet_id,
    getitem net "id" = Ok network_id /\
    cleanups s'
    = NetCleanup (DeleteSubnet subnet_id)
      :: NetCleanup (DeleteNetwork network_id) :: cleanups s.
Proof.
  unfold with_net_cleanups. intros H.
  destruct (_create_net_subnet rand_name create_network create_subnet
              name cidr {| world := world s; cleanups := [] |})
    as [r s0] eqn:E.
  inversion H; subst r s'. clear H.
  destruct (create_net_subnet_registers _ _ _ _ _ _ _ _ E)
    as (nid & sid & Hid & Hc).
  exists nid, sid. split; [exact Hid |]. simpl. now rewrite Hc.
Qed.


End Trunks.

(** ** Nothing created is left unregistered *)

(** A resource the network service created, with the object it
    answered. *)
Inductive created : Type :=
| CreatedPort (body : jobject)
| CreatedNetwork (body : jobject)
| CreatedSubnet (body : jobject)
| CreatedTrunk (body : jobject).

(** The cleanup a created resource calls for; none can be registered
    for an answer without ['id']. *)
Definition cleanup_for (c : created) : list trunk_action :=
  match c with
  | CreatedPort body =>
      match getitem body "id" with
      | Ok i => [DeletePortIgnoringNotFound i]
      | Raise _ => []
      end
  | CreatedNetwork body =>
      match getitem body "id" with
      | Ok i => [NetCleanup (DeleteNetwork i)]
      | Raise _ => []
      end
  | CreatedSubnet body =>
      match getitem body "id" with
      | Ok i => [NetCleanup (DeleteSubnet i)]
      | Raise _ => []
      end
  | CreatedTrunk body =>
      match getitem body "id" with
      | Ok i => [DeleteTrunkIgnoringNotFound i]
      | Raise _ => []
      end
  end.

Section Recorded.

Context {World : Type}.

Variable rand_name : string -> M World string.
Variable create_network : string -> M World jobject.
Variable create_subnet : string -> string -> Z -> M World jobject.
Variable create_port : string -> string -> M World jobject.
Variable get_tenant_network : M World jobject.
Variable create_trunk :
  string -> string -> list subport_spec -> M World jobject.

(** The world and the resources created so far. *)
Definition Recorded : Type := World * list created.

(** A creation, recorded when the service answers. *)
Definition recording (kind : jobject -> created) (op : M World jobject)
  : M Recorded jobject :=
  fun s =>
    match op (fst s) with
    | (Ok body, w') => (Ok body, (w', snd s ++ [kind body]))
    | (Raise e, w') => (Raise e, (w', snd s))
    end.

(** A call that creates nothing. *)
Definition plain {A} (op : M World A) : M Recorded A :=
  fun s =>
    match op (fst s) with
    | (r, w') => (r, (w', snd s))
    end.

Definition recorded_create_port (network_id name : string) :=
  _create_port (fun name => plain (rand_name name))
    (fun name network_id =>
       recording CreatedPort (create_port name network_id))
    network_id name.

Definition recorded_create_net_subnet (name cidr : string) :=
  with_net_cleanups
    (_create_net_subnet (fun name => plain (rand_name name))
       (fun name => recording CreatedNetwork (create_network name))
       (fun network_id cidr ip_version =>
          recording CreatedSubnet (create_subnet network_id cidr ip_version))
       name cidr).

Definition recorded_create_trunk_with_subport :=
  _create_trunk_with_subport (fun name => plain (rand_name name))
    (fun name => recording CreatedNetwork (create_network name))
    (fun network_id cidr ip_version =>
       recording CreatedSubnet (create_subnet network_id cidr ip_version))
    (fun name network_id =>
       recording CreatedPort (create_port name network_id))
    (plain get_tenant_network)
    (fun name port_id sub_ports =>
       recording CreatedTrunk (create_trunk name port_id sub_ports)).

(** Whatever its outcome, [c] leaves on the stack the cleanups of all
    it created, last created on top. *)
Definition tidy {A} (c : M (@ClassState Recorded trunk_action) A) : Prop :=
  forall s r s',
    c s = (r, s') ->
    exists new,
      snd (world s') = snd (world s) ++ new /\
      cleanups s' = rev (flat_map cleanup_for new) ++ cleanups s.

Lemma tidy_nothing {A} (c : M (@ClassState Recorded trunk_action) A) :
  (forall s r s', c s = (r, s') ->
                  snd (world s') = snd (world s) /\
                  cleanups s' = cleanups s) ->
  tidy c.
Proof.
  intros Hc s r s' H. destruct (Hc _ _ _ H) as [Hw Hk].
  exists []. now rewrite app_nil_r, Hw, Hk.
Qed.

Lemma tidy_ret {A} (a : A) : tidy (ret a).
Proof. apply tidy_nothing. intros s r s' H. now inversion H. Qed.

Lemma tidy_lift {A} (x : result A) : tidy (lift x).
Proof. apply tidy_nothing. intros s r s' H. now inversion H. Qed.

Lemma tidy_plain {A} (op : M World A) : tidy (remote (plain op)).
Proof.
  apply tidy_nothing. intros s r s' H. unfold remote, plain in H.
  destruct (op (fst (world s))) as [r0 w']. now inversion H.
Qed.

Lemma tidy_bind {A B} (c : M (@ClassState Recorded trunk_action) A)
    (k : A -> M (@ClassState Recorded trunk_action) B) :
  tidy c -> (forall a, tidy (k a)) -> tidy (bind c k).
Proof.
  intros Hc Hk s r s' H. unfold bind in H.
  destruct (c s) as [[a|e] s1] eqn:E.
  - destruct (Hc _ _ _ E) as (n1 & W1 & K1).
    destruct (Hk a _ _ _ H) as (n2 & W2 & K2).
    exists (n1 ++ n2). rewrite W2, W1, K2, K1, flat_map_app, rev_app_distr.
    now rewrite !app_assoc.
  - inversion H; subst. exact (Hc _ _ _ E).
Qed.

(** A creation followed at once by the registration of its cleanup. *)
Lemma tidy_create_and_register {A} (kind : jobject -> created)
    (act : string -> trunk_action) (op : M World jobject)
    (k : jobject -> M (@ClassState Recorded trunk_action) A) :
  (forall body, cleanup_for (kind body)
                = match getitem body "id" with
                  | Ok i => [act i]
                  | Raise _ => []
                  end) ->
  (forall body, tidy (k body)) ->
  tidy (body <~ remote (recording kind op) ;;
        i <~ lift (getitem body "id") ;;
        addClassResourceCleanup (act i) ;;;
        k body).
Proof.
  intros Hkind Hk s r s' H.
  unfold bind at 1, remote, recording in H.
  destruct (op (fst (world s))) as [[body|e] w'] eqn:E.
  - unfold bind at 1, lift in H.
    destruct (getitem body "id") as [i|e] eqn:Ei.
    + unfold bind at 1, addClassResourceCleanup in H. simpl in H.
      destruct (Hk body _ _ _ H) as (n2 & W2 & K2). simpl in W2, K2.
      exists (kind body :: n2). rewrite W2, K2. simpl.
      rewrite Hkind, Ei. simpl.
      rewrite <- !app_assoc. split; reflexivity.
    + inversion H; subst. simpl. exists [kind body].
      split; [reflexivity |]. simpl. now rewrite Hkind, Ei.
  - inversion H; subst. simpl. exists [].
    now rewrite app_nil_r.
Qed.

Lemma tidy_create_port network_id name :
  tidy (recorded_create_port network_id name).
Proof.
  unfold recorded_create_port, _create_port.
  apply tidy_bind; [apply tidy_plain |]. intros name'.
  apply (tidy_create_and_register CreatedPort DeletePortIgnoringNotFound).
  - reflexivity.
  - intros body. apply tidy_ret.
Qed.

Lemma tidy_create_net_subnet name cidr :
  tidy (recorded_create_net_subnet name cidr).
Proof.
  intros s r s' H.
  unfold recorded_create_net_subnet, with_net_cleanups, _create_net_subnet
    in H.
  unfold bind, remote, plain, recording, lift, addClassResourceCleanup, ret
    in H.
  simpl in H.
  destruct (rand_name name (fst (world s))) as [[n|e] w1]; simpl in H.
  2:{ inversion H; subst. simpl. exists []. now rewrite app_nil_r. }
  destruct (create_network n w1) as [[net|e] w2]; simpl in H.
  2:{ inversion H; subst. simpl. exists []. now rewrite app_nil_r. }
  destruct (getitem net "id") as [nid|e] eqn:En; simpl in H.
  2:{ inversion H; subst. simpl. exists [CreatedNetwork net].
      split; [reflexivity |]. simpl. now rewrite En. }
  destruct (create_subnet nid cidr 4 w2) as [[sub|e] w3]; simpl in H.
  2:{ inversion H; subst. simpl. exists [CreatedNetwork net].
      split; [reflexivity |]. simpl. now rewrite En. }
  destruct (getitem sub "id") as [sid|e] eqn:Es; simpl in H.
  - inversion H; subst. simpl.
    exists [CreatedNetwork net; CreatedSubnet sub].
    split; [now rewrite <- app_assoc |]. simpl. now rewrite En, Es.
  - inversion H; subst. simpl.
    exists [CreatedNetwork net; CreatedSubnet sub].
    split; [now rewrite <- app_assoc |]. simpl. now rewrite En, Es.
Qed.

(** X10.  At every exit of [_create_trunk_with_subport], normal or
    not, the cleanups it put on the stack are exactly those of the
    ports, network, subnet and trunk the service created for it, the
    last created on top: no resource whose answer carries an ['id'] is
    left without its deletion registered, whichever call fails. *)
Theorem trunk_setup_registers_all_it_created
    (s s' : @ClassState Recorded trunk_action)
    (r : result (jobject * jobject * jobject)) :
  recorded_create_trunk_with_subport s = (r, s') ->
  exists new,
    snd (world s') = snd (world s) ++ new /\
    cleanups s' = rev (flat_map cleanup_for new) ++ cleanups s.
Proof.
  revert s r s'. change (tidy recorded_create_trunk_with_subport).
  unfold recorded_create_trunk_with_subport, _create_trunk_with_subport.
  apply tidy_bind; [apply tidy_plain |]. intros tenant_network.
  apply tidy_bind; [apply tidy_lift |]. intros tenant_network_id.
  apply tidy_bind; [apply tidy_create_port |]. intros parent.
  apply tidy_bind; [apply tidy_create_net_subnet |]. intros net.
  apply tidy_bind; [apply tidy_lift |]. intros net_id.
  apply tidy_bind; [apply tidy_create_port |]. intros subport.
  apply tidy_bind; [apply tidy_plain |]. intros trunk_name.
  apply tidy_bind; [apply tidy_lift |]. intros parent_id.
  apply tidy_bind; [apply tidy_lift |]. intros subport_id.
  apply (tidy_create_and_register CreatedTrunk DeleteTrunkIgnoringNotFound).
  - reflexivity.
  - intros body. apply tidy_ret.
Qed.

End Recorded.

(** ** A network service to run the helpers on *)

(** The service numbers what it creates; [fails_at] is the number of
    the creation it refuses, if any. *)
Record netsvc : Type := {
  next : nat;
  fails_at : option nat
}.

Definition netsvc_create (prefix : string) : M netsvc jobject :=
  fun n =>
    let n' := {| next := S (next n); fails_at := fails_at n |} in
    if match fails_at n with
       | Some k => Nat.eqb k (next n)
       | None => false
       end
    then (Raise (RemoteError "HTTP 409"), n')
    else (Ok [("id", String.append prefix
                       (String (Ascii.ascii_of_nat (48 + next n)) ""))], n').

Definition netsvc_trunk (n : netsvc) :=
  recorded_create_trunk_with_subport (fun name w => (Ok name, w))
    (fun _ => netsvc_create "net-")
    (fun _ _ _ => netsvc_create "subnet-")
    (fun _ _ => netsvc_create "port-")
    (fun w => (Ok [("id", "tenant-net")], w))
    (fun _ _ _ => netsvc_create "trunk-")
    {| world := (n, []); cleanups := [] |}.

(** Every creation succeeds. *)
Example trunk_setup_run :
  cleanups (snd (netsvc_trunk {| next := 0; fails_at := None |}))
  = [DeleteTrunkIgnoringNotFound "trunk-4";
     DeletePortIgnoringNotFound "port-3";
     NetCleanup (DeleteSubnet "subnet-2");
     NetCleanup (DeleteNetwork "net-1");
     DeletePortIgnoringNotFound "port-0"].
Proof. vm_compute. reflexivity. Qed.

(** The subnet is refused: the parent port and the network, which
    exist, are registered. *)
Example trunk_setup_failing_run :
  netsvc_trunk {| next := 0; fails_at := Some 2 |}
  = (Raise (RemoteError "HTTP 409"),
     {| world := ({| next := 3; fails_at := Some 2 |},
                  [CreatedPort [("id", "port-0")];
                   CreatedNetwork [("id", "net-1")]]);
        cleanups := [NetCleanup (DeleteNetwork "net-1");
                     DeletePortIgnoringNotFound "port-0"] |}).
Proof. vm_compute. reflexivity. Qed.


Lemma trunk_setup_registers_all_it_created_witness :
  exists new,
    snd (world (snd (netsvc_trunk {| next := 0; fails_at := Some 2 |})))
    = [] ++ new /\
    cleanups (snd (netsvc_trunk {| next := 0; fails_at := Some 2 |}))
    = rev (flat_map cleanup_for new) ++ [].
Proof.
  apply (trunk_setup_registers_all_it_created
           (fun name w => (Ok name, w))
           (fun _ => netsvc_create "net-")
           (fun _ _ _ => netsvc_create "subnet-")
           (fun _ _ => netsvc_create "port-")
           (fun w => (Ok [("id", "tenant-net")], w))
           (fun _ _ _ => netsvc_create "trunk-")
           {| world := ({| next := 0; fails_at := Some 2 |}, []);
              cleanups := [] |}
           _ (fst (netsvc_trunk {| next := 0; fails_at := Some 2 |}))).
  vm_compute. reflexivity.
Defined.

End Trunk.

(** * The endpoints fixture ([test_endpoints.py]) *)

Module Endpoints.
Import Cleanup.

(** A response body: a JSON object whose values are objects. *)
Definition jbody : Type := list (string * jobject).

(** [body[key]] *)
Fixpoint body_getitem (body : jbody) (key : string) : result jobject :=
  match body with
  | [] => Raise (KeyError key)
  | (k, v) :: rest =>
      if String.eqb k key then Ok v else body_getitem rest key
  end.

(** What [cls.service_data] holds: first the response, then its
    ['service']. *)
Inductive service_data_value : Type :=
| Response (body : jbody)
| Service (o : jobject).

(** The class attributes [resource_setup] assigns; [None] for an
    attribute that is not set. *)
Record Attrs : Type := {
  service_ids : option (list string);
  service_data : option service_data_value;
  service_id : option string;
  setup_endpoints : option (list jobject)
}.

Definition no_attrs : Attrs :=
  {| service_ids := None; service_data := None; service_id := None;
     setup_endpoints := None |}.

Section Fixture.

Context {World : Type}.

(** [super().resource_setup()], [data_utils] and the identity
    clients. *)
Variable super_resource_setup : M World unit.
Variable rand_name : string -> M World string.
Variable rand_url : M World string.
Variable create_service : string -> string -> string -> M World jbody.
Variable create_endpoint :
  string -> string -> string -> string -> bool -> M World jbody.

(** The world and the class. *)
Record Class : Type := {
  world : World;
  attrs : Attrs
}.

Definition remote {A} (c : M World A) : M Class A :=
  fun s =>
    match c (world s) with
    | (r, w') => (r, {| world := w'; attrs := attrs s |})
    end.

Definition set_attrs (f : Attrs -> Attrs) : M Class unit :=
  fun s => (Ok tt, {| world := world s; attrs := f (attrs s) |}).

(** Reading a class attribute. *)
Definition get_attr {A} (name : string) (f : Attrs -> option A)
  : M Class A :=
  fun s =>
    match f (attrs s) with
    | Some a => (Ok a, s)
    | None => (Raise (AttributeError name), s)
    end.

Definition set_service_ids (l : list string) : M Class unit :=
  set_attrs (fun a =>
    {| service_ids := Some l; service_data := service_data a;
       service_id := service_id a; setup_endpoints := setup_endpoints a |}).

Definition set_service_data (v : service_data_value) : M Class unit :=
  set_attrs (fun a =>
    {| service_ids := service_ids a; service_data := Some v;
       service_id := service_id a; setup_endpoints := setup_endpoints a |}).

Definition set_service_id (i : string) : M Class unit :=
  set_attrs (fun a =>
    {| service_ids := service_ids a; service_data := service_data a;
       service_id := Some i; setup_endpoints := setup_endpoints a |}).

Definition set_setup_endpoints (l : list jobject) : M Class unit :=
  set_attrs (fun a =>
    {| service_ids := service_ids a; service_data := service_data a;
       service_id := service_id a; setup_endpoints := Some l |}).

(** One round of the loop that creates the endpoints. *)
Definition create_setup_endpoint : M Class unit :=
  region <~ remote (rand_name "region") ;;
  url <~ remote rand_url ;;
  sid <~ get_attr "service_id" service_id ;;
  body <~ remote (create_endpoint sid "public" url region true) ;;
  endpoint <~ lift (body_getitem body "endpoint") ;;
  l <~ get_attr "setup_endpoints" setup_endpoints ;;
  set_setup_endpoints (l ++ [endpoint]).

(** [resource_setup].  [cls.service_data] is read back right after it
    is assigned: what is read is what was assigned. *)
Definition resource_setup : M Class unit :=
  remote super_resource_setup ;;;
  set_service_ids [] ;;;
  s_name <~ remote (rand_name "service") ;;
  s_type <~ remote (rand_name "type") ;;
  s_description <~ remote (rand_name "description") ;;
  body <~ remote (create_service s_name s_type s_description) ;;
  set_service_data (Response body) ;;;
  service <~ lift (body_getitem body "service") ;;
  set_service_data (Service service) ;;;
  i <~ lift (getitem service "id") ;;
  set_service_id i ;;;
  ids <~ get_attr "service_ids" service_ids ;;
  sid <~ get_attr "service_id" service_id ;;
  set_service_ids (ids ++ [sid]) ;;;
  set_setup_endpoints [] ;;;
  for_each [0; 1]%nat (fun _ => create_setup_endpoint).

End Fixture.

Arguments Class World : clear implicits.

Section Teardown.

Context {World : Type}.

Variable delete_endpoint : string -> M World unit.
Variable delete_service : string -> M World unit.
Variable super_resource_cleanup : M World unit.

(** [resource_cleanup], on the attributes of the class: the first
    loop reads [cls.setup_endpoints], the second [cls.service_ids]. *)
Definition class_resource_cleanup (a : Attrs)
  : M (@Logged World) unit :=
  match setup_endpoints a with
  | None => raise (AttributeError "setup_endpoints")
  | Some endpoints =>
      match service_ids a with
      | Some ids =>
          resource_cleanup delete_endpoint delete_service
            super_resource_cleanup endpoints ids
      | None =>
          for_each endpoints
            (fun e =>
               endpoint_id <~ lift (getitem e "id") ;;
               issue (DeleteEndpoint endpoint_id)
                 (delete_endpoint endpoint_id)) ;;;
          raise (AttributeError "service_ids")
      end
  end.

End Teardown.

Tactic Notation "bind_inv" hyp(H) "as" ident(a) ident(w) ident(Ha) :=
  apply bind_Ok_inv in H as (a & w & Ha & H).

Section Properties.

Context {World : Type}.

Variable super_resource_setup : M World unit.
Variable rand_name : string -> M World string.
Variable rand_url : M World string.
Variable create_service : string -> string -> string -> M World jbody.
Variable create_endpoint :
  string -> string -> string -> string -> bool -> M World jbody.
Variable delete_endpoint : string -> M World unit.
Variable delete_service : string -> M World unit.
Variable super_resource_cleanup : M World unit.

Abbreviation setup :=
  (resource_setup super_resource_setup rand_name rand_url create_service
     create_endpoint).
Abbreviation one_endpoint :=
  (create_setup_endpoint rand_name rand_url create_endpoint).
Abbreviation teardown :=
  (class_resource_cleanup delete_endpoint delete_service
     super_resource_cleanup).

Lemma remote_returns {A} (c : M World A) (s s' : Class World) a :
  remote c s = (Ok a, s') ->
  c (world s) = (Ok a, world s') /\ attrs s' = attrs s.
Proof.
  unfold remote. destruct (c (world s)) as [r w'] eqn:E. intros H.
  inversion H; subst. simpl. auto.
Qed.

Lemma set_attrs_returns f (s s' : Class World) u :
  set_attrs f s = (Ok u, s') ->
  s' = {| world := world s; attrs := f (attrs s) |}.
Proof. unfold set_attrs. intros H. now inversion H. Qed.

Lemma get_attr_returns {A} name (f : Attrs -> option A)
    (s s' : Class World) a :
  get_attr name f s = (Ok a, s') -> f (attrs s) = Some a /\ s' = s.
Proof.
  unfold get_attr. destruct (f (attrs s)) as [x|]; intros H;
    inversion H; subst; auto.
Qed.

Lemma lift_returns {St A} (r : result A) (s s' : St) a :
  lift r s = (Ok a, s') -> r = Ok a /\ s' = s.
Proof. unfold lift. intros H. inversion H. split; reflexivity. Qed.

(** A round of the loop that goes well appends the endpoint the
    service answered. *)
Lemma one_endpoint_returns (s s' : Class World) u :
  one_endpoint s = (Ok u, s') ->
  exists region url sid body endpoint l w1 w2,
    rand_name "region" (world s) = (Ok region, w1) /\
    rand_url w1 = (Ok url, w2) /\
    service_id (attrs s) = Some sid /\
    create_endpoint sid "public" url region true w2 = (Ok body, world s') /\
    body_getitem body "endpoint" = Ok endpoint /\
    setup_endpoints (attrs s) = Some l /\
    service_ids (attrs s') = service_ids (attrs s) /\
    service_id (attrs s') = service_id (attrs s) /\
    setup_endpoints (attrs s') = Some (l ++ [endpoint]).
Proof.
  intros H. unfold create_setup_endpoint in H.
  bind_inv H as region s1 H1. apply remote_returns in H1 as [H1 A1].
  bind_inv H as url s2 H2. apply remote_returns in H2 as [H2 A2].
  bind_inv H as sid s3 H3. apply get_attr_returns in H3 as [H3 ->].
  bind_inv H as body s4 H4. apply remote_returns in H4 as [H4 A4].
  bind_inv H as e s5 H5. apply lift_returns in H5 as [H5 ->].
  bind_inv H as l s6 H6. apply get_attr_returns in H6 as [H6 ->].
  apply set_attrs_returns in H. subst s'. simpl.
  rewrite A4, A2, A1 in *.
  exists region, url, sid, body, e, l, (world s1), (world s2).
  repeat split; assumption.
Qed.


End Properties.

(** ** Every exit of [resource_setup] *)

(** The endpoint a response of [create_endpoint] carries, if any. *)
Definition endpoint_of (body : jbody) : list jobject :=
  match body_getitem body "endpoint" with
  | Ok e => [e]
  | Raise _ => []
  end.

Section AllExits.

Context {World : Type}.

Variable super_resource_setup : M World unit.
Variable rand_name : string -> M World string.
Variable rand_url : M World string.
Variable create_service : string -> string -> string -> M World jbody.
Variable create_endpoint :
  string -> string -> string -> string -> bool -> M World jbody.
Variable delete_endpoint : string -> M World unit.
Variable delete_service : string -> M World unit.
Variable super_resource_cleanup : M World unit.

(** The world and the answers [create_endpoint] has given. *)
Definition Recorded : Type := World * list jbody.

Definition plain {A} (op : M World A) : M Recorded A :=
  fun s =>
    match op (fst s) with
    | (r, w') => (r, (w', snd s))
    end.

Definition recording (op : M World jbody) : M Recorded jbody :=
  fun s =>
    match op (fst s) with
    | (Ok body, w') => (Ok body, (w', snd s ++ [body]))
    | (Raise e, w') => (Raise e, (w', snd s))
    end.

Definition recorded_one_endpoint : M (Class Recorded) unit :=
  create_setup_endpoint (fun name => plain (rand_name name)) (plain rand_url)
    (fun sid interface url region enabled =>
       recording (create_endpoint sid interface url region enabled)).

Definition recorded_setup : M (Class Recorded) unit :=
  resource_setup (plain super_resource_setup)
    (fun name => plain (rand_name name)) (plain rand_url)
    (fun name type description =>
       plain (create_service name type description))
    (fun sid interface url region enabled =>
       recording (create_endpoint sid interface url region enabled)).

(** Once the list exists, a round of the loop leaves in it the
    endpoints it held and the one just created, whatever its
    outcome. *)
Lemma recorded_one_endpoint_exits (s s' : Class Recorded) r ids l :
  service_ids (attrs s) = Some ids ->
  setup_endpoints (attrs s) = Some l ->
  recorded_one_endpoint s = (r, s') ->
  exists new,
    snd (world s') = snd (world s) ++ new /\
    service_ids (attrs s') = Some ids /\
    setup_endpoints (attrs s') = Some (l ++ flat_map endpoint_of new).
Proof.
  intros Hids Hl H.
  unfold recorded_one_endpoint, create_setup_endpoint in H.
  unfold bind, remote, plain, recording, get_attr, lift, set_setup_endpoints,
    set_attrs in H.
  simpl in H.
  destruct (rand_name "region" (fst (world s))) as [[region|e] w1];
    simpl in H.
  2:{ inversion H; subst. simpl. exists []. now rewrite !app_nil_r. }
  destruct (rand_url w1) as [[url|e] w2]; simpl in H.
  2:{ inversion H; subst. simpl. exists []. now rewrite !app_nil_r. }
  destruct (service_id (attrs s)) as [sid|]; simpl in H.
  2:{ inversion H; subst. simpl. exists []. now rewrite !app_nil_r. }
  destruct (create_endpoint sid "public" url region true w2)
    as [[body|e] w3]; simpl in H.
  2:{ inversion H; subst. simpl. exists []. now rewrite !app_nil_r. }
  destruct (body_getitem body "endpoint") as [endpoint|e] eqn:Eb;
    simpl in H.
  - rewrite Hl in H. inversion H; subst. simpl. exists [body].
    unfold endpoint_of. simpl. rewrite Eb. simpl.
    split; [reflexivity |]. split; [exact Hids | reflexivity].
  - inversion H; subst. simpl. exists [body].
    unfold endpoint_of. simpl. rewrite Eb. simpl.
    rewrite app_nil_r. auto.
Qed.

Lemma recorded_loop_exits (s s' : Class Recorded) r ids l :
  service_ids (attrs s) = Some ids ->
  setup_endpoints (attrs s) = Some l ->
  for_each [0; 1]%nat (fun _ => recorded_one_endpoint) s = (r, s') ->
  exists new,
    snd (world s') = snd (world s) ++ new /\
    service_ids (attrs s') = Some ids /\
    setup_endpoints (attrs s') = Some (l ++ flat_map endpoint_of new).
Proof.
  intros Hids Hl H. simpl in H. unfold bind at 1 in H.
  destruct (recorded_one_endpoint s) as [[[]|e] s1] eqn:E1.
  - destruct (recorded_one_endpoint_exits _ _ _ _ _ Hids Hl E1)
      as (n1 & W1 & I1 & L1).
    unfold bind at 1 in H.
    destruct (recorded_one_endpoint s1) as [[[]|e] s2] eqn:E2.
    + destruct (recorded_one_endpoint_exits _ _ _ _ _ I1 L1 E2)
        as (n2 & W2 & I2 & L2).
      unfold ret in H. inversion H; subst s'.
      exists (n1 ++ n2). rewrite W2, W1, L2, flat_map_app.
      now rewrite <- !app_assoc.
    + destruct (recorded_one_endpoint_exits _ _ _ _ _ I1 L1 E2)
        as (n2 & W2 & I2 & L2).
      inversion H; subst s'.
      exists (n1 ++ n2). rewrite W2, W1, L2, flat_map_app.
      now rewrite <- !app_assoc.
  - inversion H; subst s'.
    exact (recorded_one_endpoint_exits _ _ _ _ _ Hids Hl E1).
Qed.


End AllExits.

(** ** An identity service to run the fixture on *)

(** The service numbers what it creates; [refuses] is the number of
    the creation it refuses, if any. *)
Record identity : Type := {
  created_so_far : nat;
  refuses : option nat
}.

Definition identity_create (key prefix : string) : M identity jbody :=
  fun n =>
    let n' := {| created_so_far := S (created_so_far n);
                 refuses := refuses n |} in
    if match refuses n with
       | Some k => Nat.eqb k (created_so_far n)
       | None => false
       end
    then (Raise (RemoteError "HTTP 500"), n')
    else (Ok [(key,
               [("id",
                 String.append prefix
                   (String (Ascii.ascii_of_nat (48 + created_so_far n))
                      ""))])], n').

Definition identity_setup (n : identity) :=
  recorded_setup (ret tt) (fun name w => (Ok name, w))
    (fun w => (Ok "http://localhost", w))
    (fun _ _ _ => identity_create "service" "service-")
    (fun _ _ _ _ _ => identity_create "endpoint" "endpoint-")
    {| world := (n, []); attrs := no_attrs |}.

Definition healthy_identity : identity :=
  {| created_so_far := 0; refuses := None |}.

Definition class_after_setup : Class identity :=
  Eval vm_compute in
    match identity_setup healthy_identity with
    | (_, s) => {| world := fst (world s); attrs := attrs s |}
    end.


(** The fixture set up and torn down on the healthy service. *)
Example setup_then_cleanup_run :
  class_resource_cleanup (fun _ w => (Ok tt, w)) (fun _ w => (Ok tt, w))
    (ret tt) (attrs class_after_setup) (world class_after_setup, [])
  = (Ok tt,
     (world class_after_setup,
      [DeleteEndpoint "endpoint-1"; DeleteEndpoint "endpoint-2";
       DeleteService "service-0"])).
Proof. vm_compute. reflexivity. Qed.


(** The second endpoint is refused: the class holds the first one and
    the service. *)
Example setup_refused_run :
  attrs (snd (identity_setup {| created_so_far := 0; refuses := Some 2 |}))
  = {| service_ids := Some ["service-0"];
       service_data := Some (Service [("id", "service-0")]);
       service_id := Some "service-0";
       setup_endpoints := Some [[("id", "endpoint-1")]] |}.
Proof. vm_compute. reflexivity. Qed.

(** The service itself is refused: no list of endpoints, and
    [resource_cleanup] raises. *)
Example setup_without_service_run :
  attrs (snd (identity_setup {| created_so_far := 0; refuses := Some 0 |}))
  = {| service_ids := Some []; service_data := None; service_id := None;
       setup_endpoints := None |}.
Proof. vm_compute. reflexivity. Qed.

End Endpoints.

(** * Volume backups ([test_volumes_backup.py]) *)

Module Backup.
Import Cleanup.

Tactic Notation "bind_inv" hyp(H) "as" ident(a) ident(w) ident(Ha) :=
  apply bind_Ok_inv in H as (a & w & Ha & H).

(** [self.volumes_client] and [self.backups_client]. *)
Inductive volume_client : Type :=
| VolumesClient
| BackupsClient.

(** A call put on the cleanup stack of the test by [addCleanup]:
    [self.delete_volume] with a client and the id of a volume. *)
Inductive test_cleanup : Type :=
| DeleteVolume (c : volume_client) (volume_id : string).

(** A scalar of a response. *)
Inductive jval : Type :=
| JNull
| JBool (b : bool)
| JInt (z : Z)
| JStr (s : string).

(** The truth value Python gives it. *)
Definition truthy (v : jval) : bool :=
  match v with
  | JNull => false
  | JBool b => b
  | JInt z => negb (z =? 0)%Z
  | JStr s => negb (String.eqb s "")
  end.

(** [d[key]] on an object with scalar values. *)
Fixpoint details_getitem (d : list (string * jval)) (key : string)
  : result jval :=
  match d with
  | [] => Raise (KeyError key)
  | (k, v) :: rest =>
      if String.eqb k key then Ok v else details_getitem rest key
  end.

Section Restore.

Context {World : Type}.

(** [backups_client.restore_backup(backup_id)['restore']],
    [waiters.wait_for_volume_resource_status] and the text of a failed
    [assertEqual]. *)
Variable restore_backup_request : string -> M World jobject.
Variable wait_for_volume_resource_status :
  volume_client -> string -> string -> M World unit.
Variable mismatch : string -> string -> string.

(** The world and the cleanup stack of the test, last pushed first. *)
Definition Test : Type := @ClassState World test_cleanup.

(** [self.addCleanup] *)
Definition addCleanup (a : test_cleanup) : M Test unit :=
  fun s => (Ok tt, {| world := world s; cleanups := a :: cleanups s |}).

(** [restore_backup] *)
Definition restore_backup (backup_id : string) : M Test jobject :=
  restored_volume <~ remote (restore_backup_request backup_id) ;;
  volume_id <~ lift (getitem restored_volume "volume_id") ;;
  addCleanup (DeleteVolume VolumesClient volume_id) ;;;
  restored_backup_id <~ lift (getitem restored_volume "backup_id") ;;
  LiveMigration.assertEqual backup_id restored_backup_id
    (mismatch backup_id restored_backup_id) ;;;
  remote (wait_for_volume_resource_status BackupsClient backup_id
            "available") ;;;
  volume_id' <~ lift (getitem restored_volume "volume_id") ;;
  remote (wait_for_volume_resource_status VolumesClient volume_id'
            "available") ;;;
  ret restored_volume.

(** X13.  Once the restore request is answered with the id of a
    volume, [restore_backup] has the deletion of that volume on the
    cleanup stack at every exit: it is pushed before anything is
    checked.  If the answer names another backup the helper fails
    there, with an assertion failure, and waits for nothing; when it
    returns, it returns the answer, the answer names the backup asked
    for, and the backup, then the volume, were waited for until
    ['available']. *)
Theorem restored_volume_is_registered_before_any_check
    (backup_id : string) (s : Test) (restored_volume : jobject)
    (w1 : World) (volume_id : string) :
  restore_backup_request backup_id (world s) = (Ok restored_volume, w1) ->
  getitem restored_volume "volume_id" = Ok volume_id ->
  exists r s',
    restore_backup backup_id s = (r, s') /\
    cleanups s' = DeleteVolume VolumesClient volume_id :: cleanups s /\
    (forall b, getitem restored_volume "backup_id" = Ok b ->
               b <> backup_id ->
               r = Raise (AssertionFailure (mismatch backup_id b)) /\
               world s' = w1) /\
    (forall answer, r = Ok answer ->
       answer = restored_volume /\
       getitem restored_volume "backup_id" = Ok backup_id /\
       exists w2,
         wait_for_volume_resource_status BackupsClient backup_id
           "available" w1 = (Ok tt, w2) /\
         wait_for_volume_resource_status VolumesClient volume_id
           "available" w2 = (Ok tt, world s')).
Proof.
  intros Hreq Hvid.
  unfold restore_backup, bind, remote, lift, addCleanup,
    LiveMigration.assertEqual, ret, raise.
  rewrite Hreq. cbn [world cleanups]. rewrite Hvid.
  destruct (getitem restored_volume "backup_id") as [b|e] eqn:Eb.
  2:{ do 2 eexists. split; [reflexivity |]. split; [reflexivity |].
      split; [discriminate | discriminate]. }
  destruct (String.eqb backup_id b) eqn:E.
  - apply String.eqb_eq in E. subst b. cbn [world cleanups].
    destruct (wait_for_volume_resource_status BackupsClient backup_id
                "available" w1) as [[[]|e] w2] eqn:W1.
    2:{ do 2 eexists. split; [reflexivity |]. split; [reflexivity |].
        split; [intros b Hb Hne; congruence | discriminate]. }
    cbn [world cleanups].
    destruct (wait_for_volume_resource_status VolumesClient volume_id
                "available" w2) as [[[]|e] w3] eqn:W2.
    2:{ do 2 eexists. split; [reflexivity |]. split; [reflexivity |].
        split; [intros b Hb Hne; congruence | discriminate]. }
    do 2 eexists. split; [reflexivity |]. split; [reflexivity |].
    split; [intros b Hb Hne; congruence |].
    intros answer Ha. inversion Ha; subst answer.
    split; [reflexivity |]. split; [reflexivity |].
    exists w2. split; [reflexivity | exact W2].
  - do 2 eexists. split; [reflexivity |].
    split; [reflexivity |]. split; [| discriminate].
    intros b' Hb Hne. inversion Hb; subst b'. split; reflexivity.
Qed.

(** ** [test_bootable_volume_backup_and_restore] *)

(** [CONF.compute.image_ref]; [create_volume] and [create_backup] of
    the base class; [volumes_client.show_volume(id)['volume']]; the
    text of a failed [assertTrue]. *)
Variable image_ref : string.
Variable create_volume : string -> M World jobject.
Variable create_backup : string -> M World jobject.
Variable show_volume : string -> M World (list (string * jval)).
Variable not_true : jval -> string.

(** [self.assertTrue(x)] *)
Definition assertTrue (x : jval) : M Test unit :=
  if truthy x then ret tt else raise (AssertionFailure (not_true x)).

Definition test_bootable_volume_backup_and_restore : M Test unit :=
  volume <~ remote (create_volume image_ref) ;;
  volume_id <~ lift (getitem volume "id") ;;
  volume_details <~ remote (show_volume volume_id) ;;
  bootable <~ lift (details_getitem volume_details "bootable") ;;
  assertTrue bootable ;;;
  volume_id1 <~ lift (getitem volume "id") ;;
  backup <~ remote (create_backup volume_id1) ;;
  volume_id2 <~ lift (getitem volume "id") ;;
  remote (wait_for_volume_resource_status VolumesClient volume_id2
            "available") ;;;
  backup_id <~ lift (getitem backup "id") ;;
  restored_volume <~ restore_backup backup_id ;;
  restored_volume_id <~ lift (getitem restored_volume "volume_id") ;;
  restored_volume_info <~ remote (show_volume restored_volume_id) ;;
  restored_bootable <~
    lift (details_getitem restored_volume_info "bootable") ;;
  assertTrue restored_bootable.

Lemma test_remote_returns {A} (c : M World A) (s s' : Test) a :
  remote c s = (Ok a, s') ->
  c (world s) = (Ok a, world s') /\ cleanups s' = cleanups s.
Proof.
  unfold remote. destruct (c (world s)) as [r w'] eqn:E. intros H.
  inversion H; subst. simpl. auto.
Qed.

Lemma lift_gives {St A} (r : result A) (s s' : St) a :
  lift r s = (Ok a, s') -> r = Ok a /\ s' = s.
Proof. unfold lift. intros H. inversion H. split; reflexivity. Qed.

Lemma assertTrue_returns x (s s' : Test) u :
  assertTrue x s = (Ok u, s') -> truthy x = true /\ s' = s.
Proof.
  unfold assertTrue. destruct (truthy x); intros H; inversion H.
  split; reflexivity.
Qed.

Lemma restore_backup_returns backup_id (s s' : Test) answer :
  restore_backup backup_id s = (Ok answer, s') ->
  exists volume_id w1,
    restore_backup_request backup_id (world s) = (Ok answer, w1) /\
    getitem answer "volume_id" = Ok volume_id /\
    getitem answer "backup_id" = Ok backup_id /\
    cleanups s' = DeleteVolume VolumesClient volume_id :: cleanups s.
Proof.
  intros H. pose proof H as H0. unfold restore_backup in H.
  bind_inv H as rv s1 H1. apply test_remote_returns in H1 as [H1 _].
  bind_inv H as vid s2 H2. apply lift_gives in H2 as [H2 _].
  destruct (restored_volume_is_registered_before_any_check
              backup_id s rv (world s1) vid H1 H2)
    as (r & s'' & Hrun & Hc & _ & Hok).
  rewrite H0 in Hrun. inversion Hrun; subst r s''.
  destruct (Hok answer eq_refl) as (-> & Hb & _).
  exists vid, (world s1). repeat split; assumption.
Qed.


End Restore.

(** ** A volume service to run the helpers on *)

(** The service answers every request; [restored_bootable] is what it
    reports as ['bootable'] for a restored volume, and [restores_to]
    the backup its restore answer names. *)
Record volsvc : Type := {
  restored_bootable : jval;
  restores_to : string
}.

Definition volsvc_restore (backup_id : string) : M volsvc jobject :=
  fun v =>
    (Ok [("backup_id", restores_to v); ("volume_id", "volume-2")], v).

Definition volsvc_show (volume_id : string)
  : M volsvc (list (string * jval)) :=
  fun v =>
    (Ok [("id", JStr volume_id);
         ("bootable",
          if String.eqb volume_id "volume-2" then restored_bootable v
          else JStr "true")], v).

Definition volsvc_restore_backup (v : volsvc) :=
  restore_backup volsvc_restore (fun _ _ _ w => (Ok tt, w))
    (fun a b => String.append a (String.append " != " b)) "backup-1"
    {| world := v; cleanups := [] |}.

Definition volsvc_test (v : volsvc) :=
  test_bootable_volume_backup_and_restore volsvc_restore
    (fun _ _ _ w => (Ok tt, w))
    (fun a b => String.append a (String.append " != " b)) "image-1"
    (fun _ w => (Ok [("id", "volume-1")], w))
    (fun _ w => (Ok [("id", "backup-1")], w))
    volsvc_show (fun _ => "value is not true")
    {| world := v; cleanups := [] |}.

Definition says_false : volsvc :=
  {| restored_bootable := JStr "false"; restores_to := "backup-1" |}.

Definition wrong_backup : volsvc :=
  {| restored_bootable := JStr "true"; restores_to := "backup-7" |}.

(** The restored volume is reported with ['bootable'] ["false"], a
    string, and the test passes. *)
Example bootable_false_run :
  volsvc_test says_false
  = (Ok tt, {| world := says_false;
               cleanups := [DeleteVolume VolumesClient "volume-2"] |}).
Proof. vm_compute. reflexivity. Qed.

(** With the boolean the test fails. *)
Example bootable_boolean_run :
  volsvc_test {| restored_bootable := JBool false;
                 restores_to := "backup-1" |}
  = (Raise (AssertionFailure "value is not true"),
     {| world := {| restored_bootable := JBool false;
                    restores_to := "backup-1" |};
        cleanups := [DeleteVolume VolumesClient "volume-2"] |}).
Proof. vm_compute. reflexivity. Qed.

Lemma restored_volume_is_registered_before_any_check_witness :
  exists r s',
    volsvc_restore_backup wrong_backup = (r, s') /\
    cleanups s' = DeleteVolume VolumesClient "volume-2" :: [] /\
    (forall b,
        getitem [("backup_id", "backup-7"); ("volume_id", "volume-2")]
          "backup_id" = Ok b ->
        b <> "backup-1" ->
        r = Raise (AssertionFailure
                     (String.append "backup-1" (String.append " != " b))) /\
        world s' = wrong_backup) /\
    (forall answer, r = Ok answer ->
       answer = [("backup_id", "backup-7"); ("volume_id", "volume-2")] /\
       getitem [("backup_id", "backup-7"); ("volume_id", "volume-2")]
         "backup_id" = Ok "backup-1" /\
       exists w2,
         (Ok tt, wrong_backup) = (Ok tt, w2) /\
         (Ok tt, w2) = (Ok tt, world s')).
Proof.
  apply (restored_volume_is_registered_before_any_check volsvc_restore
           (fun _ _ _ w => (Ok tt, w))
           (fun a b => String.append a (String.append " != " b))
           "backup-1" {| world := wrong_backup; cleanups := [] |}
           [("backup_id", "backup-7"); ("volume_id", "volume-2")]
           wrong_backup "volume-2").
  - reflexivity.
  - reflexivity.
Defined.


End Backup.

(** * The time budget of the console check ([test_live_migration.py]) *)

Module ConsoleBudget.

(** The sends in a trace. *)
Definition is_send (ev : Console.event) : bool :=
  match ev with
  | Console.EvSend _ => true
  | _ => false
  end.

Definition sends (tr : list Console.event) : nat :=
  length (List.filter is_send tr).

Lemma sends_app tr1 tr2 : sends (tr1 ++ tr2) = sends tr1 + sends tr2.
Proof. unfold sends. now rewrite List.filter_app, length_app. Qed.

Section Budget.

Context {World : Type}.

Variable get_remote_console : string -> M World string.
Variable create_websocket : string -> M World nat.
Variable send_frame : nat -> string -> M World unit.
Variable receive_frame : nat -> M World string.
Variable close : nat -> M World unit.
Variable sleep : float -> World -> World.

Abbreviation iteration :=
  (Console.iteration create_websocket send_frame receive_frame sleep).
Abbreviation poll :=
  (Console.poll create_websocket send_frame receive_frame sleep).
Abbreviation helper :=
  (Console._verify_console_interaction get_remote_console create_websocket
     send_frame receive_frame close sleep).

(** A round of the loop sends once, and [t] grows by the interval when
    the round ends normally; the console output only grows. *)
Lemma iteration_sends_once console_url s r s1 :
  iteration console_url s = (r, s1) ->
  sends (Console.trace s1) = S (sends (Console.trace s)) /\
  (r = Ok tt ->
   Console.t s1 = PrimFloat.add (Console.t s) Console.interval).
Proof.
  rewrite Console.iteration_cases. unfold Console.after_reconnect.
  destruct (send_frame (Console.ws s) Console.data (Console.world s))
    as [[[]|e] w1].
  - destruct (receive_frame (Console.ws s) w1) as [[received|e] w2].
    + intros H; inversion H; subst; simpl.
      rewrite sends_app. simpl. split; [unfold sends; simpl; lia | auto].
    + destruct (create_websocket console_url w2) as [[y|e'] w3];
        intros H; inversion H; subst; simpl.
      * rewrite !sends_app. unfold sends; simpl.
        split; [lia | auto].
      * rewrite !sends_app. unfold sends; simpl.
        split; [lia | discriminate].
  - destruct (create_websocket console_url w1) as [[y|e'] w3];
      intros H; inversion H; subst; simpl.
    + rewrite !sends_app. unfold sends; simpl. split; [lia | auto].
    + rewrite !sends_app. unfold sends; simpl.
      split; [lia | discriminate].
Qed.

(** The loop sends at most as often as the budget allows from the
    value [t] has. *)
Lemma poll_sends fuel console_url :
  forall s r s1,
    poll fuel console_url s = Some (r, s1) ->
    sends (Console.trace s1)
    <= sends (Console.trace s)
       + Console.iterations_within fuel (Console.t s).
Proof.
  induction fuel as [|fuel IH]; intros s r s1 H; simpl in H.
  - destruct (Console.guard s); [discriminate |]. inversion H; subst.
    lia.
  - destruct (Console.guard s) eqn:G.
    + unfold Console.guard in G. apply andb_true_iff in G as [_ G].
      simpl. rewrite G.
      destruct (iteration console_url s) as [[[]|e] s2] eqn:E.
      * destruct (iteration_sends_once _ _ _ _ E) as [Hs Ht].
        specialize (IH _ _ _ H). rewrite Hs, (Ht eq_refl) in IH. lia.
      * inversion H; subst.
        destruct (iteration_sends_once _ _ _ _ E) as [Hs _]. lia.
    + inversion H; subst. lia.
Qed.

Lemma finish_sends r s r' s' :
  Console.finish close r s = (r', s') ->
  sends (Console.trace s') = sends (Console.trace s) /\
  Console.console_output s' = Console.console_output s /\
  (r' = Ok tt -> str_in Console.data (Console.console_output s) = true).
Proof.
  unfold Console.finish, try_finally, Console.close_current,
    Console.assertIn_data, bind, lift, Console.get, Console.log,
    Console.remote, ret, raise; simpl.
  destruct (close (Console.ws s) (Console.world s)) as [[[]|e] w1]; simpl.
  - destruct r as [[]|e]; simpl.
    + destruct (str_in Console.data (Console.console_output s)) eqn:E;
        intros H; inversion H; subst; simpl;
        rewrite !sends_app; unfold sends; simpl;
        repeat split; auto; try lia; discriminate.
    + intros H; inversion H; subst; simpl.
      rewrite !sends_app; unfold sends; simpl.
      repeat split; auto; try lia; discriminate.
  - intros H; inversion H; subst; simpl.
    rewrite !sends_app; unfold sends; simpl.
    repeat split; auto; try lia; discriminate.
Qed.

Lemma helper_total server_id w tr :
  exists r s, helper server_id w tr = Some (r, s).
Proof.
  unfold Console._verify_console_interaction.
  cbv [Console.remote Console.world Console.trace Console.ws
       Console.console_output Console.t].
  destruct (get_remote_console server_id w) as [[url|e] w1]; [| eauto].
  cbv [Console.connect Console.remote bind Console.log Console.set_ws
       Console.world Console.trace Console.ws Console.console_output
       Console.t].
  destruct (create_websocket url w1) as [[ws0|e] w2]; [| eauto].
  match goal with
  | |- context [Console.poll _ _ _ _ _ _ ?s2] =>
      destruct (Console.poll_total create_websocket send_frame
                  receive_frame sleep Console.poll_fuel url s2
                  Console.budget_runs_out) as (r & s3 & Hpoll);
      rewrite Hpoll
  end.
  destruct (Console.finish close r s3) as [r' s']. eauto.
Qed.

Lemma helper_sends server_id w tr r s :
  helper server_id w tr = Some (r, s) ->
  sends (Console.trace s) <= sends tr + 1201.
Proof.
  intros H. unfold Console._verify_console_interaction in H.
  cbv [Console.remote Console.world Console.trace Console.ws
       Console.console_output Console.t] in H.
  destruct (get_remote_console server_id w) as [[url|e] w1].
  2:{ inversion H; subst. simpl. lia. }
  cbv [Console.connect Console.remote bind Console.log Console.set_ws
       Console.world Console.trace Console.ws Console.console_output
       Console.t] in H.
  destruct (create_websocket url w1) as [[ws0|e] w2].
  2:{ inversion H; subst. simpl. lia. }
  match type of H with
  | context [Console.poll _ _ _ _ _ _ ?s2] =>
      destruct (Console.poll create_websocket send_frame receive_frame
                  sleep Console.poll_fuel url s2) as [[r0 s3]|] eqn:Hpoll;
        [| discriminate];
      pose proof (poll_sends _ _ _ _ _ Hpoll) as Hsends
  end.
  cbn [Console.t Console.trace] in Hsends.
  rewrite Console.budget_iterations, sends_app in Hsends.
  change (sends [Console.EvCreate ws0]) with 0 in Hsends.
  inversion H as [Hfin]. clear H.
  destruct (finish_sends _ _ _ _ Hfin) as [Hs _]. rewrite Hs. lia.
Qed.

(** X15.  The console check returns, whatever the console does, and
    sends at most 1201 frames: with [t] counted in steps of [0.1] in
    binary64, [t <= 120.0] holds for the rounds 0 to 1200 and fails
    after the 1201st. *)
Theorem console_check_gives_up_after_1201_sends
    (server_id : string) (w : World) (tr : list Console.event) :
  exists r s,
    helper server_id w tr = Some (r, s) /\
    sends (Console.trace s) <= sends tr + 1201.
Proof.
  destruct (helper_total server_id w tr) as (r & s & H).
  exists r, s. split; [exact H |]. exact (helper_sends _ _ _ _ _ H).
Qed.

(** X16.  The console check succeeds only if the data it sent came
    back: in the state a successful check ends in, the console output
    holds ["test_live_migration_serial_console"]. *)
Theorem console_check_succeeds_only_on_echo
    (server_id : string) (w : World) (tr : list Console.event)
    (s : Console.State) :
  helper server_id w tr = Some (Ok tt, s) ->
  occurs_in Console.data (Console.console_output s).
Proof.
  unfold Console._verify_console_interaction.
  cbv [Console.remote Console.world Console.trace Console.ws
       Console.console_output Console.t].
  destruct (get_remote_console server_id w) as [[url|e] w1];
    [| discriminate].
  cbv [Console.connect Console.remote bind Console.log Console.set_ws
       Console.world Console.trace Console.ws Console.console_output
       Console.t].
  destruct (create_websocket url w1) as [[ws0|e] w2]; [| discriminate].
  match goal with
  | |- context [Console.poll _ _ _ _ _ _ ?s2] =>
      destruct (Console.poll create_websocket send_frame receive_frame
                  sleep Console.poll_fuel url s2) as [[r s3]|];
        [| discriminate]
  end.
  intros H. inversion H as [Hfin]. clear H.
  destruct (finish_sends _ _ _ _ Hfin) as (_ & Ho & Hok).
  apply str_in_iff.
  change (str_in Console.data (Console.console_output s) = true).
  rewrite Ho. now apply Hok.
Qed.

End Budget.

Lemma console_check_succeeds_only_on_echo_witness :
  occurs_in Console.data "login: test_live_migration_serial_console".
Proof.
  apply (console_check_succeeds_only_on_echo
           Console.flaky_get_remote_console Console.flaky_create_websocket
           Console.flaky_send_frame Console.flaky_receive_frame
           Console.flaky_close (fun _ c => c) "server-1" (0, 2) []
           {| Console.world := (3, 0);
              Console.trace :=
                [Console.EvCreate 0; Console.EvSend 0; Console.EvCreate 1;
                 Console.EvSend 1; Console.EvCreate 2; Console.EvSend 2;
                 Console.EvRecv 2; Console.EvClose 2; Console.EvAssert];
              Console.ws := 2;
              Console.console_output :=
                "login: test_live_migration_serial_console";
              Console.t :=
                PrimFloat.add
                  (PrimFloat.add (PrimFloat.add 0 Console.interval)
                     Console.interval) Console.interval |}).
  vm_compute. reflexivity.
Defined.

End ConsoleBudget.
